(** * The game-tree store of en-croissant

    A shallow embedding of the move tree ([src/utils/treeReducer.ts]), of
    the store actions over it ([src/state/store/tree.ts]) and of the PGN
    codec ([src/utils/chess.ts]), with the properties the specification
    states about them.

    Conventions of the embedding.
    - A [TreeNode] is a JavaScript object: it carries its object identity
      [oid], which [===] compares.  An object literal or a spread
      [{...n}] allocates a new identity from the [World]; an assignment
      through a reference ([node.comment = c], [children.push(n)]) keeps
      the identity of the object it writes to.
    - Numbers used as array indices are [nat]; numbers that the code
      decrements below zero or takes a remainder of are [Z].
    - The rules engine (chessops) is an interface, the class
      [RulesEngine]; a live position is a value and [play] returns the
      position after the move, so [clone] is the identity.
    - A JavaScript exception is the outcome [Thrown]. *)

From Stdlib Require Import ZArith String Ascii List QArith Qround Lia Bool.
From stdpp Require Import base tactics option list strings pretty gmap sorting.

Set Warnings "-register-all".
Set Default Proof Using "Type".

Local Open Scope string_scope.
Local Open Scope list_scope.
Local Open Scope Z_scope.

(** ** JavaScript strings and arrays *)

Module Js.

(** [s.includes(c)] for a one-character [c]. *)
Fixpoint includes (c : ascii) (s : string) : bool :=
  match s with
  | EmptyString => false
  | String d r => if Ascii.eqb c d then true else includes c r
  end.

(** [s.charCodeAt(0)]: [None] stands for [NaN] on the empty string. *)
Definition charCodeAt0 (s : string) : option Z :=
  match s with
  | EmptyString => None
  | String c _ => Some (Z.of_nat (nat_of_ascii c))
  end.

(** [s.split(sep)[0]] for a non-empty [sep]: the part of [s] before the
    first occurrence of [sep], all of [s] when there is none. *)
Fixpoint splitHead (sep s : string) : string :=
  if String.prefix sep s then EmptyString
  else match s with
       | EmptyString => EmptyString
       | String c r => String c (splitHead sep r)
       end.

Definition isWhiteSpace (c : ascii) : bool :=
  let n := nat_of_ascii c in
  ((9 <=? n)%nat && (n <=? 13)%nat) || (n =? 32)%nat.

Fixpoint trimStart (s : string) : string :=
  match s with
  | String c r => if isWhiteSpace c then trimStart r else s
  | EmptyString => EmptyString
  end.

Fixpoint trimEnd (s : string) : string :=
  match s with
  | EmptyString => EmptyString
  | String c r =>
      match trimEnd r with
      | EmptyString => if isWhiteSpace c then EmptyString else String c EmptyString
      | r' => String c r'
      end
  end.

(** [s.trim()] *)
Definition trim (s : string) : string := trimEnd (trimStart s).

(** The line feed and the double quote. *)
Definition nl : string := String (ascii_of_nat 10) EmptyString.
Definition dquote : string := String (ascii_of_nat 34) EmptyString.

(** [parts.join("")] *)
Definition join (parts : list string) : string :=
  fold_right String.append EmptyString parts.

(** [`${n}`] for an integer. *)
Definition ofZ (n : Z) : string := pretty n.

(** [a.findIndex(p)]: the first index whose element satisfies [p], and
    [-1] when there is none. *)
Fixpoint findIndex {A} (p : A -> bool) (l : list A) : Z :=
  match l with
  | [] => -1
  | x :: r =>
      if p x then 0
      else let k := findIndex p r in if k <? 0 then -1 else k + 1
  end.

(** [a.findLastIndex(p)] *)
Fixpoint findLastIndex {A} (p : A -> bool) (l : list A) : Z :=
  match l with
  | [] => -1
  | x :: r =>
      let k := findLastIndex p r in
      if 0 <=? k then k + 1 else if p x then 0 else -1
  end.

(** [a.some(p)] *)
Definition some {A} (p : A -> bool) (l : list A) : bool := existsb p l.

(** The index at which [splice(start, ...)] begins on an array of length
    [len]: a negative [start] counts from the end, and the result is
    clamped to [0 .. len]. *)
Definition spliceStart (start : Z) (len : nat) : nat :=
  if start <? 0 then Z.to_nat (Z.max (Z.of_nat len + start) 0)
  else Nat.min (Z.to_nat start) len.

(** [a.splice(start, 1)]: the removed elements and the array left. *)
Definition splice1 {A} (start : Z) (l : list A) : list A * list A :=
  let k := spliceStart start (length l) in
  (take 1 (drop k l), take k l ++ drop (S k) l).

(** [a.slice(0, -1)] *)
Definition sliceInit {A} (l : list A) : list A := removelast l.

(** [a.slice(1)] *)
Definition slice1 {A} (l : list A) : list A := tail l.

(** [a.filter(x => x === v).length] on strings. *)
Definition countEq (v : string) (l : list string) : nat :=
  length (filter (fun f => f = v) l).

End Js.

(** ** Data model ([src/utils/treeReducer.ts], chessops and bindings types) *)

Inductive Color := white | black.
Inductive Role := pawn | knight | bishop | rook | queen | king.

(** chessops [Move]: squares are numbered 0 (a1) to 63 (h8). *)
Inductive Move :=
| NormalMove (from to : nat) (promotion : option Role)
| DropMove (role : Role) (to : nat).

Inductive Outcome := Unknown | WhiteWins | BlackWins | Draw.

#[export] Instance Color_eq_dec : EqDecision Color.
Proof. solve_decision. Defined.
#[export] Instance Role_eq_dec : EqDecision Role.
Proof. solve_decision. Defined.
#[export] Instance Move_eq_dec : EqDecision Move.
Proof. solve_decision. Defined.
#[export] Instance Outcome_eq_dec : EqDecision Outcome.
Proof. solve_decision. Defined.

Definition outcomeText (o : Outcome) : string :=
  match o with
  | Unknown => "*"
  | WhiteWins => "1-0"
  | BlackWins => "0-1"
  | Draw => "1/2-1/2"
  end.

Inductive ScoreValue := Cp (value : Q) | Mate (value : Q).
Record Score := mkScore { scoreValue : ScoreValue; wdl : option (Z * Z * Z) }.

Record DrawShape := mkDrawShape {
  orig : string;
  dest : option string;
  brush : option string }.

Definition Annotation := string.

Inductive TreeNode : Type := mkTreeNode {
  oid : nat;
  fen : string;
  move : option Move;
  san : option string;
  children : list TreeNode;
  score : option Score;
  depth : option Z;
  halfMoves : Z;
  shapes : list DrawShape;
  annotations : list Annotation;
  comment : string;
  clock : option Q }.

Record GameHeaders := mkGameHeaders {
  id : Z;
  h_fen : string;
  event : string;
  site : string;
  date : option string;
  time : option string;
  round : option string;
  white_name : string;
  white_elo : option Z;
  black_name : string;
  black_elo : option Z;
  result : Outcome;
  time_control : option string;
  white_time_control : option string;
  black_time_control : option string;
  eco : option string;
  variant : option string;
  start : option (list nat);
  orientation : option Color }.

Record ReportState := mkReportState { inProgress : bool }.

Record TreeState := mkTreeState {
  root : TreeNode;
  headers : GameHeaders;
  position : list nat;
  dirty : bool;
  report : ReportState }.

(** Field assignments. *)
Definition withOid (o : nat) (n : TreeNode) : TreeNode :=
  mkTreeNode o (fen n) (move n) (san n) (children n) (score n) (depth n)
    (halfMoves n) (shapes n) (annotations n) (comment n) (clock n).
Definition withChildren (cs : list TreeNode) (n : TreeNode) : TreeNode :=
  mkTreeNode (oid n) (fen n) (move n) (san n) cs (score n) (depth n)
    (halfMoves n) (shapes n) (annotations n) (comment n) (clock n).
Definition withScore (s : option Score) (n : TreeNode) : TreeNode :=
  mkTreeNode (oid n) (fen n) (move n) (san n) (children n) s (depth n)
    (halfMoves n) (shapes n) (annotations n) (comment n) (clock n).
Definition withHalfMoves (h : Z) (n : TreeNode) : TreeNode :=
  mkTreeNode (oid n) (fen n) (move n) (san n) (children n) (score n) (depth n)
    h (shapes n) (annotations n) (comment n) (clock n).
Definition withShapes (s : list DrawShape) (n : TreeNode) : TreeNode :=
  mkTreeNode (oid n) (fen n) (move n) (san n) (children n) (score n) (depth n)
    (halfMoves n) s (annotations n) (comment n) (clock n).
Definition withAnnotations (a : list Annotation) (n : TreeNode) : TreeNode :=
  mkTreeNode (oid n) (fen n) (move n) (san n) (children n) (score n) (depth n)
    (halfMoves n) (shapes n) a (comment n) (clock n).
Definition withComment (c : string) (n : TreeNode) : TreeNode :=
  mkTreeNode (oid n) (fen n) (move n) (san n) (children n) (score n) (depth n)
    (halfMoves n) (shapes n) (annotations n) c (clock n).
Definition withClock (c : option Q) (n : TreeNode) : TreeNode :=
  mkTreeNode (oid n) (fen n) (move n) (san n) (children n) (score n) (depth n)
    (halfMoves n) (shapes n) (annotations n) (comment n) c.

Definition withResult (r : Outcome) (h : GameHeaders) : GameHeaders :=
  mkGameHeaders (id h) (h_fen h) (event h) (site h) (date h) (time h) (round h)
    (white_name h) (white_elo h) (black_name h) (black_elo h) r
    (time_control h) (white_time_control h) (black_time_control h)
    (eco h) (variant h) (start h) (orientation h).

Definition withRoot (r : TreeNode) (s : TreeState) : TreeState :=
  mkTreeState r (headers s) (position s) (dirty s) (report s).
Definition withHeaders (h : GameHeaders) (s : TreeState) : TreeState :=
  mkTreeState (root s) h (position s) (dirty s) (report s).
Definition withPosition (p : list nat) (s : TreeState) : TreeState :=
  mkTreeState (root s) (headers s) p (dirty s) (report s).
Definition withDirty (d : bool) (s : TreeState) : TreeState :=
  mkTreeState (root s) (headers s) (position s) d (report s).

(** chessops/fen [INITIAL_FEN] *)
Definition INITIAL_FEN : string :=
  "rnbqkbnr/pppppppp/8/8/8/8/PPPPPPPP/RNBQKBNR w KQkq - 0 1".

(** ** Allocation, sound cues and exceptions *)

Record World := mkWorld {
  next_oid : nat;
  sounds : list (bool * bool) }.

Inductive Exn := TypeError | UnwrapError.

Inductive Outcome_of (A : Type) :=
| Returned (a : A) (w : World)
| Thrown (e : Exn).
Arguments Returned {A} a w.
Arguments Thrown {A} e.

Definition M (A : Type) : Type := World -> Outcome_of A.

Definition throw {A} (e : Exn) : M A := fun _ => Thrown e.

#[export] Instance M_ret : MRet M := fun A a w => Returned a w.
#[export] Instance M_bind : MBind M := fun A B k m w =>
  match m w with
  | Returned a w' => k a w'
  | Thrown e => Thrown e
  end.

(** A new object identity. *)
Definition newOid : M nat :=
  fun w => Returned (next_oid w) (mkWorld (S (next_oid w)) (sounds w)).

(** utils/sound [playSound(capture, check)] *)
Definition playSound (capture check : bool) : M unit :=
  fun w => Returned tt (mkWorld (next_oid w) (sounds w ++ [(capture, check)])).

(** [{ ...n, children: [...n.children] }] *)
Definition cloneNode (n : TreeNode) : M TreeNode :=
  o ← newOid; mret (withOid o n).

(** ** Path addressing ([src/utils/treeReducer.ts]) *)

Fixpoint getNodeAtPath (node : TreeNode) (path : list nat) : TreeNode :=
  match path with
  | [] => node
  | index :: rest =>
      match children node !! index with
      | None => node
      | Some child => getNodeAtPath child rest
      end
  end.

(** An assignment through the reference that [getNodeAtPath] returns:
    [f] is applied to the node where [getNodeAtPath] stops, in place. *)
Fixpoint assignAtPath (f : TreeNode -> TreeNode) (node : TreeNode)
    (path : list nat) : TreeNode :=
  match path with
  | [] => f node
  | index :: rest =>
      match children node !! index with
      | None => f node
      | Some child =>
          withChildren (<[index := assignAtPath f child rest]> (children node)) node
      end
  end.

(** The part of [path] that [getNodeAtPath] follows. *)
Fixpoint resolvedPath (node : TreeNode) (path : list nat) : list nat :=
  match path with
  | [] => []
  | index :: rest =>
      match children node !! index with
      | None => []
      | Some child => index :: resolvedPath child rest
      end
  end.

(** [path] addresses a node: every index is in range. *)
Definition resolves (node : TreeNode) (path : list nat) : Prop :=
  resolvedPath node path = path.

Definition createNode (fen : string) (move : Move) (san : string)
    (halfMoves : Z) (clock : option Q) : M TreeNode :=
  o ← newOid;
  mret (mkTreeNode o fen (Some move) (Some san) []
         None None halfMoves [] [] ""
         (match clock with
          | Some c => if Qeq_bool c 0 then None else Some (c / 1000)%Q
          | None => None
          end)).

(** ** The rules engine (chessops, and the wrappers of utils/chessops) *)

Class RulesEngine := {
  Pos : Type;
  Setup : Type;
  (** chessops/fen [parseFen], [None] for an [Err] result *)
  parseFen : string -> option Setup;
  (** [Chess.fromSetup], [None] for an [Err] result *)
  fromSetup : Setup -> option Pos;
  (** utils/chessops [positionFromFen(fen)[0]], [None] for [null] *)
  positionFromFen : string -> option Pos;
  (** chessops/san [parseSan], [None] for [undefined] *)
  parseSan : Pos -> string -> option Move;
  (** utils/chessops [parseSanOrUci] *)
  parseSanOrUci : Pos -> string -> option Move;
  (** chessops [parseUci] *)
  parseUci : string -> option Move;
  makeSan : Pos -> Move -> string;
  (** [pos.play(move)], as the position it leaves *)
  play : Pos -> Move -> Pos;
  turn : Pos -> Color;
  isEnd : Pos -> bool;
  isCheckmate : Pos -> bool;
  isStalemate : Pos -> bool;
  isInsufficientMaterial : Pos -> bool;
  toSetup : Pos -> Setup;
  makeFen : Setup -> string }.

(** ** Copy-on-write and move application ([src/state/store/tree.ts]) *)

(** The loop of [clonePath], from the node [current] on. *)
Fixpoint clonePathFrom (current : TreeNode) (path : list nat) : M TreeNode :=
  match path with
  | [] => mret current
  | idx :: rest =>
      match children current !! idx with
      | None => mret current
      | Some child =>
          clonedChild ← cloneNode child;
          clonedChild' ← clonePathFrom clonedChild rest;
          mret (withChildren (<[idx := clonedChild']> (children current)) current)
      end
  end.

Definition clonePath (root : TreeNode) (path : list nat) : M TreeNode :=
  newRoot ← cloneNode root;
  clonePathFrom newRoot path.

(** The position string without what follows its first [" - "]. *)
Definition fenKey (fen : string) : string := Js.splitHead " - " fen.

(** The loop of [isThreeFoldRepetition]; [None] when [node] becomes
    [undefined] and [node.fen] throws. *)
Fixpoint repetitionFens (node : TreeNode) (position : list nat)
    (fens : list string) : option (list string) :=
  match position with
  | [] => Some fens
  | i :: rest =>
      match children node !! i with
      | None => None
      | Some child => repetitionFens child rest (fens ++ [fenKey (fen child)])
      end
  end.

Definition isThreeFoldRepetition (state : TreeState) (fen : string) : M bool :=
  match repetitionFens (root state) (position state) [fenKey INITIAL_FEN] with
  | None => throw TypeError
  | Some fens => mret (2 <=? Js.countEq (fenKey fen) fens)%nat
  end.

(** The test of [is50MoveRule] on a notation: a leading file letter, an
    ["x"] or an ["="]. *)
Definition resetsCounter (san : string) : bool :=
  match Js.charCodeAt0 san with
  | Some ch => (97 <=? ch) && (ch <=? 104)
  | None => false
  end
  || Js.includes "x" san || Js.includes "=" san.

(** The loop of [is50MoveRule]; [None] when [node.san] throws. *)
Fixpoint fiftyCount (node : TreeNode) (position : list nat) (count : nat)
    : option nat :=
  match position with
  | [] => Some count
  | i :: rest =>
      match children node !! i with
      | None => None
      | Some child =>
          let count := S count in
          let count :=
            match san child with
            | Some s =>
                if String.eqb s "" then count
                else if resetsCounter s then 0%nat else count
            | None => count
            end in
          fiftyCount child rest count
      end
  end.

Definition is50MoveRule (state : TreeState) : M bool :=
  match fiftyCount (root state) (position state) 0 with
  | None => throw TypeError
  | Some count => mret (100 <=? count)%nat
  end.

(** The path the loop [while (moveNode.children.length > 0)] pushes. *)
Fixpoint mainlineEnd (n : TreeNode) : list nat :=
  match children n with
  | [] => []
  | c :: _ => 0%nat :: mainlineEnd c
  end.

Inductive Payload := PSan (s : string) | PMove (m : Move).

Record MoveOnTreeArgs := mkMoveOnTreeArgs {
  a_move : Move;
  a_last : bool;
  a_changePosition : bool;
  a_changeHeaders : bool;
  a_mainline : bool;
  a_clock : option Q;
  a_sound : bool }.

Definition sanIs (s : string) (n : TreeNode) : bool :=
  match san n with
  | Some s' => String.eqb s' s
  | None => false
  end.

Section Store.
Context `{RulesEngine}.

Definition makeMoveOnTree (a : MoveOnTreeArgs) (state : TreeState)
    : M TreeState :=
  let position := if a_last a then mainlineEnd (root state) else position state in
  let moveNode := getNodeAtPath (root state) position in
  match positionFromFen (fen moveNode) with
  | None => mret state
  | Some pos =>
      let san := makeSan pos (a_move a) in
      if String.eqb san "--" then mret state
      else
        let pos := play pos (a_move a) in
        _ ← (if a_sound a
             then playSound (Js.includes "x" san) (Js.includes "+" san)
             else mret tt);
        let state :=
          if a_changeHeaders a && isEnd pos then
            let state :=
              if isCheckmate pos
              then withHeaders
                     (withResult (match turn pos with
                                  | white => BlackWins
                                  | black => WhiteWins
                                  end) (headers state)) state
              else state in
            if isStalemate pos || isInsufficientMaterial pos
            then withHeaders (withResult Draw (headers state)) state
            else state
          else state in
        let newFen := makeFen (toSetup pos) in
        draw ← (if a_changeHeaders a then
                  three ← isThreeFoldRepetition state newFen;
                  if (three : bool) then mret true else is50MoveRule state
                else is50MoveRule state);
        let state :=
          if (draw : bool) then withHeaders (withResult Draw (headers state)) state
          else state in
        let i := Js.findIndex (sanIs san) (children moveNode) in
        if negb (i =? -1) then
          if a_changePosition a then
            match children moveNode !! Z.to_nat i with
            | None => throw TypeError
            | Some child =>
                cloned ← cloneNode child;
                mret (withPosition (position ++ [Z.to_nat i])
                        (withRoot
                           (assignAtPath
                              (fun n => withChildren (<[Z.to_nat i := cloned]> (children n)) n)
                              (root state) position)
                           state))
            end
          else mret state
        else
          let state := withDirty true state in
          newMoveNode ← createNode newFen (a_move a) san
                          (halfMoves moveNode + 1) (a_clock a);
          let state :=
            withRoot
              (assignAtPath
                 (fun n =>
                    withChildren (if a_mainline a then newMoveNode :: children n
                                  else children n ++ [newMoveNode]) n)
                 (root state) position)
              state in
          let len := S (length (children moveNode)) in
          if a_changePosition a then
            if negb (a_last a) then
              mret (withPosition
                      (position ++ [if a_mainline a then 0%nat else (len - 1)%nat])
                      state)
            else mret (withPosition (position ++ [(len - 1)%nat]) state)
          else mret state
  end.

Record MakeMoveArgs := mkMakeMoveArgs {
  payload : Payload;
  changePosition : option bool;
  mainline : option bool;
  clock_ms : option Q;
  changeHeaders : option bool }.

(** The store action [makeMove]. *)
Definition makeMove (a : MakeMoveArgs) (state : TreeState) : M TreeState :=
  let curNode := getNodeAtPath (root state) (position state) in
  match positionFromFen (fen curNode) with
  | None => mret state
  | Some pos =>
      match (match payload a with
             | PSan s => parseSan pos s
             | PMove m => Some m
             end) with
      | None => mret state
      | Some move =>
          let san := makeSan pos move in
          if String.eqb san "--" then mret state
          else
            let existingIdx := Js.findIndex (sanIs san) (children curNode) in
            if negb (existingIdx =? -1) then
              _ ← playSound (Js.includes "x" san) (Js.includes "+" san);
              match changePosition a with
              | Some false => mret state
              | _ => mret (withPosition (position state ++ [Z.to_nat existingIdx]) state)
              end
            else
              newRoot ← clonePath (root state) (position state);
              let mutableState :=
                mkTreeState newRoot (headers state) (position state)
                  (dirty state) (report state) in
              mutableState ←
                makeMoveOnTree
                  (mkMoveOnTreeArgs move false
                     (default true (changePosition a))
                     (default true (changeHeaders a))
                     (default false (mainline a))
                     (clock_ms a) true)
                  mutableState;
              mret (mkTreeState (root mutableState) (headers mutableState)
                      (position mutableState) (dirty mutableState) (report state))
      end
  end.

Record MakeMovesArgs := mkMakeMovesArgs {
  ms_payload : list string;
  ms_mainline : option bool;
  ms_changeHeaders : option bool }.

(** The first loop of [makeMoves], which follows existing children: the
    live position, the node and the cursor it stops at, and the notations
    it has not consumed; [None] when a notation does not parse and the
    action returns the state it was given.  [findIndex] gives an index of
    the array, so the lookup of the child does not fail. *)
Fixpoint fastPrefix (pos : Pos) (curNode : TreeNode) (position : list nat)
    (payload : list string) : option (Pos * TreeNode * list nat * list string) :=
  match payload with
  | [] => Some (pos, curNode, position, [])
  | notation :: rest =>
      match parseSanOrUci pos notation with
      | None => None
      | Some m =>
          let san := makeSan pos m in
          let childIdx := Js.findIndex (sanIs san) (children curNode) in
          if childIdx =? -1 then Some (pos, curNode, position, payload)
          else
            match children curNode !! Z.to_nat childIdx with
            | None => None
            | Some child =>
                fastPrefix (play pos m) child (position ++ [Z.to_nat childIdx]) rest
            end
      end
  end.

(** The second loop of [makeMoves], which adds the moves that are left;
    it stops at a notation that does not parse. *)
Fixpoint slowLoop (a : MakeMovesArgs) (pos : Pos) (payload : list string)
    (mutableState : TreeState) : M TreeState :=
  match payload with
  | [] => mret mutableState
  | notation :: rest =>
      match parseSanOrUci pos notation with
      | None => mret mutableState
      | Some m =>
          mutableState ←
            makeMoveOnTree
              (mkMoveOnTreeArgs m false true
                 (default true (ms_changeHeaders a))
                 (default false (ms_mainline a))
                 None
                 (match rest with [] => true | _ :: _ => false end))
              mutableState;
          slowLoop a (play pos m) rest mutableState
      end
  end.

(** The store action [makeMoves]. *)
Definition makeMoves (a : MakeMovesArgs) (state : TreeState) : M TreeState :=
  let curNode := getNodeAtPath (root state) (position state) in
  match positionFromFen (fen curNode) with
  | None => mret state
  | Some pos =>
      match fastPrefix pos curNode (position state) (ms_payload a) with
      | None => mret state
      | Some (_, curNode, position_, []) =>
          _ ← (match ms_payload a with
               | [] => mret tt
               | _ :: _ =>
                   let lastSan := default "" (san curNode) in
                   playSound (Js.includes "x" lastSan) (Js.includes "+" lastSan)
               end);
          mret (withPosition position_ state)
      | Some (pos, _, position_, rest) =>
          newRoot ← clonePath (root state) position_;
          let mutableState :=
            mkTreeState newRoot (headers state) position_ true (report state) in
          mutableState ← slowLoop a pos rest mutableState;
          mret (mkTreeState (root mutableState) (headers mutableState)
                  (position mutableState) (dirty mutableState) (report state))
      end
  end.

End Store.

(** ** What the host and the other modules provide *)

Record CommentShape := mkCommentShape {
  cs_color : string;
  cs_from : nat;
  cs_to : nat }.

Inductive Evaluation := EvalPawns (pawns : Q) | EvalMate (mate : Q).

(** The result of chessops/pgn [parseComment]. *)
Record CommentData := mkCommentData {
  c_text : string;
  c_shapes : list CommentShape;
  c_clock : option Q;
  c_evaluation : option Evaluation }.

Class Host := {
  (** utils/annotation [ANNOTATION_INFO[a].group], [None] when absent *)
  annotationGroup : Annotation -> option string;
  (** utils/annotation [ANNOTATION_INFO[a].nag] *)
  annotationNag : Annotation -> Z;
  isBasicAnnotation : Annotation -> bool;
  (** utils/annotation [NAG_INFO.get] *)
  nagInfo : string -> option Annotation;
  (** [Array.prototype.sort] with a comparator *)
  jsSort : (Annotation -> Annotation -> Z) -> list Annotation -> list Annotation;
  (** utils/score [formatScore] *)
  formatScore : ScoreValue -> string;
  (** [`${x}`] for a number that need not be an integer *)
  numberText : Q -> string;
  (** [s.toLocaleString("en", {minimumIntegerDigits: 2, maximumFractionDigits: 3})] *)
  localeSeconds : Q -> string;
  parseComment : string -> CommentData;
  (** chessops [makeSquare] *)
  makeSquare : nat -> string }.

(** Modelled from the spec: utils/misc [isPrefix], which is not among the
    sources; "the cursor is at or below [path]" is the case in which
    [path] is a prefix of the cursor. *)
Fixpoint isPrefix (shorter longer : list nat) : bool :=
  match shorter, longer with
  | [], _ => true
  | _ :: _, [] => false
  | x :: s, y :: l => (x =? y)%nat && isPrefix s l
  end.

(** ** Field edits at the cursor ([src/state/store/tree.ts]) *)

Section FieldEdits.
Context `{Host}.

Definition groupIs (g : option string) (a : Annotation) : bool :=
  match annotationGroup a, g with
  | Some x, Some y => String.eqb x y
  | None, None => true
  | _, _ => false
  end.

(** [!ANNOTATION_INFO[a].group] *)
Definition noGroup (a : Annotation) : bool :=
  match annotationGroup a with
  | None => true
  | Some g => String.eqb g ""
  end.

Definition toggleAnnotation (payload : Annotation) (node : TreeNode) : TreeNode :=
  if existsb (String.eqb payload) (annotations node)
  then withAnnotations
         (List.filter (fun a => negb (String.eqb a payload)) (annotations node)) node
  else
    let newAnnotations :=
      List.filter
        (fun a => noGroup a || negb (groupIs (annotationGroup payload) a))
        (annotations node) in
    withAnnotations
      (jsSort (fun a b => if annotationNag b <? annotationNag a then 1 else -1)
         (newAnnotations ++ [payload]))
      node.

Definition setAnnotation (payload : Annotation) (state : TreeState) : M TreeState :=
  newRoot ← clonePath (root state) (position state);
  mret (withDirty true
          (withRoot (assignAtPath (toggleAnnotation payload) newRoot (position state))
             state)).

End FieldEdits.

Definition setComment (payload : string) (state : TreeState) : M TreeState :=
  newRoot ← clonePath (root state) (position state);
  mret (withDirty true
          (withRoot (assignAtPath (withComment payload) newRoot (position state))
             state)).

Definition setScore (score : Score) (state : TreeState) : M TreeState :=
  newRoot ← clonePath (root state) (position state);
  mret (withDirty true
          (withRoot (assignAtPath (withScore (Some score)) newRoot (position state))
             state)).

Definition clearShapes (state : TreeState) : M TreeState :=
  let node := getNodeAtPath (root state) (position state) in
  match shapes node with
  | [] => mret state
  | _ :: _ =>
      newRoot ← clonePath (root state) (position state);
      mret (withDirty true
              (withRoot (assignAtPath (withShapes []) newRoot (position state))
                 state))
  end.

(** ** Deleting and promoting ([src/state/store/tree.ts])

    These helpers run on the draft that [produce] hands them and write to
    it in place; the embedding passes the state and keeps the identity of
    every node written to. *)

Definition deleteMove (state : TreeState) (path : list nat) : TreeState :=
  let node := getNodeAtPath (root state) path in
  let parent := getNodeAtPath (root state) (Js.sliceInit path) in
  let index := Js.findIndex (fun n => (oid n =? oid node)%nat) (children parent) in
  let state :=
    withRoot
      (assignAtPath (fun p => withChildren (snd (Js.splice1 index (children p))) p)
         (root state) (Js.sliceInit path))
      state in
  if isPrefix path (position state) then
    withPosition (Js.sliceInit path) state
  else if isPrefix (Js.sliceInit path) (position state) then
    if (length path <=? length (position state))%nat
    then withPosition (<[(length path - 1)%nat := 0%nat]> (position state)) state
    else state
  else state.

(** The store action [deleteMove(path?)]: [path ?? state.position]. *)
Definition deleteMoveAction (path : option (list nat)) (state : TreeState)
    : TreeState :=
  let state := withDirty true state in
  deleteMove state (default (position state) path).

Definition nonZero (v : nat) : bool := negb (v =? 0)%nat.

(** [promoteVariation]; [None] when [splice(v, 1)] removes nothing and
    [unshift] stores [undefined] in [children], which is no [TreeNode]. *)
Definition promoteVariation (state : TreeState) (path : list nat)
    : option TreeState :=
  let i := Js.findLastIndex nonZero path in
  if i =? -1 then Some state
  else
    let i := Z.to_nat i in
    let v := default 0%nat (path !! i) in
    let promotablePath := take i path in
    let node := getNodeAtPath (root state) promotablePath in
    match Js.splice1 (Z.of_nat v) (children node) with
    | (removed :: _, _) =>
        Some (withPosition (<[i := 0%nat]> path)
                (withRoot
                   (assignAtPath
                      (fun n =>
                         withChildren
                           (removed :: snd (Js.splice1 (Z.of_nat v) (children n))) n)
                      (root state) promotablePath)
                   state))
    | ([], _) => None
    end.

Inductive Loop (A : Type) := Finished (a : A) | OutOfFuel.
Arguments Finished {A} a.
Arguments OutOfFuel {A}.

(** The loop of [promoteToMainline]: [while (p.some((v) => v !== 0))]. *)
Fixpoint promoteLoop (fuel : nat) (state : TreeState) (p : list nat)
    : Loop (option TreeState) :=
  if Js.some nonZero p then
    match fuel with
    | O => OutOfFuel
    | S fuel =>
        match promoteVariation state p with
        | Some state => promoteLoop fuel state (position state)
        | None => Finished None
        end
    end
  else Finished (Some state).

Definition promoteVariationAction (path : list nat) (state : TreeState)
    : option TreeState :=
  promoteVariation (withDirty true state) path.

Definition promoteToMainline (fuel : nat) (path : list nat) (state : TreeState)
    : Loop (option TreeState) :=
  promoteLoop fuel (withDirty true state) path.

(** ** Encoding to PGN ([src/utils/chess.ts])

    A function that can throw returns an [option]: [None] is the
    [TypeError] of reading a property of [undefined]. *)

Definition toUpperCase (c : ascii) : ascii :=
  let n := nat_of_ascii c in
  if ((97 <=? n) && (n <=? 122))%nat then ascii_of_nat (n - 32) else c.

(** [(shape.brush ?? "G")[0].toUpperCase()] *)
Definition brushLetter (shape : DrawShape) : option string :=
  match default "G" (brush shape) with
  | String c _ => Some (String (toUpperCase c) EmptyString)
  | EmptyString => None
  end.

Fixpoint joinWith (sep : string) (l : list string) : string :=
  match l with
  | [] => ""
  | [x] => x
  | x :: r => x +:+ sep +:+ joinWith sep r
  end.

(** [n.toString().padStart(2, "0")] *)
Definition padStart2 (s : string) : string :=
  match s with
  | String _ EmptyString => "0" +:+ s
  | EmptyString => "00"
  | _ => s
  end.

Record TextOptions := mkTextOptions {
  o_glyphs : bool;
  o_comments : bool;
  o_extraMarkups : bool }.

Section Encode.
Context `{Host}.

Definition makeClk (seconds : Q) : string :=
  let s := if Qle_bool 0 seconds then seconds else 0%Q in
  let hours := Qfloor (s / 3600) in
  let s3600 := (s - inject_Z (3600 * hours))%Q in
  let minutes := Qfloor (s3600 / 60) in
  let s := (s3600 - inject_Z (60 * minutes))%Q in
  Js.ofZ hours +:+ ":" +:+ padStart2 (Js.ofZ minutes) +:+ ":" +:+ localeSeconds s.

Definition glyphText (annotation : Annotation) : string :=
  if String.eqb annotation "" then ""
  else if isBasicAnnotation annotation then annotation
       else " $" +:+ Js.ofZ (annotationNag annotation).

Definition getMoveText (tree : TreeNode) (opt : TextOptions) (isFirst : bool)
    : option string :=
  let isBlack := Z.rem (halfMoves tree) 2 =? 0 in
  let moveNumber := - ((- halfMoves tree) / 2) in
  let moveText :=
    match san tree with
    | Some s =>
        if String.eqb s "" then ""
        else
          (if isBlack
           then if isFirst then Js.ofZ moveNumber +:+ "... " else ""
           else Js.ofZ moveNumber +:+ ". ")
          +:+ s
          +:+ (if o_glyphs opt then Js.join (map glyphText (annotations tree)) else "")
          +:+ " "
    | None => ""
    end in
  if o_comments opt || o_extraMarkups opt then
    let content := "{" in
    let content :=
      if o_extraMarkups opt then
        let content :=
          match score tree with
          | Some sc =>
              match scoreValue sc with
              | Cp _ => content +:+ "[%eval " +:+ formatScore (scoreValue sc) +:+ "] "
              | Mate v => content +:+ "[%eval #" +:+ numberText v +:+ "] "
              end
          | None => content
          end in
        match clock tree with
        | Some c => content +:+ "[%clk " +:+ makeClk c +:+ "] "
        | None => content
        end
      else content in
    content ←
      (if o_extraMarkups opt && negb (length (shapes tree) =? 0)%nat then
         let squares := List.filter (fun shape => negb (bool_decide (is_Some (dest shape)))) (shapes tree) in
         let arrows := List.filter (fun shape => bool_decide (is_Some (dest shape))) (shapes tree) in
         content ←
           (if negb (length squares =? 0)%nat then
              texts ← mapM (fun shape => b ← brushLetter shape; Some (b +:+ orig shape)) squares;
              Some (content +:+ "[%csl " +:+ joinWith "," texts +:+ "]")
            else Some content);
         if negb (length arrows =? 0)%nat then
           texts ← mapM (fun shape =>
                           b ← brushLetter shape;
                           Some (b +:+ orig shape +:+ default "" (dest shape))) arrows;
           Some (content +:+ "[%cal " +:+ joinWith "," texts +:+ "]")
         else Some content
       else Some content);
    let content :=
      if o_comments opt && negb (String.eqb (comment tree) "")
      then content +:+ comment tree else content in
    let content := content +:+ "} " in
    Some (if negb (String.eqb content "{} ") then moveText +:+ content else moveText)
  else Some moveText.

Definition quoteOr (s : string) (dflt : string) : string :=
  if String.eqb s "" then dflt else s.

(** [game.x || dflt] for an optional string *)
Definition optOr (s : option string) (dflt : string) : string :=
  quoteOr (default "" s) dflt.

(** [if (game.x) headers += `[Tag "${game.x}"]\n`] *)
Definition optTag (tag : string) (v : option string) : string :=
  match v with
  | Some s =>
      if String.eqb s "" then ""
      else "[" +:+ tag +:+ " " +:+ Js.dquote +:+ s +:+ Js.dquote +:+ "]" +:+ Js.nl
  | None => ""
  end.

Definition tagLine (tag value : string) : string :=
  "[" +:+ tag +:+ " " +:+ Js.dquote +:+ value +:+ Js.dquote +:+ "]" +:+ Js.nl.

(** [if (game.elo) ...]: neither [null] nor [0] *)
Definition eloTag (tag : string) (v : option Z) : string :=
  match v with
  | Some n => if n =? 0 then "" else tagLine tag (Js.ofZ n)
  | None => ""
  end.

(** [JSON.stringify] of an array of indices *)
Definition stringifyPath (p : list nat) : string :=
  "[" +:+ joinWith "," (map (fun i => Js.ofZ (Z.of_nat i)) p) +:+ "]".

Definition headersToPGN (game : GameHeaders) : string :=
  tagLine "Event" (quoteOr (event game) "?")
  +:+ tagLine "Site" (quoteOr (site game) "?")
  +:+ tagLine "Date" (optOr (date game) "????.??.??")
  +:+ tagLine "Round" (optOr (round game) "?")
  +:+ tagLine "White" (quoteOr (white_name game) "?")
  +:+ tagLine "Black" (quoteOr (black_name game) "?")
  +:+ tagLine "Result" (outcomeText (result game))
  +:+ eloTag "WhiteElo" (white_elo game)
  +:+ eloTag "BlackElo" (black_elo game)
  +:+ match start game with
      | Some (i :: p) => tagLine "Start" (stringifyPath (i :: p))
      | _ => ""
      end
  +:+ match orientation game with
      | Some white => tagLine "Orientation" "white"
      | Some black => tagLine "Orientation" "black"
      | None => ""
      end
  +:+ optTag "TimeControl" (time_control game)
  +:+ optTag "WhiteTimeControl" (white_time_control game)
  +:+ optTag "BlackTimeControl" (black_time_control game)
  +:+ optTag "ECO" (eco game)
  +:+ optTag "Variant" (variant game).

Record PgnOptions := mkPgnOptions {
  p_headers : option GameHeaders;
  p_glyphs : bool;
  p_comments : bool;
  p_variations : bool;
  p_extraMarkups : bool;
  p_root : bool;
  p_path : option (list nat) }.

Definition textOptions (o : PgnOptions) : TextOptions :=
  mkTextOptions (p_glyphs o) (p_comments o) (p_extraMarkups o).

(** The [while (stack.length > 0)] loop of [getPGN], from the frame
    [(current, isRoot, currentPath)] on: the parts it pushes.  The stack
    never holds more than one frame, the one of the child it continues
    with.  The inner call [getPGN(variation, {headers: null, root:
    false, path: null})] is its own line feed, loop, join and trim. *)
Fixpoint pgnParts (o : PgnOptions) (current : TreeNode) (isRoot : bool)
    (currentPath : option (list nat)) {struct current} : option (list string) :=
  match currentPath with
  | Some [] => Some []
  | _ =>
      rootText ← (if isRoot
                  then t ← getMoveText current (textOptions o) false; Some [t]
                  else Some []);
      match children current with
      | [] => Some rootText
      | _ :: others =>
          let childIdx :=
            match currentPath with
            | Some (i :: _) => i
            | _ => 0%nat
            end in
          rest ←
            (fix pick (cs : list TreeNode) (k : nat) {struct cs}
               : option (list string) :=
               match cs, k with
               | [], _ => None
               | child :: _, O =>
                   childText ← getMoveText child (textOptions o) isRoot;
                   variations ←
                     (if bool_decide (currentPath = None) && p_variations o then
                        (fix each (vs : list TreeNode) : option (list string) :=
                           match vs with
                           | [] => Some []
                           | variation :: vs' =>
                               t ← getMoveText variation (textOptions o) true;
                               inner ← pgnParts o variation false None;
                               more ← each vs';
                               Some ([" ("; t; " ";
                                      Js.trim (Js.join (Js.nl :: inner)); ") "]
                                       ++ more)
                           end) others
                      else Some []);
                   continued ← pgnParts o child false (Js.slice1 <$> currentPath);
                   Some ([childText] ++ variations ++ continued)
               | _ :: cs', S k' => pick cs' k'
               end) (children current) childIdx;
          Some (rootText ++ rest)
      end
  end.

Definition getPGN (tree : TreeNode) (o : PgnOptions) : option string :=
  match p_path o with
  | Some [] => Some ""
  | _ =>
      let parts :=
        match p_headers o with
        | Some h => [headersToPGN h]
        | None => []
        end in
      let parts :=
        if p_root o && negb (String.eqb (fen tree) INITIAL_FEN)
        then parts ++ [tagLine "SetUp" "1"; tagLine "FEN" (fen tree)]
        else parts in
      let parts := parts ++ [Js.nl] in
      moves ← pgnParts o tree (p_root o) (p_path o);
      let parts := parts ++ moves in
      let parts :=
        match p_headers o with
        | Some h => if p_root o then parts ++ [" " +:+ outcomeText (result h)] else parts
        | None => parts
        end in
      Some (Js.trim (Js.join parts))
  end.

(** The store action [copyVariationPgn(path)], as the text it hands to
    the clipboard. *)
Definition copyVariationPgn (path : list nat) (state : TreeState) : option string :=
  getPGN (root state) (mkPgnOptions None true false false false true (Some path)).

End Encode.

(** ** Decoding a token stream ([src/utils/chess.ts]) *)

(** bindings [Token] *)
Inductive Token :=
| THeader (tag value : string)
| TSan (value : string)
| TNag (value : string)
| TComment (value : string)
| TParenOpen
| TParenClose
| TOutcome (value : Outcome).

(** The variables of the loop of [innerParsePGN]: [root] and [prevNode]
    are references into [tree], kept as the paths of the nodes they point
    to. *)
Record ParseVars {Pos : Type} := mkParseVars {
  v_tree : TreeState;
  v_root : list nat;
  v_prevNode : list nat;
  v_pos : Pos;
  v_prevPos : Pos;
  v_i : nat }.
Arguments ParseVars : clear implicits.
Arguments mkParseVars {Pos}.

(** The scan for the matching [ParenClose]: [n] bounds the iterations of
    [while (i < end)]; [None] when [tokens[i]] is [undefined]. *)
Fixpoint scanClose (tokens : list Token) (n i subvariations : nat) : option nat :=
  match n with
  | O => Some i
  | S n =>
      match tokens !! i with
      | None => None
      | Some TParenOpen => scanClose tokens n (S i) (S subvariations)
      | Some TParenClose =>
          match subvariations with
          | O => Some i
          | S k => scanClose tokens n (S i) k
          end
      | Some _ => scanClose tokens n (S i) subvariations
      end
  end.

Section Decode.
Context `{RulesEngine} `{Host}.

Definition defaultTree (fen_ : option string) (turn_ : option Color) : M TreeState :=
  let resolvedTurn :=
    match turn_ with
    | Some t => t
    | None =>
        match positionFromFen (default INITIAL_FEN fen_) with
        | Some pos => turn pos
        | None => white
        end
    end in
  o ← newOid;
  mret (mkTreeState
          (mkTreeNode o (default INITIAL_FEN (Js.trim <$> fen_)) None None []
             None None (match resolvedTurn with black => 1 | white => 0 end)
             [] [] "" None)
          (mkGameHeaders 0 (default INITIAL_FEN fen_) "" "" None None None
             "" None "" None Unknown None None None None None None None)
          [] false (mkReportState false)).

Definition commentScore (ev : Evaluation) : Score :=
  match ev with
  | EvalPawns pawns => mkScore (Cp (pawns * 100)%Q) None
  | EvalMate mate => mkScore (Mate mate) None
  end.

(** What a [Comment] token assigns to the node [root]. *)
Definition applyComment (c : CommentData) (node : TreeNode) : TreeNode :=
  let node :=
    match c_evaluation c with
    | Some ev => withScore (Some (commentScore ev)) node
    | None => node
    end in
  let node :=
    match c_shapes c with
    | [] => node
    | _ :: _ =>
        withShapes
          (shapes node
           ++ map (fun shape =>
                     mkDrawShape (makeSquare (cs_from shape))
                       (Some (makeSquare (cs_to shape)))
                       (Some (cs_color shape)))
                (c_shapes c))
          node
    end in
  let node :=
    match c_clock c with
    | Some k => if Qeq_bool k 0 then node else withClock (Some k) node
    | None => node
    end in
  withComment (c_text c) node.

(** What a [Nag] token assigns to the node [root]. *)
Definition applyNag (value : string) (node : TreeNode) : TreeNode :=
  let a := match nagInfo value with
           | Some a => if String.eqb a "" then "" else a
           | None => ""
           end in
  withAnnotations
    (jsSort (fun a b => annotationNag a - annotationNag b)
       (annotations node ++ [a]))
    node.

(** The variables as a new [i] leaves them. *)
Definition next (i : nat) (v : ParseVars Pos) : ParseVars Pos :=
  mkParseVars (v_tree v) (v_root v) (v_prevNode v) (v_pos v) (v_prevPos v) i.

(** An assignment to a field of the node [root] points to. *)
Definition assignRoot (f : TreeNode -> TreeNode) (v : ParseVars Pos) : TreeState :=
  withRoot (assignAtPath f (root (v_tree v)) (v_root v)) (v_tree v).

(** The loop [while (i < end)] of [innerParsePGN]: [n] bounds its
    iterations, [recur] is [innerParsePGN] itself, for the variations. *)
Fixpoint parseLoop
    (recur : string -> Z -> nat -> option nat -> option Pos
             -> M (Loop (TreeState * nat)))
    (tokens : list Token) (end_ : nat) (n : nat) (v : ParseVars Pos) {struct n}
    : M (Loop (ParseVars Pos)) :=
  if (v_i v <? end_)%nat then
    match n with
    | O => mret OutOfFuel
    | S n =>
        let i := v_i v in
        match tokens !! i with
        | None => throw TypeError
        | Some (TComment value) =>
            parseLoop recur tokens end_ n
              (mkParseVars (assignRoot (applyComment (parseComment value)) v)
                 (v_root v) (v_prevNode v) (v_pos v) (v_prevPos v) (S i))
        | Some TParenOpen =>
            let varStart := S i in
            match scanClose tokens (end_ - varStart) varStart 0 with
            | None => throw TypeError
            | Some i =>
                let prevNode := getNodeAtPath (root (v_tree v)) (v_prevNode v) in
                let rootNode := getNodeAtPath (root (v_tree v)) (v_root v) in
                r ← recur (fen prevNode) (halfMoves rootNode - 1) varStart (Some i)
                      (Some (v_prevPos v));
                match r with
                | OutOfFuel => mret OutOfFuel
                | Finished (newTree, _) =>
                    let tree :=
                      match children (root newTree) with
                      | first :: _ =>
                          withRoot
                            (assignAtPath
                               (fun p => withChildren (children p ++ [first]) p)
                               (root (v_tree v)) (v_prevNode v))
                            (v_tree v)
                      | [] => v_tree v
                      end in
                    parseLoop recur tokens end_ n
                      (mkParseVars tree (v_root v) (v_prevNode v)
                         (v_pos v) (v_prevPos v) (S i))
                end
            end
        | Some TParenClose => parseLoop recur tokens end_ n (next (S i) v)
        | Some (TNag value) =>
            parseLoop recur tokens end_ n
              (mkParseVars (assignRoot (applyNag value) v)
                 (v_root v) (v_prevNode v) (v_pos v) (v_prevPos v) (S i))
        | Some (TSan value) =>
            match (match parseSan (v_pos v) value with
                   | Some m => Some m
                   | None => parseUci value
                   end) with
            | None => parseLoop recur tokens end_ n (next (S i) v)
            | Some move_ =>
                let san_ := makeSan (v_pos v) move_ in
                let prevPos := v_pos v in
                let pos := play (v_pos v) move_ in
                let rootNode := getNodeAtPath (root (v_tree v)) (v_root v) in
                newTree ← createNode (makeFen (toSetup pos)) move_ san_
                            (halfMoves rootNode + 1) None;
                parseLoop recur tokens end_ n
                  (mkParseVars
                     (assignRoot (fun r => withChildren (children r ++ [newTree]) r) v)
                     (v_root v ++ [length (children rootNode)])
                     (v_root v) pos prevPos (S i))
            end
        | Some (TOutcome _) => mret (Finished v)
        | Some (THeader _ _) => parseLoop recur tokens end_ n (next (S i) v)
        end
    end
  else mret (Finished v).

(** [innerParsePGN] with a bound [depth] on how deep its calls nest. *)
Fixpoint innerParsePGNFrom (depth : nat) (tokens : list Token) (fen_ : string)
    (halfMoves_ : Z) (startIndex : nat) (endIndex : option nat)
    (initialPos : option Pos) {struct depth}
    : M (Loop (TreeState * nat)) :=
  match depth with
  | O => mret OutOfFuel
  | S depth =>
      let end_ := default (length tokens) endIndex in
      let continue (pos : Pos) : M (Loop (TreeState * nat)) :=
        tree ← defaultTree (Some fen_) (Some (turn pos));
        let h := if (halfMoves_ =? 0) && bool_decide (turn pos = black)
                 then halfMoves_ + 1 else halfMoves_ in
        let tree := withRoot (withHalfMoves h (root tree)) tree in
        r ← parseLoop (innerParsePGNFrom depth tokens) tokens end_
              (end_ - startIndex) (mkParseVars tree [] [] pos pos startIndex);
        match r with
        | OutOfFuel => mret OutOfFuel
        | Finished v => mret (Finished (v_tree v, v_i v))
        end in
      match initialPos with
      | Some p => continue p
      | None =>
          match parseFen fen_ with
          | None => throw UnwrapError
          | Some setup =>
              match fromSetup setup with
              | None =>
                  tree ← defaultTree (Some fen_) None;
                  mret (Finished (tree, end_))
              | Some p => continue p
              end
          end
      end
  end.

(** [innerParsePGN]: a variation opens with a token, so that the calls
    nest no deeper than the tokens are many. *)
Definition innerParsePGN (tokens : list Token) (fen_ : string) (halfMoves_ : Z)
    (startIndex : nat) (endIndex : option nat) (initialPos : option Pos)
    : M (Loop (TreeState * nat)) :=
  innerParsePGNFrom (S (length tokens)) tokens fen_ halfMoves_ startIndex endIndex
    initialPos.

End Decode.

(** ** A rules engine and a host to run the code on

    The engine knows the positions of a table of moves, each with the
    position string chessops prints for it; the table holds the opening
    moves of the scenarios and a line in which both sides move a knight
    out and back. *)

Module Sample.

Record Transition := mkTransition {
  t_fen : string;
  t_san : string;
  t_move : Move;
  t_next : string }.

(** The placement of the pieces after [n] plies of Nf3 Nf6 Ng1 Ng8. *)
Definition shuffleBoard (n : nat) : string :=
  match (n mod 4)%nat with
  | 0%nat => "rnbqkbnr/pppppppp/8/8/8/8/PPPPPPPP/RNBQKBNR"
  | 1%nat => "rnbqkbnr/pppppppp/8/8/8/5N2/PPPPPPPP/RNBQKB1R"
  | 2%nat => "rnbqkb1r/pppppppp/5n2/8/8/5N2/PPPPPPPP/RNBQKB1R"
  | _ => "rnbqkb1r/pppppppp/5n2/8/8/8/PPPPPPPP/RNBQKBNR"
  end.

Definition shuffleFen (n : nat) : string :=
  shuffleBoard n +:+ (if Nat.even n then " w" else " b") +:+ " KQkq - "
  +:+ Js.ofZ (Z.of_nat n) +:+ " " +:+ Js.ofZ (Z.of_nat (1 + n / 2)).

Definition shuffleSan (n : nat) : string :=
  match (n mod 4)%nat with
  | 0%nat => "Nf3"
  | 1%nat => "Nf6"
  | 2%nat => "Ng1"
  | _ => "Ng8"
  end.

Definition shuffleMove (n : nat) : Move :=
  match (n mod 4)%nat with
  | 0%nat => NormalMove 6 21 None
  | 1%nat => NormalMove 62 45 None
  | 2%nat => NormalMove 21 6 None
  | _ => NormalMove 45 62 None
  end.

(** The move played at ply [n] of the knight line. *)
Definition shuffleStep (n : nat) : Transition :=
  mkTransition (shuffleFen n) (shuffleSan n) (shuffleMove n) (shuffleFen (S n)).

Definition fen_e4 : string :=
  "rnbqkbnr/pppppppp/8/8/4P3/8/PPPP1PPP/RNBQKBNR b KQkq - 0 1".
Definition fen_e4_e5 : string :=
  "rnbqkbnr/pppp1ppp/8/4p3/4P3/8/PPPP1PPP/RNBQKBNR w KQkq - 0 2".
Definition fen_e4_e5_Nf3 : string :=
  "rnbqkbnr/pppp1ppp/8/4p3/4P3/5N2/PPPP1PPP/RNBQKB1R b KQkq - 1 2".
Definition fen_e4_c5 : string :=
  "rnbqkbnr/pp1ppppp/8/2p5/4P3/8/PPPP1PPP/RNBQKBNR w KQkq - 0 2".
Definition fen_e4_c5_Nf3 : string :=
  "rnbqkbnr/pp1ppppp/8/2p5/4P3/5N2/PPPP1PPP/RNBQKB1R b KQkq - 1 2".

Definition table : list Transition :=
  [ mkTransition INITIAL_FEN "e4" (NormalMove 12 28 None) fen_e4;
    mkTransition fen_e4 "e5" (NormalMove 52 36 None) fen_e4_e5;
    mkTransition fen_e4_e5 "Nf3" (NormalMove 6 21 None) fen_e4_e5_Nf3;
    mkTransition fen_e4 "c5" (NormalMove 50 34 None) fen_e4_c5;
    mkTransition fen_e4_c5 "Nf3" (NormalMove 6 21 None) fen_e4_c5_Nf3 ]
  ++ map shuffleStep (seq 0 104).

Definition known (f : string) : bool :=
  String.eqb f INITIAL_FEN
  || existsb (fun t => String.eqb (t_fen t) f || String.eqb (t_next t) f) table.

Definition bySan (p s : string) : option Transition :=
  List.find (fun t => String.eqb (t_fen t) p && String.eqb (t_san t) s) table.

Definition byMove (p : string) (m : Move) : option Transition :=
  List.find (fun t => String.eqb (t_fen t) p && bool_decide (t_move t = m)) table.

(** The side to move, read off the second field of the position string. *)
Fixpoint fenTurn (f : string) : Color :=
  match f with
  | String " " (String "b" _) => black
  | String " " _ => white
  | String _ r => fenTurn r
  | EmptyString => white
  end.

#[export] Instance engine : RulesEngine := {|
  Pos := string;
  Setup := string;
  parseFen f := Some f;
  fromSetup f := if known f then Some f else None;
  positionFromFen f := if known f then Some f else None;
  parseSan p s := t_move <$> bySan p s;
  parseSanOrUci p s := t_move <$> bySan p s;
  parseUci _ := None;
  makeSan p m := match byMove p m with Some t => t_san t | None => "--" end;
  play p m := match byMove p m with Some t => t_next t | None => p end;
  turn := fenTurn;
  isEnd _ := false;
  isCheckmate _ := false;
  isStalemate _ := false;
  isInsufficientMaterial _ := false;
  toSetup p := p;
  makeFen f := f |}.

Fixpoint insertBy (cmp : Annotation -> Annotation -> Z) (a : Annotation)
    (l : list Annotation) : list Annotation :=
  match l with
  | [] => [a]
  | b :: r => if 0 <? cmp a b then b :: insertBy cmp a r else a :: l
  end.

Definition sortBy (cmp : Annotation -> Annotation -> Z) (l : list Annotation)
    : list Annotation :=
  fold_right (insertBy cmp) [] l.

Definition squareName (sq : nat) : string :=
  String (ascii_of_nat (97 + sq mod 8)) (Js.ofZ (Z.of_nat (1 + sq / 8))).

#[export] Instance host : Host := {|
  annotationGroup _ := None;
  annotationNag a := Z.of_nat (String.length a);
  isBasicAnnotation _ := true;
  nagInfo _ := None;
  jsSort := sortBy;
  formatScore _ := "0.00";
  numberText q := Js.ofZ (Qfloor q);
  localeSeconds q := padStart2 (Js.ofZ (Qfloor q));
  parseComment v := mkCommentData v [] None None;
  makeSquare := squareName |}.

(** A fresh world: no object allocated, no sound played. *)
Definition world0 : World := mkWorld 0 [].

(** The headers that [defaultTree] gives a game. *)
Definition headers0 : GameHeaders :=
  mkGameHeaders 0 INITIAL_FEN "" "" None None None
    "" None "" None Unknown None None None None None None None.

(** The knight line as a tree: the node reached after [ply] plies and the
    [len] moves that follow it, each node with an identity of its own. *)
Fixpoint lineFrom (len ply : nat) : TreeNode :=
  mkTreeNode ply (shuffleFen ply)
    (match ply with O => None | S k => Some (shuffleMove k) end)
    (match ply with O => None | S k => Some (shuffleSan k) end)
    (match len with O => [] | S l => [lineFrom l (S ply)] end)
    None None (Z.of_nat ply) [] [] "" None.

(** A game of [len] plies of the knight line with the cursor [at] plies
    deep and the result still open. *)
Definition lineState (len at_ : nat) : TreeState :=
  mkTreeState (lineFrom len 0) headers0 (repeat 0%nat at_) false
    (mkReportState false).

Definition lineWorld (len : nat) : World := mkWorld (S len) [].

Definition leaf (o : nat) (fen_ : string) (m : Move) (san_ : string)
    (halfMoves_ : Z) (cs : list TreeNode) : TreeNode :=
  mkTreeNode o fen_ (Some m) (Some san_) cs None None halfMoves_ [] [] "" None.

(** A game with variations: 1. e4 (1. Nf3) e5 (1... c5 2. Nf3) 2. Nf3. *)
Definition gameTree : TreeNode :=
  mkTreeNode 0 INITIAL_FEN None None
    [ leaf 1 fen_e4 (NormalMove 12 28 None) "e4" 1
        [ leaf 2 fen_e4_e5 (NormalMove 52 36 None) "e5" 2
            [ leaf 3 fen_e4_e5_Nf3 (NormalMove 6 21 None) "Nf3" 3 [] ];
          leaf 4 fen_e4_c5 (NormalMove 50 34 None) "c5" 2
            [ leaf 5 fen_e4_c5_Nf3 (NormalMove 6 21 None) "Nf3" 3 [] ] ];
      leaf 6 (shuffleFen 1) (NormalMove 6 21 None) "Nf3" 1 [] ]
    None None 0 [] [] "" None.

(** The game with the cursor at [cursor]. *)
Definition gameState (cursor : list nat) : TreeState :=
  mkTreeState gameTree headers0 cursor false (mkReportState false).

Definition gameWorld : World := mkWorld 7 [].

End Sample.

(** ** Notions the properties are stated with *)

(** A node's own fields: all but its identity and its children. *)
Definition ownFields (n : TreeNode) : TreeNode := withOid 0 (withChildren [] n).

(** What [clonePath] returns when the next free identity is [o]: the nodes
    that [path] goes through, each under a new identity. *)
Fixpoint cloneAlong (o : nat) (n : TreeNode) (path : list nat) : TreeNode :=
  match path with
  | [] => withOid o n
  | idx :: rest =>
      match children n !! idx with
      | None => withOid o n
      | Some child =>
          withOid o
            (withChildren (<[idx := cloneAlong (S o) child rest]> (children n)) n)
      end
  end.

(** The edits that assign a field of the clone of the node at the
    cursor.  [setShapes] is not among them: its helper pushes to and
    splices the array [node.shapes] in place, and the clone holds the
    array of the node it was cloned from. *)
Inductive FieldEdit :=
| EditComment (payload : string)
| EditScore (payload : Score)
| EditAnnotation (payload : Annotation).

Section FieldEdit.
Context `{Host}.

(** The store action of an edit. *)
Definition fieldEdit (e : FieldEdit) : TreeState -> M TreeState :=
  match e with
  | EditComment c => setComment c
  | EditScore s => setScore s
  | EditAnnotation a => setAnnotation a
  end.

(** What an edit assigns to the node it reaches. *)
Definition editedNode (e : FieldEdit) : TreeNode -> TreeNode :=
  match e with
  | EditComment c => withComment c
  | EditScore s => withScore (Some s)
  | EditAnnotation a => toggleAnnotation a
  end.

End FieldEdit.

(** The objects of a tree, each as often as it occurs in it. *)
Fixpoint oids (n : TreeNode) : list nat :=
  oid n :: flat_map oids (children n).

(** The structure is a tree of objects: no object occurs in it twice. *)
Definition distinctObjects (n : TreeNode) : Prop := NoDup (oids n).

(** The number of indices of a path that leave the mainline. *)
Definition sideSteps (p : list nat) : nat := length (List.filter nonZero p).

(** The nodes a path goes through below the node it starts from. *)
Fixpoint lineNodes (n : TreeNode) (path : list nat) : list TreeNode :=
  match path with
  | [] => []
  | i :: rest =>
      match children n !! i with
      | None => []
      | Some child => child :: lineNodes child rest
      end
  end.

(** A node whose notation shows no pawn move, capture or promotion. *)
Definition quiet (n : TreeNode) : Prop :=
  match san n with
  | Some s => s = "" ∨ resetsCounter s = false
  | None => True
  end.

(** A node whose notation shows a pawn move, a capture or a promotion. *)
Definition resetting (n : TreeNode) : Prop :=
  ∃ s, san n = Some s ∧ s ≠ "" ∧ resetsCounter s = true.

(** The counter of the fifty-move test, node by node. *)
Definition countStep (count : nat) (m : TreeNode) : nat :=
  match san m with
  | Some s => if String.eqb s "" then S count
              else if resetsCounter s then 0%nat else S count
  | None => S count
  end.

(** The sound cue of a notation. *)
Definition cue (san_ : string) : bool * bool :=
  (Js.includes "x" san_, Js.includes "+" san_).

Section MoveNotions.
Context `{RulesEngine}.

(** The move a payload stands for in a position. *)
Definition moveOf (p : Payload) (pos : Pos) : option Move :=
  match p with
  | PSan s => parseSan pos s
  | PMove m => Some m
  end.

(** The headers after the end-of-game test of [makeMoveOnTree]. *)
Definition endOfGameHeaders (changeHeaders_ : bool) (pos : Pos) (h : GameHeaders)
    : GameHeaders :=
  if changeHeaders_ && isEnd pos then
    let h := if isCheckmate pos
             then withResult (match turn pos with
                              | white => BlackWins
                              | black => WhiteWins
                              end) h
             else h in
    if isStalemate pos || isInsufficientMaterial pos then withResult Draw h else h
  else h.

End MoveNotions.

Section Replay.
Context `{RulesEngine}.

(** [makeMove] for one move after the other. *)
Fixpoint applyAll (moves : list MakeMoveArgs) (state : TreeState) : M TreeState :=
  match moves with
  | [] => mret state
  | a :: rest => state ← makeMove a state; applyAll rest state
  end.

(** [makeMove] does not reject the move: it stands for a move of the
    position at the cursor, and that move has a notation. *)
Definition accepted (a : MakeMoveArgs) (state : TreeState) : Prop :=
  ∃ pos move_,
    positionFromFen (fen (getNodeAtPath (root state) (position state))) = Some pos
    ∧ moveOf (payload a) pos = Some move_
    ∧ makeSan pos move_ ≠ "--".

(** Every move of the sequence is accepted in the state it is applied to. *)
Fixpoint legalRun (moves : list MakeMoveArgs) (state : TreeState) (w : World)
    : Prop :=
  match moves with
  | [] => True
  | a :: rest =>
      accepted a state
      ∧ match makeMove a state w with
        | Returned state' w' => legalRun rest state' w'
        | Thrown _ => False
        end
  end.

(** The notations of [payload] are moves of the game from the live
    position [pos] on, at a node with the position string [fen_] and the
    children [kids]: each notation parses to a move that has a notation;
    where the node has a child with that notation, the sequence goes on
    at that child; where it has none, the position read back from the
    position string of the node gives the move the same notation, and the
    sequence goes on at a new node with the position string printed after
    the move. *)
Fixpoint legalMoves (pos : Pos) (fen_ : string) (kids : list TreeNode)
    (payload : list string) : Prop :=
  match payload with
  | [] => True
  | notation :: rest =>
      ∃ m,
        parseSanOrUci pos notation = Some m
        ∧ makeSan pos m ≠ "--"
        ∧ match List.find (sanIs (makeSan pos m)) kids with
          | Some child => legalMoves (play pos m) (fen child) (children child) rest
          | None =>
              ∃ pos',
                positionFromFen fen_ = Some pos'
                ∧ makeSan pos' m = makeSan pos m
                ∧ legalMoves (play pos m) (makeFen (toSetup (play pos' m))) [] rest
          end
  end.

End Replay.

(** What the fast path reads of a node: its position and the notations of
    its children. *)
Definition glance (n : TreeNode) : string * list (option string) :=
  (fen n, map san (children n)).

Section Scenarios.
Context `{RulesEngine}.

(** The engine, given the position string [fen_], parses each notation of
    [sans] in turn, gives the move the same notation, and reads the
    position string it prints after the move. *)
Fixpoint knowsLine (fen_ : string) (sans : list string) : Prop :=
  match sans with
  | [] => True
  | s :: rest =>
      ∃ pos m,
        positionFromFen fen_ = Some pos
        ∧ parseSan pos s = Some m
        ∧ makeSan pos m = s
        ∧ knowsLine (makeFen (toSetup (play pos m))) rest
  end.

(** The engine, in the live position [pos], parses each notation of
    [sans] in turn and gives the move the same notation. *)
Fixpoint playsLine (pos : Pos) (sans : list string) : Prop :=
  match sans with
  | [] => True
  | s :: rest =>
      ∃ m, parseSan pos s = Some m ∧ makeSan pos m = s
           ∧ playsLine (play pos m) rest
  end.

(** A move by its notation, as the mainline or as a variation. *)
Definition byNotation (s : string) (asMainline : bool) : MakeMoveArgs :=
  mkMakeMoveArgs (PSan s) None (Some asMainline) None None.

(** The scenario: a new game, then e4 as mainline, e5 as a variation,
    Nf3 as mainline. *)
Definition scenarioGame : M TreeState :=
  state ← defaultTree None None;
  state ← makeMove (byNotation "e4" true) state;
  state ← makeMove (byNotation "e5" false) state;
  makeMove (byNotation "Nf3" true) state.

End Scenarios.

(** The notation, the ply counter and the children of a node, and so on
    for its children. *)
Inductive Outline := Ply (notation : option string) (ply : Z) (next : list Outline).

Fixpoint outline (n : TreeNode) : Outline :=
  Ply (san n) (halfMoves n) (map outline (children n)).

(** The tokens of [1. e4 e5 (1... c5 2. Nf3) 2. Nf3 *]: the lexer keeps
    no token for a move number. *)
Definition scenarioTokens : list Token :=
  [TSan "e4"; TSan "e5"; TParenOpen; TSan "c5"; TSan "Nf3"; TParenClose;
   TSan "Nf3"; TOutcome Unknown].

#[export] Instance quiet_dec (n : TreeNode) : Decision (quiet n).
Proof. unfold quiet. destruct (san n); apply _. Defined.

(** ** Navigation ([src/state/store/tree.ts]) *)

(** [goToNext]: one step down the mainline, with the sound cue read off
    the notation of the child. *)
Definition goToNext (state : TreeState) : M TreeState :=
  let node := getNodeAtPath (root state) (position state) in
  match children node with
  | [] => mret state
  | child :: _ =>
      match san child with
      | None => mret state
      | Some s =>
          if String.eqb s "" then mret state
          else
            _ ← playSound (Js.includes "x" s) (Js.includes "+" s);
            mret (withPosition (position state ++ [0%nat]) state)
      end
  end.

Definition goToPrevious (state : TreeState) : TreeState :=
  withPosition (Js.sliceInit (position state)) state.

Definition goToEnd (state : TreeState) : TreeState :=
  withPosition (mainlineEnd (root state)) state.

(** [state.headers.start || []]: an array, empty or not, is truthy. *)
Definition goToStart (state : TreeState) : TreeState :=
  withPosition (default [] (start (headers state))) state.

Definition goToMove (move : list nat) (state : TreeState) : TreeState :=
  withPosition move state.

(** The loop [while (pos.length > 0 && pos[pos.length - 1] === 0)] of
    [goToBranchStart]; [n] bounds its iterations. *)
Fixpoint dropZeros (n : nat) (pos : list nat) : Loop (list nat) :=
  match last pos with
  | Some 0%nat =>
      match n with
      | O => OutOfFuel
      | S n => dropZeros n (Js.sliceInit pos)
      end
  | _ => Finished pos
  end.

Definition goToBranchStart (state : TreeState) : Loop TreeState :=
  let pos := position state in
  let pos :=
    match last pos with
    | Some (S _) => Js.sliceInit pos
    | _ => pos
    end in
  match dropZeros (length pos) pos with
  | Finished pos => Finished (withPosition pos state)
  | OutOfFuel => OutOfFuel
  end.

Definition goToBranchEnd (state : TreeState) : TreeState :=
  let currentNode := getNodeAtPath (root state) (position state) in
  withPosition (position state ++ mainlineEnd currentNode) state.

(** [nextBranch] and [previousBranch] differ in the index they go to:
    [step branchIndex length]. *)
Definition siblingBranch (step : nat -> nat -> nat) (state : TreeState)
    : M TreeState :=
  match last (position state) with
  | None => mret state
  | Some branchIndex =>
      let pos := position state in
      let parent := getNodeAtPath (root state) (Js.sliceInit pos) in
      match children parent !! branchIndex with
      | None => throw TypeError
      | Some node =>
          let pos :=
            if (2 <=? length (children node))%nat
               && (length (children parent) <=? 1)%nat
            then pos ++ [0%nat] else pos in
          mret (withPosition
                  (Js.sliceInit pos ++ [step branchIndex (length (children parent))])
                  state)
      end
  end.

Definition nextBranch : TreeState -> M TreeState :=
  siblingBranch (fun branchIndex len => ((branchIndex + 1) mod len)%nat).

Definition previousBranch : TreeState -> M TreeState :=
  siblingBranch (fun branchIndex len => ((branchIndex + len - 1) mod len)%nat).

(** The indices that the loop [do ... while (branchCount === 1)] of
    [nextBranching] pushes after it has come to [node]. *)
Fixpoint singleLine (node : TreeNode) : list nat :=
  match children node with
  | [child] => 0%nat :: singleLine child
  | _ => []
  end.

Definition nextBranching (state : TreeState) : TreeState :=
  let node := getNodeAtPath (root state) (position state) in
  match children node with
  | [] => state
  | child :: _ => withPosition (position state ++ 0%nat :: singleLine child) state
  end.

(** The loop [do ... while (branchCount === 1 && newPos.length > 0)] of
    [previousBranching]; [n] bounds the iterations after the first. *)
Fixpoint previousBranchingLoop (n : nat) (root : TreeNode) (newPos : list nat)
    : Loop (list nat) :=
  let newPos := Js.sliceInit newPos in
  let branchCount := length (children (getNodeAtPath root newPos)) in
  if (branchCount =? 1)%nat && (0 <? length newPos)%nat then
    match n with
    | O => OutOfFuel
    | S n => previousBranchingLoop n root newPos
    end
  else Finished newPos.

Definition previousBranching (state : TreeState) : Loop TreeState :=
  match position state with
  | [] => Finished state
  | _ :: _ =>
      match previousBranchingLoop (length (position state)) (root state)
              (position state) with
      | Finished newPos => Finished (withPosition newPos state)
      | OutOfFuel => OutOfFuel
      end
  end.

(** The loop [while (true)] of [goToAnnotation]: [node] is the node at
    [p] whenever the loop starts over. *)
Fixpoint goToAnnotationLoop (fuel : nat) (root : TreeNode) (annotation : Annotation)
    (colorN : Z) (p : list nat) : Loop (list nat) :=
  match fuel with
  | O => OutOfFuel
  | S fuel =>
      let node := getNodeAtPath root p in
      let p := match children node with
               | [] => []
               | _ :: _ => p ++ [0%nat]
               end in
      let node := getNodeAtPath root p in
      if existsb (String.eqb annotation) (annotations node)
         && (Z.rem (halfMoves node) 2 =? colorN)
      then Finished p
      else goToAnnotationLoop fuel root annotation colorN p
  end.

Definition goToAnnotation (fuel : nat) (annotation : Annotation) (color : Color)
    (state : TreeState) : Loop TreeState :=
  let colorN := match color with white => 1 | black => 0 end in
  match goToAnnotationLoop fuel (root state) annotation colorN (position state) with
  | Finished p => Finished (withPosition p state)
  | OutOfFuel => OutOfFuel
  end.

(** ** Other store actions ([src/state/store/tree.ts]) *)

Definition save (state : TreeState) : TreeState := withDirty false state.

Definition setResult (payload : Outcome) (state : TreeState) : TreeState :=
  withDirty true (withHeaders (withResult payload (headers state)) state).

Section Append.
Context `{RulesEngine}.


End Append.

(** ** Tree traversal ([src/utils/treeReducer.ts]) *)

(** A frame of the explicit stack of [treeIterator] and [findFen]. *)
Record Frame := mkFrame {
  f_node : TreeNode;
  f_childIndex : nat;
  f_depth : nat }.

(** [path.length = n]: the array cut to its first [n] elements; [None]
    when [n] is beyond its length and the array would get empty slots. *)
Definition setLength (n : nat) (path : list nat) : option (list nat) :=
  if (n <=? length path)%nat then Some (take n path) else None.

(** The frames that the loop [for (let i = length - 1; i > 0; i--)]
    pushes, the one of index 1 on top. *)
Definition siblingFrames (cs : list TreeNode) (depth : nat) : list Frame :=
  imap (fun i c => mkFrame c (S i) (S depth)) (tail cs).

(** The loop of [treeIterator] with what it has yielded so far; the head
    of [stack] is the top of the stack.  [None] stands for a path with
    empty slots. *)
Fixpoint treeIteratorLoop (fuel : nat) (path : list nat) (stack : list Frame)
    (current : option TreeNode) (depth : nat)
    (yielded : list (list nat * TreeNode))
    : Loop (option (list (list nat * TreeNode))) :=
  match current, stack with
  | None, [] => Finished (Some yielded)
  | _, _ =>
      match fuel with
      | O => OutOfFuel
      | S fuel =>
          match current with
          | Some cur =>
              match setLength depth path with
              | None => Finished None
              | Some path =>
                  let yielded := yielded ++ [(path, cur)] in
                  match children cur with
                  | [] => treeIteratorLoop fuel path stack None depth yielded
                  | child :: _ =>
                      treeIteratorLoop fuel (path ++ [0%nat])
                        (siblingFrames (children cur) depth ++ stack)
                        (Some child) (S depth) yielded
                  end
              end
          | None =>
              match stack with
              | [] => Finished (Some yielded)
              | frame :: stack =>
                  match setLength (f_depth frame - 1) path with
                  | None => Finished None
                  | Some path =>
                      treeIteratorLoop fuel (path ++ [f_childIndex frame]) stack
                        (Some (f_node frame)) (f_depth frame) yielded
                  end
              end
          end
      end
  end.

(** What [treeIterator(node)] yields, in the order in which it yields. *)
Definition treeIterator (fuel : nat) (node : TreeNode)
    : Loop (option (list (list nat * TreeNode))) :=
  treeIteratorLoop fuel [] [] (Some node) 0 [].

(** The loop of [findFen]; it returns at the first node with the position
    string [fen_]. *)
Fixpoint findFenLoop (fuel : nat) (fen_ : string) (path : list nat)
    (stack : list Frame) (current : option TreeNode) (depth : nat)
    : Loop (option (list nat)) :=
  match current, stack with
  | None, [] => Finished (Some [])
  | _, _ =>
      match fuel with
      | O => OutOfFuel
      | S fuel =>
          match current with
          | Some cur =>
              match setLength depth path with
              | None => Finished None
              | Some path =>
                  if String.eqb (fen cur) fen_ then Finished (Some path)
                  else
                    match children cur with
                    | [] => findFenLoop fuel fen_ path stack None depth
                    | child :: _ =>
                        findFenLoop fuel fen_ (path ++ [0%nat])
                          (siblingFrames (children cur) depth ++ stack)
                          (Some child) (S depth)
                    end
              end
          | None =>
              match stack with
              | [] => Finished (Some [])
              | frame :: stack =>
                  match setLength (f_depth frame - 1) path with
                  | None => Finished None
                  | Some path =>
                      findFenLoop fuel fen_ (path ++ [f_childIndex frame]) stack
                        (Some (f_node frame)) (f_depth frame)
                  end
              end
          end
      end
  end.

Definition findFen (fuel : nat) (fen_ : string) (node : TreeNode)
    : Loop (option (list nat)) :=
  findFenLoop fuel fen_ [] [] (Some node) 0.

(** The body of the loop of [buildFenIndex]. *)
Definition indexStep (index : gmap string (list nat)) (item : list nat * TreeNode)
    : gmap string (list nat) :=
  match index !! fen (snd item) with
  | Some _ => index
  | None => <[fen (snd item) := fst item]> index
  end.

Definition buildFenIndex (fuel : nat) (node : TreeNode)
    : Loop (option (gmap string (list nat))) :=
  match treeIterator fuel node with
  | Finished (Some items) => Finished (Some (fold_left indexStep items ∅))
  | Finished None => Finished None
  | OutOfFuel => OutOfFuel
  end.

(** What [treeIteratorMainLine(node)] yields: [current] and what follows
    it, [path] being the path after the push for [current]. *)
Fixpoint treeIteratorMainLineFrom (path : list nat) (current : TreeNode)
    : list (list nat * TreeNode) :=
  (path, current)
  :: match children current with
     | [] => []
     | child :: _ => treeIteratorMainLineFrom (path ++ [0%nat]) child
     end.

Definition treeIteratorMainLine (node : TreeNode) : list (list nat * TreeNode) :=
  treeIteratorMainLineFrom [] node.

Fixpoint countMainPly (node : TreeNode) : nat :=
  match children node with
  | [] => 0
  | child :: _ => S (countMainPly child)
  end.

(** ** Repertoire statistics ([src/utils/repertoire.ts]) *)

Record TreeStats := mkTreeStats {
  st_total : Z;
  st_leafs : nat;
  st_depth : nat }.

(** The body of the loop of [getTreeStats], on [(total, leafs, depth)]. *)
Definition statsStep (acc : nat * nat * nat) (item : list nat * TreeNode)
    : nat * nat * nat :=
  let '(total, leafs, depth) := acc in
  (S total,
   match children (snd item) with [] => S leafs | _ :: _ => leafs end,
   if (depth <? length (fst item))%nat then length (fst item) else depth).

Definition getTreeStats (fuel : nat) (root : TreeNode) : Loop (option TreeStats) :=
  match treeIterator fuel root with
  | Finished (Some items) =>
      let '(total, leafs, depth) := fold_left statsStep items (0, 0, 0)%nat in
      Finished (Some (mkTreeStats (Z.of_nat total - 1) leafs depth))
  | Finished None => Finished None
  | OutOfFuel => OutOfFuel
  end.

(** ** Paths and position strings ([src/utils/chess.ts]) *)

(** The loop of [getLastMainlinePosition]. *)
Fixpoint getLastMainlinePosition (node : TreeNode) : list nat :=
  match children node with
  | [] => []
  | child :: _ =>
      match move node with
      | Some _ => 0%nat :: getLastMainlinePosition child
      | None => getLastMainlinePosition child
      end
  end.

(** The loop of [hasMorePriority], which counts the common beginning. *)
Fixpoint commonLength (position1 position2 : list nat) : nat :=
  match position1, position2 with
  | x :: r1, y :: r2 => if (x =? y)%nat then S (commonLength r1 r2) else 0
  | _, _ => 0
  end.

(** [position1[i] < position2[i]] is [false] when one of them is
    [undefined]. *)
Definition hasMorePriority (position1 position2 : list nat) : bool :=
  if isPrefix position1 position2 then true
  else
    let i := commonLength position1 position2 in
    match position1 !! i, position2 !! i with
    | Some x, Some y => (x <? y)%nat
    | _, _ => false
    end.

(** ** Notions the further properties are stated with *)

(** The actions that move the cursor from where it is. *)
Inductive Navigation :=
| GoToNext | GoToPrevious | GoToEnd | GoToBranchStart | GoToBranchEnd
| NextBranch | PreviousBranch | NextBranching | PreviousBranching.

(** The store action of a navigation. *)
Definition navigate (a : Navigation) (state : TreeState) : M (Loop TreeState) :=
  match a with
  | GoToNext => state ← goToNext state; mret (Finished state)
  | GoToPrevious => mret (Finished (goToPrevious state))
  | GoToEnd => mret (Finished (goToEnd state))
  | GoToBranchStart => mret (goToBranchStart state)
  | GoToBranchEnd => mret (Finished (goToBranchEnd state))
  | NextBranch => state ← nextBranch state; mret (Finished state)
  | PreviousBranch => state ← previousBranch state; mret (Finished state)
  | NextBranching => mret (Finished (nextBranching state))
  | PreviousBranching => mret (previousBranching state)
  end.

(** The node carries the annotation and is a move of the colour. *)
Definition annotated (annotation : Annotation) (color : Color) (n : TreeNode) : bool :=
  existsb (String.eqb annotation) (annotations n)
  && (Z.rem (halfMoves n) 2 =? match color with white => 1 | black => 0 end).

(** The nodes of a tree, each with the path to it: a node, then its
    children from the first to the last, each with what is below it. *)
Fixpoint preorder (p : list nat) (n : TreeNode) : list (list nat * TreeNode) :=
  (p, n)
  :: (fix each (cs : list TreeNode) (i : nat) : list (list nat * TreeNode) :=
        match cs with
        | [] => []
        | c :: cs' => preorder (p ++ [i]) c ++ each cs' (S i)
        end) (children n) 0%nat.

(** The children [cs], the first of them at index [i], in that order. *)
Fixpoint preorderFrom (p : list nat) (i : nat) (cs : list TreeNode)
    : list (list nat * TreeNode) :=
  match cs with
  | [] => []
  | c :: cs' => preorder (p ++ [i]) c ++ preorderFrom p (S i) cs'
  end.

(** The number of nodes. *)
Fixpoint size (n : TreeNode) : nat :=
  S (list_sum (map size (children n))).

(** The number of nodes without children. *)
Fixpoint leaves (n : TreeNode) : nat :=
  match children n with
  | [] => 1
  | _ :: _ => list_sum (map leaves (children n))
  end.

(** The length of the longest path. *)
Fixpoint height (n : TreeNode) : nat :=
  match children n with
  | [] => 0
  | _ :: _ => S (list_max (map height (children n)))
  end.

(** The first item whose node has the position string [fen_]. *)
Definition firstWithFen (fen_ : string) (items : list (list nat * TreeNode))
    : option (list nat) :=
  fst <$> List.find (fun item => String.eqb (fen (snd item)) fen_) items.

Section DecodeNotions.
Context `{RulesEngine}.

(** The move that the loop of [innerParsePGN] reads in a [San] token. *)
Definition tokenMove (pos : Pos) (value : string) : option Move :=
  match parseSan pos value with
  | Some m => Some m
  | None => parseUci value
  end.

(** The nodes for the notations [sans] read one after the other from
    [pos] on, as the children of the node before the first: a notation
    that gives no move leaves no node; [o] is the next free identity. *)
Fixpoint chain (o : nat) (pos : Pos) (ply : Z) (sans : list string) : list TreeNode :=
  match sans with
  | [] => []
  | s :: rest =>
      match tokenMove pos s with
      | None => chain o pos ply rest
      | Some m =>
          [mkTreeNode o (makeFen (toSetup (play pos m))) (Some m)
             (Some (makeSan pos m))
             (chain (S o) (play pos m) (ply + 1) rest)
             None None (ply + 1) [] [] "" None]
      end
  end.

End DecodeNotions.

(** The state of a store and the allocator agree: the cursor leads to a
    node, no object occurs twice in the tree, and every object of the
    tree is older than the next one to be allocated. *)
Definition wellFormed (state : TreeState) (w : World) : Prop :=
  resolves (root state) (position state)
  ∧ distinctObjects (root state)
  ∧ Forall (fun o => (o < next_oid w)%nat) (oids (root state)).

Section EncodeNotions.
Context `{Host}.

(** The texts of the moves of a line, the first of them as the move
    that follows the root. *)
Fixpoint lineTexts (opt : TextOptions) (isFirst : bool) (nodes : list TreeNode)
    : option (list string) :=
  match nodes with
  | [] => Some []
  | n :: rest =>
      t ← getMoveText n opt isFirst;
      ts ← lineTexts opt false rest;
      Some (t :: ts)
  end.

End EncodeNotions.

(** * Properties *)

(** ** The monad *)

Lemma bind_returned {A B} (m : M A) (k : A → M B) w a w' :
  m w = Returned a w' → (m ≫= k) w = k a w'.
Proof. intros Hm. unfold mbind, M_bind. by rewrite Hm. Qed.

Lemma bind_thrown {A B} (m : M A) (k : A → M B) w e :
  m w = Thrown e → (m ≫= k) w = Thrown e.
Proof. intros Hm. unfold mbind, M_bind. by rewrite Hm. Qed.

Lemma mret_returned {A} (a : A) w : (mret a : M A) w = Returned a w.
Proof. done. Qed.

(** ** Paths *)

Section Paths.
Implicit Types (n node : TreeNode) (p q path : list nat).

Lemma resolvedPath_prefix n p : resolvedPath n p `prefix_of` p.
Proof.
  revert n; induction p as [|i p IH]; intros n; simpl; [done|].
  destruct (children n !! i); [|apply prefix_nil].
  by apply prefix_cons.
Qed.

Lemma resolvedPath_idemp n p : resolvedPath n (resolvedPath n p) = resolvedPath n p.
Proof.
  revert n; induction p as [|i p IH]; intros n; simpl; [done|].
  destruct (children n !! i) eqn:E; simpl; [|done].
  by rewrite E, IH.
Qed.

Lemma getNodeAtPath_resolved n p :
  getNodeAtPath n (resolvedPath n p) = getNodeAtPath n p.
Proof.
  revert n; induction p as [|i p IH]; intros n; simpl; [done|].
  destruct (children n !! i) eqn:E; simpl; [|done].
  by rewrite E, IH.
Qed.

Lemma resolves_nil n : resolves n [].
Proof. done. Qed.

Lemma resolves_cons n i p :
  resolves n (i :: p) ↔ ∃ c, children n !! i = Some c ∧ resolves c p.
Proof.
  unfold resolves; simpl. destruct (children n !! i) as [c|] eqn:E.
  - split.
    + intros [= Hp]. eauto.
    + intros (c' & [= <-] & Hp). by rewrite Hp.
  - split; [done|]. by intros (c' & ? & _).
Qed.

Lemma resolves_app n p q :
  resolves n (p ++ q) ↔ resolves n p ∧ resolves (getNodeAtPath n p) q.
Proof.
  revert n; induction p as [|i p IH]; intros n; simpl.
  - split; [by intros ?; split|by intros [_ ?]].
  - rewrite !resolves_cons. split.
    + intros (c & E & Hpq). apply IH in Hpq as [? ?]. rewrite E. eauto.
    + intros [(c & E & Hp) Hq]. rewrite E in Hq. exists c. split; [done|].
      apply IH. done.
Qed.

Lemma getNodeAtPath_app n p q :
  resolves n p → getNodeAtPath n (p ++ q) = getNodeAtPath (getNodeAtPath n p) q.
Proof.
  revert n; induction p as [|i p IH]; intros n; simpl; [done|].
  rewrite resolves_cons. intros (c & -> & Hp). by apply IH.
Qed.

Lemma resolves_take n p k : resolves n p → resolves n (take k p).
Proof.
  intros Hp. rewrite <- (take_drop k p) in Hp. by apply resolves_app in Hp as [? _].
Qed.

Lemma resolves_resolvedPath n p : resolves n (resolvedPath n p).
Proof. apply resolvedPath_idemp. Qed.

End Paths.

(** ** Copy-on-write path cloning *)

Section Cloning.
Implicit Types (n node : TreeNode) (p q path : list nat).

Lemma children_withOid o n : children (withOid o n) = children n.
Proof. done. Qed.

Lemma cloneAlong_children_length o n p :
  length (children (cloneAlong o n p)) = length (children n).
Proof.
  destruct p as [|i p]; simpl; [done|].
  destruct (children n !! i); simpl; [|done]. by rewrite length_insert.
Qed.

Lemma clonePathFrom_spec child rest o snd :
  clonePathFrom (withOid o child) rest (mkWorld (S o) snd) =
  Returned (cloneAlong o child rest)
    (mkWorld (o + S (length (resolvedPath child rest))) snd).
Proof.
  revert child o. induction rest as [|i rest IH]; intros child o.
  - simpl. unfold mret, M_ret. do 2 f_equal. lia.
  - simpl. destruct (children child !! i) as [c|] eqn:E.
    + unfold mbind, M_bind, cloneNode, newOid, mret, M_ret. simpl.
      rewrite IH. simpl. do 2 f_equal. lia.
    + unfold mret, M_ret. simpl. do 2 f_equal. lia.
Qed.

Lemma clonePath_spec root p w :
  clonePath root p w =
  Returned (cloneAlong (next_oid w) root p)
    (mkWorld (next_oid w + S (length (resolvedPath root p))) (sounds w)).
Proof.
  unfold clonePath, cloneNode, newOid, mbind, M_bind, mret, M_ret.
  apply clonePathFrom_spec.
Qed.

(** Cloning keeps the shape of the tree: the same paths resolve. *)
Lemma resolvedPath_cloneAlong o n p q :
  resolvedPath (cloneAlong o n p) q = resolvedPath n q.
Proof.
  revert o n p. induction q as [|j q IH]; intros o n p; [done|].
  destruct p as [|i p]; simpl; [done|].
  destruct (children n !! i) as [c|] eqn:E; simpl; [|done].
  destruct (decide (i = j)) as [->|Hne].
  - rewrite list_lookup_insert_eq by (by eapply lookup_lt_Some).
    rewrite E. by rewrite IH.
  - by rewrite list_lookup_insert_ne.
Qed.

(** The nodes off the cloned path are the very same objects. *)
Lemma getNodeAtPath_cloneAlong_off o n p q :
  ¬ resolvedPath n q `prefix_of` p →
  getNodeAtPath (cloneAlong o n p) q = getNodeAtPath n q.
Proof.
  revert o n p. induction q as [|j q IH]; intros o n p Hoff.
  - destruct Hoff. apply prefix_nil.
  - simpl in Hoff. destruct (children n !! j) as [c|] eqn:Ej;
      [|destruct Hoff; apply prefix_nil].
    destruct p as [|i p]; cbn [cloneAlong].
    + simpl. by rewrite Ej.
    + destruct (children n !! i) as [d|] eqn:Ei; [|simpl; by rewrite Ej].
      cbn [getNodeAtPath]. rewrite Ej. cbn [children withOid withChildren].
      destruct (decide (i = j)) as [->|Hne].
      * rewrite list_lookup_insert_eq by (by eapply lookup_lt_Some).
        assert (d = c) as -> by congruence.
        apply IH. intros Hp. apply Hoff. by apply prefix_cons.
      * by rewrite list_lookup_insert_ne, Ej.
Qed.

(** The nodes on the cloned path are new objects with the fields of the
    old ones. *)
Lemma getNodeAtPath_cloneAlong_on o n p k :
  (k ≤ length (resolvedPath n p))%nat →
  let new := getNodeAtPath (cloneAlong o n p) (take k (resolvedPath n p)) in
  let old := getNodeAtPath n (take k (resolvedPath n p)) in
  oid new = (o + k)%nat ∧ ownFields new = ownFields old
  ∧ length (children new) = length (children old).
Proof.
  revert o n k. induction p as [|i p IH]; intros o n k Hk.
  - simpl in *. rewrite take_nil. simpl. split; [lia|done].
  - simpl in *. destruct (children n !! i) as [c|] eqn:E.
    + destruct k as [|k]; simpl.
      * rewrite length_insert. split; [lia|done].
      * rewrite list_lookup_insert_eq by (by eapply lookup_lt_Some).
        rewrite E. simpl in Hk.
        destruct (IH (S o) c k ltac:(lia)) as (IH1 & IH2 & IH3).
        split; [lia|done].
    + rewrite take_nil. simpl in *. assert (k = 0)%nat as -> by lia.
      split; [lia|done].
Qed.

End Cloning.

(** ** Assignments through a path *)

Section Assign.
Implicit Types (n node : TreeNode) (p q path : list nat) (f : TreeNode → TreeNode).

Lemma assignAtPath_resolved f n p :
  assignAtPath f n (resolvedPath n p) = assignAtPath f n p.
Proof.
  revert n; induction p as [|i p IH]; intros n; simpl; [done|].
  destruct (children n !! i) eqn:E; simpl; [|done].
  by rewrite E, IH.
Qed.

(** The node the assignment reaches holds what was assigned. *)
Lemma getNodeAtPath_assignAtPath f n p :
  getNodeAtPath (assignAtPath f n p) (resolvedPath n p) = f (getNodeAtPath n p).
Proof.
  revert n; induction p as [|i p IH]; intros n; simpl; [done|].
  destruct (children n !! i) as [c|] eqn:E; simpl; [|done].
  rewrite list_lookup_insert_eq by (by eapply lookup_lt_Some). apply IH.
Qed.

Lemma getNodeAtPath_assignAtPath_at f n p :
  resolves n p →
  getNodeAtPath (assignAtPath f n p) p = f (getNodeAtPath n p).
Proof.
  intros Hp. rewrite <- Hp at 2. apply getNodeAtPath_assignAtPath.
Qed.

Lemma resolves_assignAtPath f n p :
  resolves n p → resolves (assignAtPath f n p) p.
Proof.
  revert n. induction p as [|i p IH]; intros n; [done|].
  rewrite !resolves_cons. intros (c & E & Hc). simpl. rewrite E. simpl.
  rewrite list_lookup_insert_eq by (by eapply lookup_lt_Some). eauto.
Qed.

Lemma getNodeAtPath_assignAtPath_below f n p q :
  resolves n p →
  getNodeAtPath (assignAtPath f n p) (p ++ q) = getNodeAtPath (f (getNodeAtPath n p)) q.
Proof.
  revert n; induction p as [|i p IH]; intros n; simpl; [done|].
  rewrite resolves_cons. intros (c & E & Hp). rewrite E. simpl.
  rewrite list_lookup_insert_eq by (by eapply lookup_lt_Some). by apply IH.
Qed.

(** A node above the one assigned to keeps its identity and its fields;
    of its children, the one on the path alone is written. *)
Lemma getNodeAtPath_assignAtPath_above f n p k :
  (k < length (resolvedPath n p))%nat →
  let new := getNodeAtPath (assignAtPath f n p) (take k (resolvedPath n p)) in
  let old := getNodeAtPath n (take k (resolvedPath n p)) in
  oid new = oid old ∧ ownFields new = ownFields old
  ∧ length (children new) = length (children old).
Proof.
  revert n k; induction p as [|i p IH]; intros n k Hk; simpl in Hk; [lia|].
  simpl. destruct (children n !! i) as [c|] eqn:E; [|simpl in Hk; lia].
  destruct k as [|k]; simpl.
  - rewrite length_insert. done.
  - rewrite list_lookup_insert_eq by (by eapply lookup_lt_Some). rewrite E.
    apply IH. simpl in Hk. lia.
Qed.

(** An assignment that leaves [children] alone keeps the shape of the
    tree and every node off the path. *)
Lemma resolvedPath_assignAtPath f n p q :
  (∀ m, children (f m) = children m) →
  resolvedPath (assignAtPath f n p) q = resolvedPath n q.
Proof.
  intros Hf. revert n p. induction q as [|j q IH]; intros n p; [done|].
  destruct p as [|i p]; simpl.
  - rewrite Hf. done.
  - destruct (children n !! i) as [c|] eqn:E; simpl; [|by rewrite Hf].
    destruct (decide (i = j)) as [->|Hne].
    + rewrite list_lookup_insert_eq by (by eapply lookup_lt_Some).
      rewrite E. by rewrite IH.
    + by rewrite list_lookup_insert_ne.
Qed.

Lemma getNodeAtPath_assignAtPath_off f n p q :
  (∀ m, children (f m) = children m) →
  ¬ resolvedPath n q `prefix_of` p →
  getNodeAtPath (assignAtPath f n p) q = getNodeAtPath n q.
Proof.
  intros Hf. revert n p. induction q as [|j q IH]; intros n p Hoff.
  - destruct Hoff. apply prefix_nil.
  - simpl in Hoff. destruct (children n !! j) as [c|] eqn:Ej;
      [|destruct Hoff; apply prefix_nil].
    destruct p as [|i p]; cbn [assignAtPath].
    + simpl. by rewrite Hf, Ej.
    + destruct (children n !! i) as [d|] eqn:Ei; [|simpl; by rewrite Hf, Ej].
      cbn [getNodeAtPath]. rewrite Ej. cbn [children withChildren].
      destruct (decide (i = j)) as [->|Hne].
      * rewrite list_lookup_insert_eq by (by eapply lookup_lt_Some).
        assert (d = c) as -> by congruence.
        apply IH. intros Hp. apply Hoff. by apply prefix_cons.
      * by rewrite list_lookup_insert_ne, Ej.
Qed.

End Assign.

(** ** Field edits: what is cloned and what is shared *)

Section FieldEditFrame.
Context `{Host}.

Lemma editedNode_children e m : children (editedNode e m) = children m.
Proof.
  destruct e as [c|s|a]; simpl; try done.
  unfold toggleAnnotation. by destruct (existsb _ _).
Qed.

Lemma editedNode_oid e m : oid (editedNode e m) = oid m.
Proof.
  destruct e as [c|s|a]; simpl; try done.
  unfold toggleAnnotation. by destruct (existsb _ _).
Qed.

Lemma fieldEdit_spec e state w :
  fieldEdit e state w =
  Returned
    (withDirty true
       (withRoot
          (assignAtPath (editedNode e)
             (cloneAlong (next_oid w) (root state) (position state))
             (position state))
          state))
    (mkWorld (next_oid w + S (length (resolvedPath (root state) (position state))))
       (sounds w)).
Proof.
  destruct e; simpl; unfold setComment, setScore, setAnnotation;
    unfold mbind, M_bind; rewrite clonePath_spec; reflexivity.
Qed.

(** X27.  [setComment], [setScore] and [setAnnotation] never throw and
    leave the cursor where it was.  Of the new root, the nodes on the way
    from the root to the node the cursor resolves to are clones: each is
    a new object, with the fields and the number of children of the node
    it replaces (the last one with the edited field).  Every path [Q]
    that leads to a node off that way resolves to the very object it
    resolved to before, identity, fields and descendants included. *)
Theorem field_edit_clones_path_only (e : FieldEdit) (state : TreeState) (w : World) :
  let P := resolvedPath (root state) (position state) in
  ∃ state' w',
    fieldEdit e state w = Returned state' w'
    ∧ position state' = position state
    ∧ (∀ k, (k ≤ length P)%nat →
         let new := getNodeAtPath (root state') (take k P) in
         let old := getNodeAtPath (root state) (take k P) in
         oid new = (next_oid w + k)%nat
         ∧ length (children new) = length (children old)
         ∧ ownFields new
           = ownFields (if decide (k = length P) then editedNode e old else old))
    ∧ (∀ Q, ¬ resolvedPath (root state) Q `prefix_of` position state →
         getNodeAtPath (root state') Q = getNodeAtPath (root state) Q).
Proof.
  intros P. eexists _, _. split; [apply fieldEdit_spec|].
  split; [done|]. split.
  - intros k Hk. cbn [root withDirty withRoot].
    set (cloned := cloneAlong (next_oid w) (root state) (position state)).
    assert (HP : resolvedPath cloned (position state) = P)
      by apply resolvedPath_cloneAlong.
    destruct (getNodeAtPath_cloneAlong_on (next_oid w) (root state)
                (position state) k Hk) as (Ho & Hf & Hl).
    fold P cloned in Ho, Hf, Hl.
    destruct (decide (k = length P)) as [->|Hne].
    + rewrite firstn_all in *.
      assert (Hnew : getNodeAtPath (assignAtPath (editedNode e) cloned (position state)) P
                     = editedNode e (getNodeAtPath cloned P)).
      { rewrite <- HP at 1. rewrite getNodeAtPath_assignAtPath.
        by rewrite <- (getNodeAtPath_resolved cloned), HP. }
      rewrite Hnew, editedNode_oid, editedNode_children.
      split; [done|]. split; [done|].
      revert Hf. generalize (getNodeAtPath cloned P) (getNodeAtPath (root state) P).
      intros a b Hab. destruct e as [c|s|an]; simpl.
      * injection Hab; intros; subst. unfold ownFields, withOid, withChildren, withComment.
        simpl. congruence.
      * injection Hab; intros; subst. unfold ownFields, withOid, withChildren, withScore.
        simpl. congruence.
      * unfold toggleAnnotation. injection Hab; intros Hc Hcm Han Hsh Hhm Hd Hsc Hs Hm Hfn.
        simpl in *. rewrite Han. destruct (existsb _ _);
          unfold ownFields, withOid, withChildren, withAnnotations; simpl; congruence.
    + assert (Hlt : (k < length (resolvedPath cloned (position state)))%nat)
        by (rewrite HP; lia).
      destruct (getNodeAtPath_assignAtPath_above (editedNode e) cloned
                  (position state) k Hlt) as (Ho' & Hf' & Hl').
      rewrite HP in Ho', Hf', Hl'. rewrite Ho', Hf', Hl'. done.
  - intros Q HQ. cbn [root withDirty withRoot].
    rewrite getNodeAtPath_assignAtPath_off.
    + by apply getNodeAtPath_cloneAlong_off.
    + apply editedNode_children.
    + by rewrite resolvedPath_cloneAlong.
Qed.

End FieldEditFrame.

(** ** Arrays *)

Section Arrays.
Context {A : Type}.
Implicit Types (l : list A) (p : A → bool).

Lemma findIndex_bounds p l : -1 ≤ Js.findIndex p l < Z.of_nat (length l).
Proof.
  induction l as [|x l IH]; simpl; [lia|].
  destruct (p x); [lia|]. destruct (Js.findIndex p l <? 0) eqn:E; lia.
Qed.


Lemma findIndex_none_inv p l :
  Js.findIndex p l = -1 → Forall (λ x, p x = false) l.
Proof.
  induction l as [|x l IH]; simpl; [by constructor|].
  destruct (p x) eqn:Hx; [done|].
  pose proof (findIndex_bounds p l).
  destruct (Js.findIndex p l <? 0) eqn:E; [|lia].
  intros _. constructor; [done|]. apply IH. lia.
Qed.

(** The index found is the first one whose element passes the test. *)
Lemma findIndex_first p l k x :
  l !! k = Some x → p x = true →
  (∀ j y, (j < k)%nat → l !! j = Some y → p y = false) →
  Js.findIndex p l = Z.of_nat k.
Proof.
  revert k. induction l as [|z l IH]; intros k Hk Hx Hfirst; [done|].
  destruct k as [|k]; simpl in *.
  - injection Hk as ->. by rewrite Hx.
  - rewrite (Hfirst 0%nat z) by (done || lia).
    rewrite (IH k Hk Hx).
    + destruct (Z.of_nat k <? 0) eqn:E; lia.
    + intros j y Hj Hy. apply (Hfirst (S j) y); [lia|done].
Qed.

Lemma findIndex_found p l :
  Js.findIndex p l ≠ -1 →
  ∃ x, l !! Z.to_nat (Js.findIndex p l) = Some x ∧ p x = true.
Proof.
  induction l as [|z l IH]; simpl; [done|].
  destruct (p z) eqn:Hz; [by exists z|].
  pose proof (findIndex_bounds p l).
  destruct (Js.findIndex p l <? 0) eqn:E; [done|]. intros _.
  destruct IH as (x & Hx & Hp); [lia|]. exists x. split; [|done].
  replace (Z.to_nat (Js.findIndex p l + 1)) with (S (Z.to_nat (Js.findIndex p l))) by lia.
  done.
Qed.

Lemma splice1_at l k :
  (k < length l)%nat → snd (Js.splice1 (Z.of_nat k) l) = delete k l.
Proof.
  intros Hk. unfold Js.splice1, Js.spliceStart. simpl.
  destruct (Z.of_nat k <? 0) eqn:E; [lia|].
  rewrite Nat2Z.id, Nat.min_l by lia. by rewrite delete_take_drop.
Qed.

Lemma splice1_removed l k x :
  l !! k = Some x → fst (Js.splice1 (Z.of_nat k) l) = [x].
Proof.
  intros Hk. pose proof (lookup_lt_Some _ _ _ Hk).
  unfold Js.splice1, Js.spliceStart. simpl.
  destruct (Z.of_nat k <? 0) eqn:E; [lia|].
  rewrite Nat2Z.id, Nat.min_l by lia.
  rewrite (drop_S _ _ _ Hk). done.
Qed.


End Arrays.

Lemma sliceInit_snoc (p : list nat) k : Js.sliceInit (p ++ [k]) = p.
Proof. apply removelast_last. Qed.

Lemma isPrefix_spec (a b : list nat) : isPrefix a b = true ↔ a `prefix_of` b.
Proof.
  revert b. induction a as [|x a IH]; intros [|y b]; simpl.
  - split; [intros; apply prefix_nil|done].
  - split; [intros; apply prefix_nil|done].
  - split; [done|]. intros Hp. by apply prefix_nil_not in Hp.
  - rewrite andb_true_iff, Nat.eqb_eq, IH. split.
    + intros [-> Hp]. by apply prefix_cons.
    + intros Hp. split; [by eapply prefix_cons_inv_1|by eapply prefix_cons_inv_2].
Qed.

(** ** Trees of distinct objects *)

Section Distinct.
Implicit Types (n node : TreeNode) (p q path : list nat).

Lemma oids_eq n : oids n = oid n :: flat_map oids (children n).
Proof. by destruct n. Qed.

Lemma oids_child n i c : children n !! i = Some c → oids c ⊆ flat_map oids (children n).
Proof.
  intros Hc x Hx. apply list_elem_of_In, in_flat_map. exists c. split.
  - apply list_elem_of_In. by eapply list_elem_of_lookup_2.
  - by apply list_elem_of_In.
Qed.

Lemma NoDup_flat_map_lookup {A B} (g : A → list B) (l : list A) i x :
  NoDup (flat_map g l) → l !! i = Some x → NoDup (g x).
Proof.
  revert i. induction l as [|y l IH]; intros i Hnd Hi; [done|].
  simpl in Hnd. apply NoDup_app in Hnd as (H1 & _ & H2).
  destruct i as [|i]; simpl in Hi; [by injection Hi as ->|]. by eapply IH.
Qed.

Lemma distinctObjects_child n i c :
  distinctObjects n → children n !! i = Some c → distinctObjects c.
Proof.
  unfold distinctObjects. rewrite oids_eq. intros Hnd Hc.
  apply NoDup_cons in Hnd as [_ Hnd]. by eapply NoDup_flat_map_lookup.
Qed.

Lemma distinctObjects_at n p :
  distinctObjects n → distinctObjects (getNodeAtPath n p).
Proof.
  revert n. induction p as [|i p IH]; intros n Hn; simpl; [done|].
  destruct (children n !! i) as [c|] eqn:E; [|done].
  apply IH. by eapply distinctObjects_child.
Qed.


Lemma NoDup_flat_map_heads (l : list TreeNode) i j x y :
  NoDup (flat_map oids l) → l !! i = Some x → l !! j = Some y →
  oid x = oid y → i = j.
Proof.
  revert i j. induction l as [|z l IH]; intros i j Hnd Hi Hj Heq; [done|].
  simpl in Hnd. apply NoDup_app in Hnd as (H1 & H2 & H3).
  assert (Hin : ∀ k c, l !! k = Some c → oid c ∈ flat_map oids l).
  { intros k c Hc. apply list_elem_of_In, in_flat_map. exists c. split.
    - apply list_elem_of_In. by eapply list_elem_of_lookup_2.
    - rewrite oids_eq. by left. }
  assert (Hz : oid z ∈ oids z) by (rewrite oids_eq; by left).
  destruct i as [|i], j as [|j]; simpl in *.
  - done.
  - injection Hi as ->. destruct (H2 (oid x) Hz). rewrite Heq. by eapply Hin.
  - injection Hj as ->. destruct (H2 (oid y) Hz). rewrite <- Heq. by eapply Hin.
  - f_equal. by eapply IH.
Qed.

(** Among the children of a node, the identity of a child finds that
    child. *)
Lemma findIndex_oid n k c :
  distinctObjects n → children n !! k = Some c →
  Js.findIndex (λ m, (oid m =? oid c)%nat) (children n) = Z.of_nat k.
Proof.
  unfold distinctObjects. rewrite oids_eq. intros Hnd Hc.
  apply NoDup_cons in Hnd as [_ Hnd].
  eapply findIndex_first; [done|by apply Nat.eqb_refl|].
  intros j y Hj Hy. apply Nat.eqb_neq. intros Heq.
  assert (j = k) by (by eapply NoDup_flat_map_heads). lia.
Qed.

End Distinct.

(** ** Deleting a move *)

Section Delete.
Implicit Types (n node : TreeNode) (p q path : list nat) (f : TreeNode → TreeNode).

(** An assignment leaves alone every node that is neither above nor below
    the node it writes to. *)
Lemma getNodeAtPath_assignAtPath_apart f n p q :
  ¬ resolvedPath n q `prefix_of` p → ¬ resolvedPath n p `prefix_of` q →
  getNodeAtPath (assignAtPath f n p) q = getNodeAtPath n q.
Proof.
  revert n p. induction q as [|j q IH]; intros n p Hq Hp.
  - destruct Hq. apply prefix_nil.
  - simpl in Hq. destruct (children n !! j) as [c|] eqn:Ej;
      [|destruct Hq; apply prefix_nil].
    destruct p as [|i p]; [destruct Hp; apply prefix_nil|].
    simpl in Hp. cbn [assignAtPath].
    destruct (children n !! i) as [d|] eqn:Ei; [|destruct Hp; apply prefix_nil].
    cbn [getNodeAtPath]. rewrite Ej. cbn [children withChildren].
    destruct (decide (i = j)) as [->|Hne].
    + rewrite list_lookup_insert_eq by (by eapply lookup_lt_Some).
      assert (d = c) as -> by congruence.
      apply IH; intros Hpre; [apply Hq|apply Hp]; by apply prefix_cons.
    + by rewrite list_lookup_insert_ne, Ej.
Qed.

Lemma assignAtPath_ext f g n p :
  f (getNodeAtPath n p) = g (getNodeAtPath n p) →
  assignAtPath f n p = assignAtPath g n p.
Proof.
  revert n. induction p as [|i p IH]; intros n Hfg; simpl in *; [done|].
  destruct (children n !! i) as [c|] eqn:E; [|done]. by rewrite IH.
Qed.

Lemma deleteMove_root_eq state P :
  root (deleteMove state P) =
  assignAtPath
    (λ x, withChildren
            (snd (Js.splice1
                    (Js.findIndex (λ m, (oid m =? oid (getNodeAtPath (root state) P))%nat)
                       (children (getNodeAtPath (root state) (Js.sliceInit P))))
                    (children x))) x)
    (root state) (Js.sliceInit P).
Proof.
  unfold deleteMove. cbn [position withRoot].
  repeat match goal with |- context [if ?b then _ else _] => destruct b end; done.
Qed.

Lemma deleteMove_position_eq state P :
  position (deleteMove state P) =
  if isPrefix P (position state) then Js.sliceInit P
  else if isPrefix (Js.sliceInit P) (position state) then
         if (length P <=? length (position state))%nat
         then <[(length P - 1)%nat := 0%nat]> (position state)
         else position state
       else position state.
Proof.
  unfold deleteMove. cbn [position withRoot].
  repeat match goal with |- context [if ?b then _ else _] => destruct b end; done.
Qed.

(** C6.  For a path [parent ++ [k]] that addresses a node of a tree of
    distinct objects, [deleteMove] takes the [k]-th child, with its
    subtree, out of the children of the node at [parent], and leaves every
    node that is neither above nor below [parent] as it was.  The cursor
    becomes [parent] when the path is a prefix of (or equal to) the
    cursor; otherwise, when [parent] is a prefix of the cursor and the
    cursor is at least as long as the path, the cursor's index at the
    depth of the deleted node becomes 0; in all other cases it stays. *)
Theorem deleteMove_removes_subtree_and_moves_cursor
    (state : TreeState) (parent : list nat) (k : nat) :
  let P := parent ++ [k] in
  let cursor := position state in
  resolves (root state) P →
  distinctObjects (root state) →
  let state' := deleteMoveAction (Some P) state in
  children (getNodeAtPath (root state') parent)
  = delete k (children (getNodeAtPath (root state) parent))
  ∧ ownFields (getNodeAtPath (root state') parent)
    = ownFields (getNodeAtPath (root state) parent)
  ∧ (∀ Q, ¬ resolvedPath (root state) Q `prefix_of` parent →
          ¬ parent `prefix_of` Q →
          getNodeAtPath (root state') Q = getNodeAtPath (root state) Q)
  ∧ position state'
    = (if decide (P `prefix_of` cursor) then parent
       else if decide (parent `prefix_of` cursor ∧ (length P ≤ length cursor)%nat)
            then <[(length P - 1)%nat := 0%nat]> cursor
            else cursor).
Proof.
  intros P cursor HP Hd state'. subst P.
  assert (Hpar : resolves (root state) parent)
    by (by apply resolves_app in HP as [? _]).
  assert (Hk : ∃ c, children (getNodeAtPath (root state) parent) !! k = Some c
                    ∧ getNodeAtPath (root state) (parent ++ [k]) = c).
  { apply resolves_app in HP as [_ HP]. apply resolves_cons in HP as (c & E & _).
    exists c. split; [done|]. rewrite getNodeAtPath_app by done.
    simpl. by rewrite E. }
  destruct Hk as (c & Hc & HPc).
  assert (Hroot : root state'
    = assignAtPath (λ x, withChildren (delete k (children x)) x) (root state) parent).
  { unfold state', deleteMoveAction. cbn [default]. unfold Datatypes.id. rewrite deleteMove_root_eq.
    cbn [root withDirty]. rewrite !sliceInit_snoc, HPc.
    rewrite (findIndex_oid _ k c) by (done || by apply distinctObjects_at).
    apply assignAtPath_ext. cbn beta.
    rewrite splice1_at by (by eapply lookup_lt_Some). done. }
  split; [|split; [|split]].
  - by rewrite Hroot, getNodeAtPath_assignAtPath_at.
  - by rewrite Hroot, getNodeAtPath_assignAtPath_at.
  - intros Q HQ1 HQ2. rewrite Hroot. apply getNodeAtPath_assignAtPath_apart; [done|].
    by rewrite Hpar.
  - unfold state', deleteMoveAction. cbn [default]. unfold Datatypes.id. rewrite deleteMove_position_eq.
    cbn [position withDirty]. fold cursor. rewrite sliceInit_snoc.
    destruct (isPrefix (parent ++ [k]) cursor) eqn:E1.
    + apply isPrefix_spec in E1. by rewrite decide_True.
    + rewrite decide_False by (intros ?%isPrefix_spec; congruence).
      destruct (isPrefix parent cursor) eqn:E2.
      * apply isPrefix_spec in E2.
        destruct (length (parent ++ [k]) <=? length cursor)%nat eqn:E3.
        -- apply Nat.leb_le in E3. by rewrite decide_True.
        -- apply Nat.leb_gt in E3. rewrite decide_False by (intros [_ ?]; lia). done.
      * rewrite decide_False; [done|]. intros [?%isPrefix_spec _]. congruence.
Qed.


End Delete.

(** ** Promoting a variation *)

Section Promote.
Implicit Types (n node : TreeNode) (p q path : list nat).

Lemma some_nonZero_sideSteps p : Js.some nonZero p = false ↔ sideSteps p = 0%nat.
Proof.
  unfold Js.some, sideSteps. induction p as [|x p IH]; simpl; [done|].
  destruct (nonZero x); simpl; [done|]. apply IH.
Qed.

Lemma sideSteps_le p : (sideSteps p ≤ length p)%nat.
Proof.
  unfold sideSteps. induction p as [|x p IH]; simpl; [done|].
  destruct (nonZero x); simpl; lia.
Qed.

Lemma all_zero_repeat p : Js.some nonZero p = false → p = repeat 0%nat (length p).
Proof.
  unfold Js.some. induction p as [|x p IH]; simpl; [done|].
  destruct x; simpl; [|done]. intros Hp. f_equal. by apply IH.
Qed.

(** The last index that leaves the mainline, when there is one. *)
Lemma findLastIndex_nonZero p :
  Js.some nonZero p = true →
  ∃ i v, Js.findLastIndex nonZero p = Z.of_nat i ∧ p !! i = Some (S v)
         ∧ Js.some nonZero (drop (S i) p) = false.
Proof.
  unfold Js.some. induction p as [|x p IH]; simpl; [done|].
  destruct (existsb nonZero p) eqn:Hp.
  - intros _. destruct IH as (i & v & Hi & Hv & Hz); [done|].
    exists (S i), v. rewrite Hi. simpl.
    destruct (0 <=? Z.of_nat i) eqn:E; [|lia]. split; [lia|done].
  - rewrite orb_false_r. intros Hx.
    assert (Hneg : Js.findLastIndex nonZero p = -1).
    { clear -Hp. induction p as [|y p IH]; simpl in *; [done|].
      apply orb_false_iff in Hp as [Hy Hp]. rewrite IH, Hy by done. done. }
    rewrite Hneg, Hx. simpl. destruct x as [|v]; [done|].
    exists 0%nat, v. rewrite drop_0. done.
Qed.

Lemma findLastIndex_zero p :
  Js.some nonZero p = false → Js.findLastIndex nonZero p = -1.
Proof.
  unfold Js.some. induction p as [|y p IH]; simpl in *; [done|].
  intros Hp. apply orb_false_iff in Hp as [Hy Hp]. rewrite IH, Hy by done. done.
Qed.

Lemma sideSteps_insert_zero p i v :
  p !! i = Some (S v) → S (sideSteps (<[i := 0%nat]> p)) = sideSteps p.
Proof.
  unfold sideSteps. revert i. induction p as [|x p IH]; intros i Hi; [done|].
  destruct i as [|i]; simpl in *.
  - injection Hi as ->. done.
  - destruct (nonZero x); simpl; by rewrite (IH i).
Qed.

(** One step: the child at the last index off the mainline goes to the
    front of its siblings, the cursor follows it. *)
Lemma promoteVariation_step state p i v :
  resolves (root state) p →
  Js.findLastIndex nonZero p = Z.of_nat i →
  p !! i = Some v →
  ∃ x,
    children (getNodeAtPath (root state) (take i p)) !! v = Some x
    ∧ promoteVariation state p
      = Some (withPosition (<[i := 0%nat]> p)
                (withRoot
                   (assignAtPath
                      (λ m, withChildren (x :: delete v (children m)) m)
                      (root state) (take i p))
                   state)).
Proof.
  intros Hp Hi Hv.
  assert (Hx : ∃ x, children (getNodeAtPath (root state) (take i p)) !! v = Some x).
  { rewrite <- (take_drop i p) in Hp. apply resolves_app in Hp as [_ Hp].
    rewrite (drop_S _ _ _ Hv) in Hp. apply resolves_cons in Hp as (c & E & _). eauto. }
  destruct Hx as (x & Hx). exists x. split; [done|].
  unfold promoteVariation. rewrite Hi.
  destruct (Z.of_nat i =? -1) eqn:E; [lia|]. rewrite Nat2Z.id, Hv. cbn [default].
  unfold Datatypes.id.
  pose proof (splice1_removed _ _ _ Hx) as Hrem.
  destruct (Js.splice1 (Z.of_nat v) (children (getNodeAtPath (root state) (take i p))))
    as [removed rest] eqn:Hs.
  simpl in Hrem. subst removed. do 3 f_equal.
  apply assignAtPath_ext. cbn beta. rewrite splice1_at by (by eapply lookup_lt_Some).
  done.
Qed.

(** The promoted path leads to the node the path led to. *)
Lemma promoted_path_same_node n p i v x :
  resolves n p →
  p !! i = Some v →
  Js.some nonZero (drop (S i) p) = false →
  children (getNodeAtPath n (take i p)) !! v = Some x →
  let n' := assignAtPath (λ m, withChildren (x :: delete v (children m)) m)
              n (take i p) in
  resolves n' (<[i := 0%nat]> p)
  ∧ getNodeAtPath n' (<[i := 0%nat]> p) = getNodeAtPath n p.
Proof.
  intros Hp Hv Hz Hx n'.
  pose proof (lookup_lt_Some _ _ _ Hv) as Hlt.
  assert (Hpi : resolves n (take i p)) by (by apply resolves_take).
  assert (Hsplit : <[i := 0%nat]> p = take i p ++ 0%nat :: drop (S i) p).
  { rewrite <- (take_drop i p) at 1. rewrite insert_app_r_alt by (rewrite length_take; lia).
    rewrite length_take, Nat.min_l by lia. rewrite Nat.sub_diag.
    rewrite (drop_S _ _ _ Hv). done. }
  assert (Hold : getNodeAtPath n p = getNodeAtPath x (drop (S i) p)
                 ∧ resolves x (drop (S i) p)).
  { rewrite <- (take_drop i p) in Hp. apply resolves_app in Hp as [_ Hp].
    rewrite (drop_S _ _ _ Hv) in Hp. apply resolves_cons in Hp as (c & E & Hc).
    assert (c = x) as -> by congruence. split; [|done].
    rewrite <- (take_drop i p) at 1. rewrite getNodeAtPath_app by done.
    rewrite (drop_S _ _ _ Hv). simpl. by rewrite E. }
  destruct Hold as [Hold Hres].
  assert (Hnode : getNodeAtPath n' (take i p)
                  = withChildren (x :: delete v (children (getNodeAtPath n (take i p))))
                      (getNodeAtPath n (take i p))).
  { unfold n'. by rewrite getNodeAtPath_assignAtPath_at. }
  assert (Hres' : resolves n' (take i p)) by (by apply resolves_assignAtPath).
  rewrite Hsplit. split.
  - apply resolves_app. split; [done|]. rewrite Hnode.
    apply resolves_cons. exists x. done.
  - rewrite getNodeAtPath_app by done. rewrite Hnode. simpl. by rewrite Hold.
Qed.

End Promote.

Section PromoteLoop.
Implicit Types (n node : TreeNode) (p q path : list nat).

Lemma promoteLoop_more_fuel fuel fuel' state p r :
  promoteLoop fuel state p = Finished r → (fuel ≤ fuel')%nat →
  promoteLoop fuel' state p = Finished r.
Proof.
  revert fuel' state p. induction fuel as [|fuel IH]; intros fuel' state p Hr Hle.
  - destruct fuel'; simpl in *; destruct (Js.some nonZero p); done.
  - destruct fuel' as [|fuel']; [lia|]. simpl in *.
    destruct (Js.some nonZero p); [|done].
    destruct (promoteVariation state p) as [s1|]; [|done].
    apply IH; [done|lia].
Qed.

Lemma promoteLoop_spec fuel state p :
  resolves (root state) p → (sideSteps p ≤ fuel)%nat →
  ∃ state',
    promoteLoop fuel state p = Finished (Some state')
    ∧ resolves (root state') (repeat 0%nat (length p))
    ∧ getNodeAtPath (root state') (repeat 0%nat (length p))
      = getNodeAtPath (root state) p
    ∧ (if Js.some nonZero p then position state' = repeat 0%nat (length p)
       else state' = state)
    ∧ headers state' = headers state ∧ dirty state' = dirty state.
Proof.
  revert state p. induction fuel as [|fuel IH]; intros state p Hp Hfuel.
  - assert (Hz : Js.some nonZero p = false) by (apply some_nonZero_sideSteps; lia).
    exists state. simpl. rewrite Hz, <- (all_zero_repeat p Hz). done.
  - destruct (Js.some nonZero p) eqn:Hs.
    + destruct (findLastIndex_nonZero p Hs) as (i & v & Hi & Hv & Hz).
      destruct (promoteVariation_step state p i (S v) Hp Hi Hv) as (x & Hx & Hstep).
      destruct (promoted_path_same_node (root state) p i (S v) x Hp Hv Hz Hx)
        as [Hres Hnode].
      set (s1 := withPosition (<[i := 0%nat]> p)
                   (withRoot
                      (assignAtPath
                         (λ m, withChildren (x :: delete (S v) (children m)) m)
                         (root state) (take i p)) state)) in *.
      destruct (IH s1 (position s1)) as (s' & Hloop & Hr' & Hn' & Hpos & Hh & Hd).
      * exact Hres.
      * pose proof (sideSteps_insert_zero p i v Hv). simpl. lia.
      * exists s'. simpl promoteLoop. rewrite Hs, Hstep.
        change (position s1) with (<[i := 0%nat]> p) in *.
        rewrite length_insert in *.
        split; [done|]. split; [done|]. split; [by rewrite Hn'|].
        split; [|done].
        destruct (Js.some nonZero (<[i := 0%nat]> p)) eqn:Hs'; [done|].
        subst s'. simpl. rewrite (all_zero_repeat _ Hs') at 1.
        by rewrite length_insert.
    + exists state. simpl. rewrite Hs, <- (all_zero_repeat p Hs). done.
Qed.

(** C5, as the code has it.  For a path [P] that addresses a node and
    leaves the mainline somewhere, [promoteToMainline] comes to an end
    (with fuel for as many steps as [P] is long), leaves the cursor at the
    path of [P]'s length that holds zeros only, and that path addresses
    the very node [P] addressed.  For a path with zeros only it changes
    neither the tree nor the cursor.  Each step, [promoteVariation] on a
    path that addresses a node, takes the last index [i] that is not zero
    and its value [v], moves the [v]-th child of the node at the first [i]
    indices to the front of its siblings, which keep their order, and
    sets the cursor to the path with 0 at [i]. *)
Theorem promoteToMainline_reaches_mainline (state : TreeState) (P : list nat) :
  resolves (root state) P →
  (Js.some nonZero P = true →
   ∃ state',
     (∀ fuel, (length P ≤ fuel)%nat →
              promoteToMainline fuel P state = Finished (Some state'))
     ∧ position state' = repeat 0%nat (length P)
     ∧ resolves (root state') (position state')
     ∧ getNodeAtPath (root state') (position state') = getNodeAtPath (root state) P)
  ∧ (Js.some nonZero P = false →
     ∀ fuel, promoteToMainline fuel P state = Finished (Some (withDirty true state)))
  ∧ (∀ s p i v,
       resolves (root s) p →
       Js.findLastIndex nonZero p = Z.of_nat i → p !! i = Some v →
       ∃ x s',
         promoteVariation s p = Some s'
         ∧ children (getNodeAtPath (root s) (take i p)) !! v = Some x
         ∧ children (getNodeAtPath (root s') (take i p))
           = x :: delete v (children (getNodeAtPath (root s) (take i p)))
         ∧ position s' = <[i := 0%nat]> p).
Proof.
  intros HP. split; [|split].
  - intros Hs.
    destruct (promoteLoop_spec (length P) (withDirty true state) P HP (sideSteps_le P))
      as (s' & Hloop & Hr & Hn & Hpos & _).
    rewrite Hs in Hpos. exists s'. split; [|rewrite Hpos; done].
    intros fuel Hfuel. unfold promoteToMainline.
    by eapply promoteLoop_more_fuel.
  - intros Hs fuel. unfold promoteToMainline.
    destruct fuel; simpl; by rewrite Hs.
  - intros s p i v Hp Hi Hv.
    destruct (promoteVariation_step s p i v Hp Hi Hv) as (x & Hx & Hstep).
    eexists x, _. split; [exact Hstep|]. split; [done|]. split; [|done].
    cbn [root withPosition withRoot].
    rewrite getNodeAtPath_assignAtPath_at by (by apply resolves_take). done.
Qed.

End PromoteLoop.

(** ** Applying a move *)

Section MakeMove.
Context `{RulesEngine}.
Implicit Types (n node : TreeNode) (p q path : list nat).

Lemma cloneAlong_end o n p :
  getNodeAtPath (cloneAlong o n p) p
  = withOid (o + length (resolvedPath n p)) (getNodeAtPath n p).
Proof.
  revert o n. induction p as [|i p IH]; intros o n; simpl.
  - f_equal. lia.
  - destruct (children n !! i) as [c|] eqn:E; simpl.
    + rewrite list_lookup_insert_eq by (by eapply lookup_lt_Some).
      rewrite IH. f_equal. lia.
    + rewrite E. f_equal. lia.
Qed.

Lemma cloneAlong_fen o n p : fen (cloneAlong o n p) = fen n.
Proof. destruct p as [|i p]; simpl; [done|]. by destruct (children n !! i). Qed.

Lemma cloneAlong_san o n p : san (cloneAlong o n p) = san n.
Proof. destruct p as [|i p]; simpl; [done|]. by destruct (children n !! i). Qed.

Lemma repetitionFens_cloneAlong o n p acc :
  repetitionFens (cloneAlong o n p) p acc = repetitionFens n p acc.
Proof.
  revert o n acc. induction p as [|i p IH]; intros o n acc; simpl; [done|].
  destruct (children n !! i) as [c|] eqn:E; simpl.
  - rewrite list_lookup_insert_eq by (by eapply lookup_lt_Some).
    by rewrite cloneAlong_fen, IH.
  - by rewrite E.
Qed.

Lemma fiftyCount_cloneAlong o n p count :
  fiftyCount (cloneAlong o n p) p count = fiftyCount n p count.
Proof.
  revert o n count. induction p as [|i p IH]; intros o n count; simpl; [done|].
  destruct (children n !! i) as [c|] eqn:E; simpl.
  - rewrite list_lookup_insert_eq by (by eapply lookup_lt_Some).
    by rewrite cloneAlong_san, IH.
  - by rewrite E.
Qed.

(** The positions the repetition test compares with: the key of
    [INITIAL_FEN], then the keys of the nodes down to the cursor. *)
Lemma repetitionFens_spec n p acc :
  resolves n p →
  repetitionFens n p acc = Some (acc ++ map (λ m, fenKey (fen m)) (lineNodes n p)).
Proof.
  revert n acc. induction p as [|i p IH]; intros n acc; simpl.
  - intros _. by rewrite app_nil_r.
  - rewrite resolves_cons. intros (c & E & Hc). rewrite E.
    rewrite IH by done. simpl. by rewrite <- app_assoc.
Qed.

Lemma fiftyCount_spec n p count :
  resolves n p →
  fiftyCount n p count = Some (fold_left countStep (lineNodes n p) count).
Proof.
  revert n count. induction p as [|i p IH]; intros n count; simpl; [done|].
  rewrite resolves_cons. intros (c & E & Hc). rewrite E.
  rewrite IH by done. simpl. do 2 f_equal; unfold countStep;
    repeat case_match; done.
Qed.

Lemma countStep_quiet count l :
  Forall quiet l → fold_left countStep l count = (count + length l)%nat.
Proof.
  intros Hq. revert count. induction Hq as [|m l Hm _ IH]; intros count; simpl; [lia|].
  rewrite IH. unfold countStep, quiet in *. destruct (san m) as [s|]; [|lia].
  destruct (String.eqb s "") eqn:E; [lia|].
  destruct Hm as [Hm | Hm]; [subst s; done | rewrite Hm; lia].
Qed.

Lemma countStep_resetting count m :
  resetting m → countStep count m = 0%nat.
Proof.
  intros (s & Hs & Hne & Hr). unfold countStep. rewrite Hs, Hr.
  destruct (String.eqb s "") eqn:E; [|done]. by apply String.eqb_eq in E.
Qed.

Lemma countStep_le count l : (fold_left countStep l count ≤ count + length l)%nat.
Proof.
  revert count. induction l as [|m l IH]; intros count; simpl; [lia|].
  specialize (IH (countStep count m)). unfold countStep in *.
  destruct (san m) as [s|]; [|lia]. destruct (String.eqb s ""); [lia|].
  destruct (resetsCounter s); lia.
Qed.

End MakeMove.

Section MakeMoveCases.
Context `{RulesEngine}.
Implicit Types (n node : TreeNode) (p q path : list nat).

Lemma isThreeFoldRepetition_spec state f w :
  resolves (root state) (position state) →
  isThreeFoldRepetition state f w =
  Returned
    (2 <=? Js.countEq (fenKey f)
             (fenKey INITIAL_FEN
              :: map (λ m, fenKey (fen m)) (lineNodes (root state) (position state))))%nat
    w.
Proof.
  intros Hres. unfold isThreeFoldRepetition. by rewrite repetitionFens_spec.
Qed.

Lemma is50MoveRule_spec state w :
  resolves (root state) (position state) →
  is50MoveRule state w =
  Returned (100 <=? fold_left countStep (lineNodes (root state) (position state)) 0%nat)%nat w.
Proof.
  intros Hres. unfold is50MoveRule. by rewrite fiftyCount_spec.
Qed.

(** [makeMoveOnTree] at the cursor, for a move that is no child yet. *)
Lemma makeMoveOnTree_new args state w pos :
  let moveNode := getNodeAtPath (root state) (position state) in
  let san_ := makeSan pos (a_move args) in
  let pos' := play pos (a_move args) in
  let newFen := makeFen (toSetup pos') in
  let line := lineNodes (root state) (position state) in
  let draw :=
    (a_changeHeaders args
     && (2 <=? Js.countEq (fenKey newFen)
                 (fenKey INITIAL_FEN :: map (λ m, fenKey (fen m)) line))%nat)
    || (100 <=? fold_left countStep line 0%nat)%nat in
  let h1 := endOfGameHeaders (a_changeHeaders args) pos' (headers state) in
  let newNode :=
    mkTreeNode (next_oid w) newFen (Some (a_move args)) (Some san_) [] None None
      (halfMoves moveNode + 1) [] [] ""
      (match a_clock args with
       | Some c => if Qeq_bool c 0 then None else Some (c / 1000)%Q
       | None => None
       end) in
  a_last args = false →
  resolves (root state) (position state) →
  positionFromFen (fen moveNode) = Some pos →
  san_ ≠ "--" →
  Js.findIndex (sanIs san_) (children moveNode) = -1 →
  makeMoveOnTree args state w =
  Returned
    (mkTreeState
       (assignAtPath
          (λ m, withChildren (if a_mainline args then newNode :: children m
                              else children m ++ [newNode]) m)
          (root state) (position state))
       (if draw then withResult Draw h1 else h1)
       (if a_changePosition args
        then position state
             ++ [if a_mainline args then 0%nat else length (children moveNode)]
        else position state)
       true (report state))
    (mkWorld (S (next_oid w)) (sounds w ++ (if a_sound args then [cue san_] else []))).
Proof.
  intros moveNode san_ pos' newFen line draw h1 newNode Hlast Hres Hpos Hsan Hidx.
  unfold makeMoveOnTree. rewrite Hlast. fold moveNode. rewrite Hpos. fold san_.
  apply String.eqb_neq in Hsan. rewrite Hsan. fold pos' newFen.
  set (w1 := mkWorld (next_oid w) (sounds w ++ (if a_sound args then [cue san_] else []))).
  assert (Hsound : (if a_sound args
                    then playSound (Js.includes "x" san_) (Js.includes "+" san_)
                    else mret ()) w = Returned () w1).
  { unfold w1. destruct (a_sound args); simpl.
    - done.
    - unfold mret, M_ret. rewrite app_nil_r. by destruct w. }
  unfold mbind, M_bind. rewrite Hsound. unfold createNode, newOid, mbind, M_bind, mret, M_ret.
  subst h1 draw line. unfold endOfGameHeaders.
  destruct (a_changeHeaders args), (isEnd pos'), (isCheckmate pos'),
    (isStalemate pos' || isInsufficientMaterial pos');
    cbn [andb orb];
    rewrite ?isThreeFoldRepetition_spec by exact Hres;
    cbn [root position withHeaders];
    repeat match goal with
           | |- context [(2 <=? ?x)%nat] => destruct (2 <=? x)%nat
           end;
    rewrite ?is50MoveRule_spec by exact Hres;
    cbn [root position withHeaders orb];
    repeat match goal with
           | |- context [(100 <=? ?x)%nat] => destruct (100 <=? x)%nat
           end;
    rewrite ?Hidx; change (negb (-1 =? -1)) with false; cbv iota;
    cbn [next_oid sounds w1];
    fold moveNode newNode;
    destruct (a_changePosition args), (a_mainline args);
    destruct state as [r0 h0 p0 d0 rp0];
    unfold withPosition, withRoot, withDirty, withHeaders;
    cbn [root headers position dirty report length Nat.sub];
    rewrite ?Nat.sub_0_r; reflexivity.
Qed.

Lemma lineNodes_cloneAlong_keys o n p :
  map (λ m, fenKey (fen m)) (lineNodes (cloneAlong o n p) p)
  = map (λ m, fenKey (fen m)) (lineNodes n p).
Proof.
  revert o n. induction p as [|i p IH]; intros o n; simpl; [done|].
  destruct (children n !! i) as [c|] eqn:E; simpl.
  - rewrite list_lookup_insert_eq by (by eapply lookup_lt_Some).
    simpl. by rewrite cloneAlong_fen, IH.
  - by rewrite E.
Qed.

Lemma lineNodes_cloneAlong_count o n p count :
  fold_left countStep (lineNodes (cloneAlong o n p) p) count
  = fold_left countStep (lineNodes n p) count.
Proof.
  revert o n count. induction p as [|i p IH]; intros o n count; simpl; [done|].
  destruct (children n !! i) as [c|] eqn:E; simpl.
  - rewrite list_lookup_insert_eq by (by eapply lookup_lt_Some).
    simpl. rewrite IH. unfold countStep at 2 4. by rewrite cloneAlong_san.
  - by rewrite E.
Qed.

Lemma makeMove_slow a state w pos move_ :
  let cur := getNodeAtPath (root state) (position state) in
  let san_ := makeSan pos move_ in
  let pos' := play pos move_ in
  let newFen := makeFen (toSetup pos') in
  let ch := default true (changeHeaders a) in
  let line := lineNodes (root state) (position state) in
  let draw :=
    (ch && (2 <=? Js.countEq (fenKey newFen)
                    (fenKey INITIAL_FEN :: map (λ m, fenKey (fen m)) line))%nat)
    || (100 <=? fold_left countStep line 0%nat)%nat in
  let h1 := endOfGameHeaders ch pos' (headers state) in
  let o := next_oid w in
  let len := length (position state) in
  let ml := default false (mainline a) in
  let newNode :=
    mkTreeNode (o + S len) newFen (Some move_) (Some san_) [] None None
      (halfMoves cur + 1) [] [] ""
      (match clock_ms a with
       | Some c => if Qeq_bool c 0 then None else Some (c / 1000)%Q
       | None => None
       end) in
  resolves (root state) (position state) →
  positionFromFen (fen cur) = Some pos →
  moveOf (payload a) pos = Some move_ →
  san_ ≠ "--" →
  Js.findIndex (sanIs san_) (children cur) = -1 →
  makeMove a state w =
  Returned
    (mkTreeState
       (assignAtPath
          (λ m, withChildren (if ml then newNode :: children m
                              else children m ++ [newNode]) m)
          (cloneAlong o (root state) (position state)) (position state))
       (if draw then withResult Draw h1 else h1)
       (if default true (changePosition a)
        then position state ++ [if ml then 0%nat else length (children cur)]
        else position state)
       true (report state))
    (mkWorld (o + S (S len)) (sounds w ++ [cue san_])).
Proof.
  intros cur san_ pos' newFen ch line draw h1 o len ml newNode Hres Hpos Hmove Hsan Hidx.
  unfold makeMove. fold cur. rewrite Hpos. unfold moveOf in Hmove. rewrite Hmove.
  fold san_. pose proof Hsan as Hsan'. apply String.eqb_neq in Hsan'.
  rewrite Hsan', Hidx. change (negb (-1 =? -1)) with false. cbv iota.
  erewrite bind_returned by apply clonePath_spec. rewrite Hres. fold o len.
  set (cloned := cloneAlong o (root state) (position state)).
  assert (Hend : getNodeAtPath cloned (position state) = withOid (o + len) cur).
  { unfold cloned. rewrite cloneAlong_end, Hres. done. }
  assert (Hres' : resolves cloned (position state)).
  { unfold resolves, cloned. by rewrite resolvedPath_cloneAlong. }
  erewrite bind_returned.
  2:{ apply (makeMoveOnTree_new _ _ _ pos); cbn [a_last a_move root position].
      - done.
      - exact Hres'.
      - by rewrite Hend.
      - exact Hsan.
      - by rewrite Hend. }
  cbn [a_move a_changeHeaders a_mainline a_changePosition a_clock a_sound
       root position headers report dirty next_oid sounds].
  rewrite Hend. cbn [children halfMoves withOid].
  unfold cloned at 2 3. rewrite lineNodes_cloneAlong_keys, lineNodes_cloneAlong_count.
  unfold mret, M_ret. f_equal. f_equal. lia.
Qed.

End MakeMoveCases.

Section MakeMoveClaims.
Context `{RulesEngine}.
Implicit Types (n node : TreeNode) (p q path : list nat).

(** [makeMove] for a move that is a child already: the fast path. *)
Lemma makeMove_fast a state w pos move_ k :
  let cur := getNodeAtPath (root state) (position state) in
  let san_ := makeSan pos move_ in
  positionFromFen (fen cur) = Some pos →
  moveOf (payload a) pos = Some move_ →
  san_ ≠ "--" →
  Js.findIndex (sanIs san_) (children cur) = Z.of_nat k →
  makeMove a state w =
  Returned
    (match changePosition a with
     | Some false => state
     | _ => withPosition (position state ++ [k]) state
     end)
    (mkWorld (next_oid w) (sounds w ++ [cue san_])).
Proof.
  intros cur san_ Hpos Hmove Hsan Hidx.
  unfold makeMove. fold cur. rewrite Hpos. unfold moveOf in Hmove. rewrite Hmove.
  fold san_. apply String.eqb_neq in Hsan. rewrite Hsan, Hidx.
  destruct (Z.of_nat k =? -1) eqn:E; [lia|]. simpl negb. cbv iota.
  rewrite Nat2Z.id. unfold mbind, M_bind, playSound, mret, M_ret.
  by destruct (changePosition a) as [[]|].
Qed.

(** C8.  When the notation handed to [makeMove] parses to no move in the
    position of the node at the cursor, or the move it stands for has the
    notation ["--"], the action returns the state it was given, root,
    cursor, headers and dirty flag, allocates nothing, plays no sound
    and throws no exception. *)
Theorem makeMove_rejects_without_change
    (a : MakeMoveArgs) (state : TreeState) (w : World) (pos : Pos) :
  positionFromFen (fen (getNodeAtPath (root state) (position state))) = Some pos →
  (∃ notation, payload a = PSan notation ∧ parseSan pos notation = None)
  ∨ (∃ move_, moveOf (payload a) pos = Some move_ ∧ makeSan pos move_ = "--") →
  makeMove a state w = Returned state w.
Proof.
  intros Hpos Hrej. unfold makeMove. rewrite Hpos.
  destruct Hrej as [(notation & -> & ->)|(move_ & Hm & Hsan)]; [done|].
  unfold moveOf in Hm. rewrite Hm, Hsan. done.
Qed.

(** C1, as the code has it.  In a game that starts from the default
    position, for a move that [makeMove] applies with header updates
    enabled and that is no child of the node at the cursor yet: when the
    position the move leads to, cut before its first [" - "], has occurred
    twice or more among the root and the nodes from the root down to the
    cursor, the result header is set to the draw.  When it has occurred
    less than twice there, the game is not at its end and the fifty-move
    counter is under 100, the result header stays as it was: nodes off
    that line do not count. *)
Theorem repetition_on_line_forces_draw
    (a : MakeMoveArgs) (state : TreeState) (w : World) (pos : Pos) (move_ : Move) :
  let cur := getNodeAtPath (root state) (position state) in
  let pos' := play pos move_ in
  let occurrences :=
    Js.countEq (fenKey (makeFen (toSetup pos')))
      (map (λ m, fenKey (fen m))
         (root state :: lineNodes (root state) (position state))) in
  resolves (root state) (position state) →
  positionFromFen (fen cur) = Some pos →
  moveOf (payload a) pos = Some move_ →
  makeSan pos move_ ≠ "--" →
  Js.findIndex (sanIs (makeSan pos move_)) (children cur) = -1 →
  changeHeaders a ≠ Some false →
  fenKey (fen (root state)) = fenKey INITIAL_FEN →
  ∃ state' w',
    makeMove a state w = Returned state' w'
    ∧ ((2 ≤ occurrences)%nat → result (headers state') = Draw)
    ∧ ((occurrences < 2)%nat → isEnd pos' = false →
       (fold_left countStep (lineNodes (root state) (position state)) 0 < 100)%nat →
       result (headers state') = result (headers state)).
Proof.
  intros cur pos' occurrences Hres Hpos Hmove Hsan Hidx Hch Hroot.
  eexists _, _. split; [by eapply makeMove_slow|].
  assert (Hc : default true (changeHeaders a) = true)
    by (by destruct (changeHeaders a) as [[]|]).
  rewrite Hc. cbn [headers andb]. rewrite <- Hroot.
  change (Js.countEq _ _) with occurrences.
  split.
  - intros Hocc. apply Nat.leb_le in Hocc. rewrite Hocc. done.
  - intros Hocc Hend Hcount.
    apply Nat.leb_gt in Hocc, Hcount. rewrite Hocc, Hcount. simpl.
    unfold endOfGameHeaders. fold pos'. by rewrite Hend.
Qed.

(** C2, as the code has it.  For a move that [makeMove] applies and that
    is no child of the node at the cursor yet: when the last hundred nodes
    or more on the line from the root down to the cursor (the move being
    applied is not among them) show no pawn move, capture or promotion in
    their notation, the result header is set to the draw, with header
    updates enabled or not.  A node whose notation starts with a file
    letter from a to h, or has an x or an = in it, puts the counter back
    to zero: with fewer than a hundred nodes after it on the line, the
    test is negative. *)
Theorem fifty_move_rule_forces_draw
    (a : MakeMoveArgs) (state : TreeState) (w : World) (pos : Pos) (move_ : Move) :
  let cur := getNodeAtPath (root state) (position state) in
  let line := lineNodes (root state) (position state) in
  resolves (root state) (position state) →
  positionFromFen (fen cur) = Some pos →
  moveOf (payload a) pos = Some move_ →
  makeSan pos move_ ≠ "--" →
  Js.findIndex (sanIs (makeSan pos move_)) (children cur) = -1 →
  (∀ before tail,
     line = before ++ tail → Forall quiet tail → (100 ≤ length tail)%nat →
     is50MoveRule state w = Returned true w
     ∧ ∃ state' w',
         makeMove a state w = Returned state' w'
         ∧ result (headers state') = Draw)
  ∧ (∀ before m tail,
       line = before ++ m :: tail → resetting m → (length tail < 100)%nat →
       is50MoveRule state w = Returned false w).
Proof.
  intros cur line Hres Hpos Hmove Hsan Hidx. split.
  - intros before tail Hline Hq Hlen.
    assert (Hcount : (100 <=? fold_left countStep line 0%nat)%nat = true).
    { apply Nat.leb_le. rewrite Hline, fold_left_app, countStep_quiet by done. lia. }
    split; [by rewrite is50MoveRule_spec, <- Hcount|].
    eexists _, _. split; [by eapply makeMove_slow|].
    cbn [headers]. fold line. rewrite Hcount, orb_true_r. done.
  - intros before m tail Hline Hm Hlen.
    rewrite is50MoveRule_spec by done. fold line. f_equal.
    apply Nat.leb_gt. rewrite Hline, fold_left_app. simpl.
    rewrite countStep_resetting by done.
    pose proof (countStep_le 0 tail). lia.
Qed.

End MakeMoveClaims.

(** ** Replaying a line *)

Section ReplayLemmas.
Context `{RulesEngine}.
Implicit Types (n node : TreeNode) (p q path : list nat) (f : TreeNode → TreeNode).

Lemma findIndex_sanIs_map s (l l' : list TreeNode) :
  map san l = map san l' → Js.findIndex (sanIs s) l = Js.findIndex (sanIs s) l'.
Proof.
  revert l'. induction l as [|x l IH]; intros [|y l'] Hm; try done.
  simpl in *. injection Hm as Hx Hl.
  assert (Hxy : sanIs s x = sanIs s y) by (unfold sanIs; by rewrite Hx).
  by rewrite Hxy, (IH l').
Qed.

Lemma findIndex_snoc {A} (t : A → bool) (l : list A) x :
  Js.findIndex t l = -1 → t x = true → Js.findIndex t (l ++ [x]) = Z.of_nat (length l).
Proof.
  intros Hn Hx. apply findIndex_none_inv in Hn.
  eapply findIndex_first.
  - by rewrite lookup_app_r, Nat.sub_diag.
  - done.
  - intros j y Hj Hy. rewrite lookup_app_l in Hy by done.
    eapply Forall_lookup_1 in Hn; [|done]. done.
Qed.

Lemma map_san_insert (l : list TreeNode) i c c' :
  l !! i = Some c → san c' = san c → map san (<[i := c']> l) = map san l.
Proof.
  intros Hc Hs. apply list_eq. intros k. rewrite !list_lookup_fmap.
  destruct (decide (i = k)) as [->|Hne].
  - rewrite list_lookup_insert_eq by (by eapply lookup_lt_Some).
    rewrite Hc. simpl. by rewrite Hs.
  - by rewrite list_lookup_insert_ne.
Qed.

Lemma glance_cloneAlong_top o n p : glance (cloneAlong o n p) = glance n.
Proof.
  unfold glance. destruct p as [|i p]; simpl; [done|].
  destruct (children n !! i) as [c|] eqn:E; simpl; [|done].
  f_equal. eapply map_san_insert; [done|]. apply cloneAlong_san.
Qed.

(** Cloning changes nothing of what a node shows. *)
Lemma glance_cloneAlong o n p q :
  glance (getNodeAtPath (cloneAlong o n p) q) = glance (getNodeAtPath n q).
Proof.
  revert o n p. induction q as [|j q IH]; intros o n p.
  - apply glance_cloneAlong_top.
  - destruct p as [|i p];
      [simpl; by destruct (children n !! j)|]. cbn [cloneAlong].
    destruct (children n !! i) as [c|] eqn:E;
      [|simpl; by destruct (children n !! j)].
    cbn [getNodeAtPath children withOid withChildren].
    destruct (decide (i = j)) as [->|Hne].
    + rewrite list_lookup_insert_eq by (by eapply lookup_lt_Some).
      rewrite E. apply IH.
    + rewrite list_lookup_insert_ne by done.
      destruct (children n !! j); [done|].
      unfold glance. simpl. f_equal.
      eapply map_san_insert; [done|]. apply cloneAlong_san.
Qed.

(** An assignment that keeps the position and the notation of the node it
    writes to leaves what every node strictly above it shows. *)
Lemma glance_assignAtPath_above f n q j rest :
  (∀ m, san (f m) = san m) →
  resolves n (q ++ j :: rest) →
  glance (getNodeAtPath (assignAtPath f n (q ++ j :: rest)) q)
  = glance (getNodeAtPath n q).
Proof.
  intros Hf. revert n. induction q as [|i q IH]; intros n Hres.
  - simpl in *. apply resolves_cons in Hres as (c & E & Hc). rewrite E.
    unfold glance. simpl. f_equal.
    eapply map_san_insert; [done|].
    destruct rest as [|i' rest']; simpl; [apply Hf|].
    destruct (children c !! i'); [done|apply Hf].
  - simpl in Hres. apply resolves_cons in Hres as (c & E & Hc).
    simpl. rewrite E. simpl.
    rewrite list_lookup_insert_eq by (by eapply lookup_lt_Some).
    by apply IH.
Qed.

End ReplayLemmas.

Section ReplayRun.
Context `{RulesEngine}.
Implicit Types (n node : TreeNode) (p q path : list nat) (f : TreeNode → TreeNode).

(** One accepted move: the cursor goes down by one index, the index at
    which the node at the old cursor now finds the notation of the move;
    the nodes above show what they showed. *)
Lemma makeMove_step a state w pos move_ :
  let cur := getNodeAtPath (root state) (position state) in
  resolves (root state) (position state) →
  positionFromFen (fen cur) = Some pos →
  moveOf (payload a) pos = Some move_ →
  makeSan pos move_ ≠ "--" →
  changePosition a ≠ Some false →
  ∃ state' w' i,
    makeMove a state w = Returned state' w'
    ∧ position state' = position state ++ [i]
    ∧ resolves (root state') (position state')
    ∧ fen (getNodeAtPath (root state') (position state)) = fen cur
    ∧ Js.findIndex (sanIs (makeSan pos move_))
        (children (getNodeAtPath (root state') (position state))) = Z.of_nat i
    ∧ (∀ q j rest, position state = q ++ j :: rest →
         glance (getNodeAtPath (root state') q) = glance (getNodeAtPath (root state) q)).
Proof.
  intros cur Hres Hpos Hmove Hsan Hcp.
  destruct (decide (Js.findIndex (sanIs (makeSan pos move_)) (children cur) = -1))
    as [Hidx|Hidx].
  - (* a new child *)
    eexists _, _, _. split; [by eapply makeMove_slow|].
    assert (Hc : default true (changePosition a) = true)
      by (by destruct (changePosition a) as [[]|]).
    rewrite Hc. cbn [position root].
    set (o := next_oid w). set (cloned := cloneAlong o (root state) (position state)).
    set (newNode := mkTreeNode _ _ _ _ _ _ _ _ _ _ _ _).
    set (f := λ m : TreeNode, withChildren _ m).
    assert (Hres' : resolves cloned (position state))
      by (unfold resolves, cloned; by rewrite resolvedPath_cloneAlong).
    assert (Hend : getNodeAtPath (assignAtPath f cloned (position state)) (position state)
                   = f (withOid (o + length (position state)) cur)).
    { rewrite getNodeAtPath_assignAtPath_at by done.
      unfold cloned. by rewrite cloneAlong_end, Hres. }
    split; [reflexivity|]. split; [|split; [|split]].
    + apply resolves_app. split; [by apply resolves_assignAtPath|].
      rewrite Hend. apply resolves_cons. unfold f. cbn [children withChildren withOid].
      destruct (default false (mainline a)); simpl.
      * eexists. split; [reflexivity|done].
      * exists newNode. split; [|done].
        by rewrite lookup_app_r, Nat.sub_diag.
    + by rewrite Hend.
    + rewrite Hend. unfold f. cbn [children withChildren withOid].
      assert (Hnew : sanIs (makeSan pos move_) newNode = true)
        by (unfold sanIs, newNode; simpl; apply String.eqb_refl).
      destruct (default false (mainline a)).
      * simpl. by rewrite Hnew.
      * by apply findIndex_snoc.
    + intros q j rest Hq.
      rewrite Hq. rewrite glance_assignAtPath_above.
      * unfold cloned. by rewrite glance_cloneAlong.
      * intros m. unfold f. done.
      * by rewrite <- Hq.
  - (* a child already *)
    pose proof (findIndex_bounds (sanIs (makeSan pos move_)) (children cur)) as Hb.
    destruct (findIndex_found _ _ Hidx) as (x & Hx & _).
    set (k := Z.to_nat (Js.findIndex (sanIs (makeSan pos move_)) (children cur))) in *.
    assert (Hk : Js.findIndex (sanIs (makeSan pos move_)) (children cur) = Z.of_nat k)
      by (unfold k; lia).
    eexists _, _, k. split; [by eapply makeMove_fast|].
    assert (Hs : match changePosition a with
                 | Some false => state
                 | _ => withPosition (position state ++ [k]) state
                 end = withPosition (position state ++ [k]) state)
      by (by destruct (changePosition a) as [[]|]).
    rewrite Hs. cbn [position root withPosition].
    split; [done|]. split; [|done].
    apply resolves_app. split; [done|]. apply resolves_cons.
    exists x. split; [exact Hx|done].
Qed.

Lemma withPosition_same state : withPosition (position state) state = state.
Proof. by destruct state. Qed.

Lemma withPosition_twice p q state :
  withPosition p (withPosition q state) = withPosition p state.
Proof. done. Qed.

(** A run of accepted moves, and its replay from the cursor it started
    at on the tree it left. *)
Lemma applyAll_replay moves state w :
  resolves (root state) (position state) →
  Forall (λ a, changePosition a ≠ Some false) moves →
  legalRun moves state w →
  ∃ state1 w1 ext,
    applyAll moves state w = Returned state1 w1
    ∧ position state1 = position state ++ ext
    ∧ length ext = length moves
    ∧ resolves (root state1) (position state1)
    ∧ (∀ q j rest, position state = q ++ j :: rest →
         glance (getNodeAtPath (root state1) q) = glance (getNodeAtPath (root state) q))
    ∧ fen (getNodeAtPath (root state1) (position state))
      = fen (getNodeAtPath (root state) (position state))
    ∧ (∀ R w2 k,
         root R = root state1 → position R = position state →
         ∃ cues,
           applyAll (take k moves) R w2
           = Returned (withPosition (position state ++ take k ext) R)
               (mkWorld (next_oid w2) (sounds w2 ++ cues))
           ∧ length cues = Nat.min k (length moves)).
Proof.
  revert state w. induction moves as [|a moves IH]; intros state w Hres Hcp Hlegal.
  - exists state, w, []. simpl. rewrite app_nil_r.
    do 6 (split; [done|]).
    intros R w2 k HR HpR. exists []. rewrite !take_nil. simpl.
    rewrite !app_nil_r, <- HpR, withPosition_same, Nat.min_0_r.
    unfold mret, M_ret. by destruct w2.
  - simpl in Hlegal. destruct Hlegal as [(pos & move_ & Hpos & Hmove & Hsan) Hlegal].
    apply Forall_cons in Hcp as [Hcp1 Hcp].
    destruct (makeMove_step a state w pos move_ Hres Hpos Hmove Hsan Hcp1)
      as (s' & w' & i & Hstep & Hp' & Hres' & Hfen' & Hidx' & Hframe').
    rewrite Hstep in Hlegal.
    destruct (IH s' w' Hres' Hcp Hlegal)
      as (state1 & w1 & ext & Hrun & Hp1 & Hlen & Hres1 & Hframe1 & Hfen1 & Hreplay).
    exists state1, w1, (i :: ext). simpl applyAll.
    erewrite bind_returned by exact Hstep.
    split; [done|]. split; [by rewrite Hp1, Hp', <- app_assoc|].
    split; [simpl; lia|]. split; [done|].
    assert (Hglance : glance (getNodeAtPath (root state1) (position state))
                      = glance (getNodeAtPath (root s') (position state))).
    { apply (Hframe1 _ i []). done. }
    split; [|split].
    + intros q j rest Hq. rewrite <- (Hframe' q j rest Hq).
      apply (Hframe1 q j (rest ++ [i])). rewrite Hp', Hq, <- app_assoc. done.
    + transitivity (fen (getNodeAtPath (root s') (position state))); [|done].
      by injection Hglance.
    + intros R w2 k HR HpR. destruct k as [|k].
      * exists []. simpl. rewrite !app_nil_r, <- HpR, withPosition_same.
        unfold mret, M_ret. by destruct w2.
      * simpl take. simpl applyAll.
        assert (Hfast : makeMove a R w2
                        = Returned (withPosition (position R ++ [i]) R)
                            (mkWorld (next_oid w2) (sounds w2 ++ [cue (makeSan pos move_)]))).
        { assert (Hs : match changePosition a with
                       | Some false => R
                       | _ => withPosition (position R ++ [i]) R
                       end = withPosition (position R ++ [i]) R)
            by (by destruct (changePosition a) as [[]|]).
          rewrite <- Hs. injection Hglance as Hf Hsans.
          eapply makeMove_fast.
          - rewrite HR, HpR, Hf, Hfen'. exact Hpos.
          - exact Hmove.
          - exact Hsan.
          - rewrite HR, HpR. rewrite <- Hidx'. by apply findIndex_sanIs_map. }
        erewrite bind_returned by exact Hfast.
        destruct (Hreplay (withPosition (position R ++ [i]) R)
                    (mkWorld (next_oid w2) (sounds w2 ++ [cue (makeSan pos move_)])) k)
          as (cues & Hrep & Hcues).
        { done. }
        { cbn [position withPosition]. by rewrite HpR, Hp'. }
        exists (cue (makeSan pos move_) :: cues). rewrite Hrep.
        rewrite withPosition_twice, Hp', <- !app_assoc. cbn [next_oid sounds].
        split; [by rewrite <- app_assoc|]. simpl. lia.
Qed.

End ReplayRun.

(** ** Replaying a batch of moves *)

Section BatchLemmas.
Context `{RulesEngine}.
Implicit Types (n node : TreeNode) (p q path : list nat) (f : TreeNode → TreeNode).

Lemma find_findIndex {A} (t : A → bool) (l : list A) :
  match List.find t l with
  | Some x => l !! Z.to_nat (Js.findIndex t l) = Some x ∧ Js.findIndex t l ≠ -1
  | None => Js.findIndex t l = -1
  end.
Proof.
  induction l as [|z l IH]; simpl; [done|].
  destruct (t z) eqn:Hz; [done|].
  pose proof (findIndex_bounds t l).
  destruct (List.find t l) as [x|].
  - destruct IH as [Hx Hne]. destruct (Js.findIndex t l <? 0) eqn:E; [lia|].
    split; [|lia].
    replace (Z.to_nat (Js.findIndex t l + 1)) with (S (Z.to_nat (Js.findIndex t l))) by lia.
    done.
  - by rewrite IH.
Qed.

Lemma glance_findIndex s n n' :
  glance n' = glance n →
  Js.findIndex (sanIs s) (children n') = Js.findIndex (sanIs s) (children n).
Proof. intros Hg. injection Hg as _ Hs. by apply findIndex_sanIs_map. Qed.

Lemma glance_lookup n n' i c :
  glance n' = glance n → children n !! i = Some c →
  ∃ c', children n' !! i = Some c'.
Proof.
  intros Hg Hc. injection Hg as _ Hs.
  apply lookup_lt_Some in Hc.
  assert (Hlen : length (children n') = length (children n)).
  { rewrite <- (length_map san (children n')), Hs. apply length_map. }
  destruct (lookup_lt_is_Some_2 (children n') i) as [c' Hc']; [lia|]. eauto.
Qed.

(** The first loop of [makeMoves] on a legal sequence: it goes down the
    path [extf] and leaves the notations [rest], the first of which is no
    child of the node it stops at.  On a tree whose nodes above the end of
    [extf] show the same, the loop goes the same way. *)
Lemma fastPrefix_run payload : ∀ pos node q,
  legalMoves pos (fen node) (children node) payload →
  ∃ posf extf rest,
    fastPrefix pos node q payload
    = Some (posf, getNodeAtPath node extf, q ++ extf, rest)
    ∧ resolves node extf
    ∧ (length extf + length rest)%nat = length payload
    ∧ legalMoves posf (fen (getNodeAtPath node extf))
        (children (getNodeAtPath node extf)) rest
    ∧ (∀ notation rest' m, rest = notation :: rest' →
         parseSanOrUci posf notation = Some m →
         Js.findIndex (sanIs (makeSan posf m)) (children (getNodeAtPath node extf)) = -1)
    ∧ (∀ node' q2,
         (∀ k, (k < length extf)%nat →
               glance (getNodeAtPath node' (take k extf))
               = glance (getNodeAtPath node (take k extf))) →
         fastPrefix pos node' q2 payload
         = fastPrefix posf (getNodeAtPath node' extf) (q2 ++ extf) rest).
Proof.
  induction payload as [|notation payload IH]; intros pos node q Hlegal.
  - exists pos, [], []. simpl. rewrite app_nil_r.
    split; [done|]. split; [apply resolves_nil|]. split; [done|]. split; [done|].
    split; [done|]. intros node' q2 _. by rewrite app_nil_r.
  - pose proof Hlegal as Hlegal0.
    simpl in Hlegal. destruct Hlegal as (m & Hparse & Hsan & Hnext).
    pose proof (find_findIndex (sanIs (makeSan pos m)) (children node)) as Hfind.
    destruct (List.find (sanIs (makeSan pos m)) (children node)) as [child|].
    + destruct Hfind as [Hchild Hne].
      set (k := Z.to_nat (Js.findIndex (sanIs (makeSan pos m)) (children node))) in *.
      assert (Hneb : (Js.findIndex (sanIs (makeSan pos m)) (children node) =? -1) = false)
        by (by apply Z.eqb_neq).
      destruct (IH (play pos m) child (q ++ [k]) Hnext)
        as (posf & extf & rest & Hfast & Hres & Hlen & Hleg & Hhead & Hlift).
      assert (Hat : getNodeAtPath node (k :: extf) = getNodeAtPath child extf)
        by (simpl; by rewrite Hchild).
      exists posf, (k :: extf), rest. rewrite Hat.
      split.
      { cbn [fastPrefix]. rewrite Hparse. cbv zeta. rewrite Hneb. fold k.
        rewrite Hchild, Hfast. by rewrite <- app_assoc. }
      split; [apply resolves_cons; eauto|].
      split; [simpl; lia|]. split; [done|]. split; [done|].
      intros node' q2 Hagree.
      assert (Htop : glance node' = glance node) by (apply (Hagree 0%nat); simpl; lia).
      destruct (glance_lookup node node' k child Htop Hchild) as [child' Hchild'].
      cbn [fastPrefix]. rewrite Hparse. cbv zeta.
      rewrite (glance_findIndex _ _ _ Htop), Hneb. fold k. rewrite Hchild'.
      rewrite (Hlift child' (q2 ++ [k])).
      * simpl getNodeAtPath. rewrite Hchild'. by rewrite <- app_assoc.
      * intros j Hj. specialize (Hagree (S j)). simpl in Hagree.
        rewrite Hchild, Hchild' in Hagree. apply Hagree. lia.
    + destruct Hnext as (pos' & Hpos' & Hsame & Hnext).
      exists pos, [], (notation :: payload). rewrite app_nil_r.
      split.
      { cbn [fastPrefix]. rewrite Hparse. cbv zeta. by rewrite Hfind. }
      split; [apply resolves_nil|]. split; [done|]. split; [exact Hlegal0|].
      split.
      { intros notation' rest' m' [= <- <-] Hp. rewrite Hparse in Hp.
        injection Hp as <-. exact Hfind. }
      intros node' q2 _. by rewrite app_nil_r.
Qed.

(** [makeMoveOnTree] at the cursor for a move that is no child yet: the
    node it adds is a leaf with the position string printed after the
    move, and the cursor goes down to it. *)
Lemma makeMoveOnTree_step args state w pos :
  let cur := getNodeAtPath (root state) (position state) in
  let san_ := makeSan pos (a_move args) in
  a_last args = false →
  a_changePosition args = true →
  resolves (root state) (position state) →
  positionFromFen (fen cur) = Some pos →
  san_ ≠ "--" →
  Js.findIndex (sanIs san_) (children cur) = -1 →
  ∃ state' w' i,
    makeMoveOnTree args state w = Returned state' w'
    ∧ next_oid w' = S (next_oid w)
    ∧ position state' = position state ++ [i]
    ∧ resolves (root state') (position state')
    ∧ report state' = report state
    ∧ fen (getNodeAtPath (root state') (position state'))
      = makeFen (toSetup (play pos (a_move args)))
    ∧ children (getNodeAtPath (root state') (position state')) = []
    ∧ glance (getNodeAtPath (root state') (position state))
      = (fen cur, map san (children (getNodeAtPath (root state') (position state))))
    ∧ Js.findIndex (sanIs san_)
        (children (getNodeAtPath (root state') (position state))) = Z.of_nat i
    ∧ (∀ q j rest, position state = q ++ j :: rest →
         glance (getNodeAtPath (root state') q) = glance (getNodeAtPath (root state) q)).
Proof.
  intros cur san_ Hlast Hcp Hres Hpos Hsan Hidx.
  eexists _, _, _. split; [by eapply makeMoveOnTree_new|].
  rewrite Hcp. cbn [position root report next_oid].
  set (newNode := mkTreeNode _ _ _ _ _ _ _ _ _ _ _ _).
  set (f := λ m : TreeNode, withChildren _ m).
  fold cur.
  set (i := if a_mainline args then 0%nat else length (children cur)).
  assert (Hend : getNodeAtPath (assignAtPath f (root state) (position state)) (position state)
                 = f cur)
    by (by rewrite getNodeAtPath_assignAtPath_at).
  assert (Hchild : children (f cur) !! i = Some newNode).
  { unfold f, i. cbn [children withChildren].
    destruct (a_mainline args); [done|]. by rewrite lookup_app_r, Nat.sub_diag. }
  assert (Hres' : resolves (assignAtPath f (root state) (position state)) (position state))
    by (by apply resolves_assignAtPath).
  assert (Hnew : getNodeAtPath (assignAtPath f (root state) (position state))
                   (position state ++ [i]) = newNode).
  { rewrite getNodeAtPath_app by done. rewrite Hend. cbn [getNodeAtPath]. by rewrite Hchild. }
  split; [done|]. split; [reflexivity|]. split.
  { apply resolves_app. split; [done|]. rewrite Hend. apply resolves_cons.
    exists newNode. split; [done|apply resolves_nil]. }
  split; [done|]. rewrite Hnew, Hend.
  split; [done|]. split; [done|]. split; [done|]. split.
  - unfold f, i. cbn [children withChildren].
    assert (Hyes : sanIs san_ newNode = true)
      by (unfold sanIs, newNode; simpl; apply String.eqb_refl).
    destruct (a_mainline args).
    + simpl. by rewrite Hyes.
    + by apply findIndex_snoc.
  - intros q j rest Hq. rewrite Hq. rewrite glance_assignAtPath_above; [done| |].
    + intros m. unfold f. done.
    + by rewrite <- Hq.
Qed.

(** The second loop of [makeMoves] on a legal sequence whose first move
    is no child of the node at the cursor: it adds a line of new nodes and
    takes the cursor to its end without handing an identity to a node that
    was there; the nodes above the old cursor show what they showed, and
    the first loop, run on the tree it leaves, goes down the new line. *)
Lemma slowLoop_run a payload : ∀ pos state w,
  let cur := getNodeAtPath (root state) (position state) in
  resolves (root state) (position state) →
  legalMoves pos (fen cur) (children cur) payload →
  (∀ notation rest m, payload = notation :: rest →
     parseSanOrUci pos notation = Some m →
     Js.findIndex (sanIs (makeSan pos m)) (children cur) = -1) →
  ∃ state1 w1 ext,
    slowLoop a pos payload state w = Returned state1 w1
    ∧ position state1 = position state ++ ext
    ∧ length ext = length payload
    ∧ resolves (root state1) (position state1)
    ∧ fst (glance (getNodeAtPath (root state1) (position state))) = fen cur
    ∧ (∀ q j rest, position state = q ++ j :: rest →
         glance (getNodeAtPath (root state1) q) = glance (getNodeAtPath (root state) q))
    ∧ (∀ q2, ∃ pe,
         fastPrefix pos (getNodeAtPath (root state1) (position state)) q2 payload
         = Some (pe, getNodeAtPath (root state1) (position state1), q2 ++ ext, [])).
Proof.
  induction payload as [|notation payload IH]; intros pos state w cur Hres Hlegal Hhead.
  - exists state, w, []. cbn [slowLoop fastPrefix length]. rewrite !app_nil_r.
    split; [done|]. split; [done|]. split; [done|]. split; [exact Hres|].
    split; [done|]. split; [done|]. intros q2. exists pos. by rewrite app_nil_r.
  - simpl in Hlegal. destruct Hlegal as (m & Hparse & Hsan & Hnext).
    pose proof (Hhead notation payload m eq_refl Hparse) as Hidx.
    pose proof (find_findIndex (sanIs (makeSan pos m)) (children cur)) as Hfind.
    destruct (List.find (sanIs (makeSan pos m)) (children cur)) as [child|];
      [destruct Hfind as [_ Hne]; done|].
    destruct Hnext as (pos' & Hpos' & Hsame & Hnext).
    set (args := mkMoveOnTreeArgs m false true (default true (ms_changeHeaders a))
                   (default false (ms_mainline a)) None
                   (match payload with [] => true | _ :: _ => false end)).
    destruct (makeMoveOnTree_step args state w pos')
      as (s' & w' & i & Hstep & _ & Hp' & Hres' & _ & Hfen' & Hkids' & Hshow & Hi & Hframe');
      try done.
    { cbn [a_move args]. by rewrite Hsame. }
    { cbn [a_move args]. by rewrite Hsame. }
    cbn [a_move args] in Hfen', Hi. rewrite Hsame in Hi.
    destruct (IH (play pos m) s' w') as
      (state1 & w1 & ext & Hrun & Hp1 & Hlen & Hres1 & _ & Hframe1 & Hreplay).
    { exact Hres'. }
    { by rewrite Hfen', Hkids'. }
    { intros ? ? ? _ _. by rewrite Hkids'. }
    assert (Hglance : glance (getNodeAtPath (root state1) (position state))
                      = glance (getNodeAtPath (root s') (position state))).
    { apply (Hframe1 _ i []). done. }
    exists state1, w1, (i :: ext).
    split.
    { cbn [slowLoop]. rewrite Hparse. fold args.
      erewrite bind_returned by exact Hstep. exact Hrun. }
    split; [by rewrite Hp1, Hp', <- app_assoc|].
    split; [simpl; lia|]. split; [done|].
    split; [by rewrite Hglance, Hshow|].
    split.
    { intros q j rest Hq. rewrite <- (Hframe' q j rest Hq).
      apply (Hframe1 q j (rest ++ [i])). rewrite Hp', Hq, <- app_assoc. done. }
    intros q2.
    assert (Hchild : children (getNodeAtPath (root state1) (position state)) !! i
                     = Some (getNodeAtPath (root state1) (position s'))).
    { assert (Hr : resolves (root state1) (position state ++ i :: ext))
        by (by rewrite Hp1, Hp', <- app_assoc in Hres1).
      apply resolves_app in Hr as [Hr1 Hr2].
      apply resolves_cons in Hr2 as (c & Hc & _).
      rewrite Hp', getNodeAtPath_app by done. simpl. by rewrite Hc. }
    destruct (Hreplay (q2 ++ [i])) as (pe & Hrep).
    exists pe. cbn [fastPrefix]. rewrite Hparse. cbv zeta.
    rewrite (glance_findIndex _ _ _ Hglance), Hi.
    destruct (Z.of_nat i =? -1) eqn:E; [lia|].
    rewrite Nat2Z.id, Hchild, Hrep. by rewrite <- app_assoc.
Qed.

End BatchLemmas.

Section ReplayClaim.
Context `{RulesEngine}.
Implicit Types (n node : TreeNode) (p q path : list nat).

(** [makeMoves] when every move is a child already: only the cursor
    moves, and one sound cue is played unless there was no move. *)
Lemma makeMoves_all_existing a state w pos pe node ext :
  positionFromFen (fen (getNodeAtPath (root state) (position state))) = Some pos →
  fastPrefix pos (getNodeAtPath (root state) (position state)) (position state)
    (ms_payload a) = Some (pe, node, ext, []) →
  ∃ cues,
    makeMoves a state w
    = Returned (withPosition ext state) (mkWorld (next_oid w) (sounds w ++ cues))
    ∧ (length cues ≤ 1)%nat.
Proof.
  intros Hpos Hfast. unfold makeMoves. rewrite Hpos, Hfast.
  destruct (ms_payload a) as [|notation rest].
  - exists []. unfold mbind, M_bind, mret, M_ret. rewrite app_nil_r.
    split; [by destruct w|]. simpl. lia.
  - eexists [_]. unfold mbind, M_bind, playSound, mret, M_ret. split; [reflexivity|]. simpl. lia.
Qed.

(** A batch of legal moves applied from the root with [makeMoves], and
    the same batch applied again from the root of the tree it left. *)
Lemma makeMoves_replay a state w pos0 :
  position state = [] →
  positionFromFen (fen (root state)) = Some pos0 →
  legalMoves pos0 (fen (root state)) (children (root state)) (ms_payload a) →
  ∃ state1 w1,
    makeMoves a state w = Returned state1 w1
    ∧ length (position state1) = length (ms_payload a)
    ∧ resolves (root state1) (position state1)
    ∧ (∀ w2, ∃ cues,
         makeMoves a (withPosition [] state1) w2
         = Returned state1 (mkWorld (next_oid w2) (sounds w2 ++ cues))
         ∧ (length cues ≤ 1)%nat).
Proof.
  destruct state as [r h p d rp]. cbn [position root]. intros -> Hpos Hlegal.
  destruct (fastPrefix_run (ms_payload a) pos0 r [] Hlegal)
    as (posf & extf & rest & Hfast & Hres & Hlen & Hleg & Hhead & Hlift).
  rewrite app_nil_l in Hfast.
  destruct rest as [|notation rest].
  - (* every move is a child already *)
    destruct (makeMoves_all_existing a (mkTreeState r h [] d rp) w pos0 posf
                (getNodeAtPath r extf) extf Hpos Hfast) as (cues & Hrun & _).
    eexists _, _. split; [exact Hrun|]. cbn [position root withPosition].
    split; [simpl in Hlen; lia|]. split; [done|].
    intros w2.
    destruct (makeMoves_all_existing a (mkTreeState r h [] d rp) w2 pos0 posf
                (getNodeAtPath r extf) extf Hpos Hfast) as (cues2 & Hrun2 & Hc2).
    exists cues2. split; [exact Hrun2|done].
  - (* new nodes from [extf] on *)
    set (cloned := cloneAlong (next_oid w) r extf).
    set (w0 := mkWorld (next_oid w + S (length (resolvedPath r extf))) (sounds w)).
    assert (Hresc : resolves cloned extf)
      by (unfold resolves, cloned; by rewrite resolvedPath_cloneAlong).
    assert (Hend : getNodeAtPath cloned extf
                   = withOid (next_oid w + length (resolvedPath r extf))
                       (getNodeAtPath r extf))
      by apply cloneAlong_end.
    destruct (slowLoop_run a (notation :: rest) posf
                (mkTreeState cloned h extf true rp) w0)
      as (s1 & w1 & ext & Hrun & Hp1 & Hlen1 & Hres1 & Hfen1 & Hframe1 & Hreplay);
      cbn [root position]; rewrite ?Hend; cbn [fen children withOid]; try done.
    cbn [root position] in *.
    exists (mkTreeState (root s1) (headers s1) (position s1) (dirty s1) rp), w1.
    split.
    { unfold makeMoves. cbn [root position getNodeAtPath]. rewrite Hpos, Hfast.
      erewrite bind_returned by apply clonePath_spec.
      fold cloned w0. erewrite bind_returned by exact Hrun. done. }
    cbn [position root withPosition].
    split; [rewrite Hp1, length_app, Hlen1; exact Hlen|]. split; [done|].
    assert (Hagree : ∀ k, (k < length extf)%nat →
              glance (getNodeAtPath (root s1) (take k extf))
              = glance (getNodeAtPath r (take k extf))).
    { intros k Hk. destruct (lookup_lt_is_Some_2 extf k Hk) as [j Hj].
      rewrite (Hframe1 (take k extf) j (drop (S k) extf))
        by (by rewrite take_drop_middle).
      apply glance_cloneAlong. }
    assert (Hfen : fen (root s1) = fen r).
    { destruct extf as [|j extf'].
      - cbn [getNodeAtPath] in Hfen1, Hend.
        change (fen (root s1)) with (fst (glance (root s1))).
        rewrite Hfen1, Hend. done.
      - specialize (Hagree 0%nat). simpl in Hagree.
        assert (Hg : glance (root s1) = glance r) by (apply Hagree; lia).
        by injection Hg. }
    intros w2. destruct (Hreplay extf) as (pe & Hrep).
    destruct (makeMoves_all_existing a
                (mkTreeState (root s1) (headers s1) [] (dirty s1) rp) w2 pos0 pe
                (getNodeAtPath (root s1) (position s1)) (extf ++ ext))
      as (cues & Hrun2 & Hc2).
    + cbn [root position getNodeAtPath]. by rewrite Hfen.
    + cbn [root position getNodeAtPath].
      rewrite (Hlift (root s1) [] Hagree), app_nil_l. exact Hrep.
    + exists cues. split; [|done].
      unfold withPosition in *. cbn [root headers position dirty report] in *.
      by rewrite Hrun2, Hp1.
Qed.

(** C9.  A sequence of moves, each accepted when it is applied, is
    applied from the root, the cursor is put back to the root, and the
    sequence is applied again.  With [makeMove], move by move: after [k]
    moves of the replay the state is the state the first run left, with
    the cursor at the first [k] indices of the cursor it left: the same
    root, identity included, the same headers and dirty flag; no identity
    has been handed out, so nothing was cloned or created; [k] sound cues
    were played.  After the whole replay the state is the state the first
    run left, so the cursor addresses the very node it addressed then.
    With [makeMoves], as a batch of notations that are legal moves of the
    game: the replay returns the state the first run left, and hands out
    no identity. *)
Theorem replay_takes_fast_path
    (moves : list MakeMoveArgs) (batch : MakeMovesArgs)
    (state : TreeState) (w : World) :
  position state = [] →
  (Forall (λ a, changePosition a ≠ Some false) moves →
   legalRun moves state w →
   ∃ state1 w1,
     applyAll moves state w = Returned state1 w1
     ∧ length (position state1) = length moves
     ∧ resolves (root state1) (position state1)
     ∧ (∀ w2 k, ∃ cues,
          applyAll (take k moves) (withPosition [] state1) w2
          = Returned (withPosition (take k (position state1)) state1)
              (mkWorld (next_oid w2) (sounds w2 ++ cues))
          ∧ length cues = Nat.min k (length moves))
     ∧ (∀ w2, ∃ cues,
          applyAll moves (withPosition [] state1) w2
          = Returned state1 (mkWorld (next_oid w2) (sounds w2 ++ cues))
          ∧ length cues = length moves))
  ∧ (∀ pos0,
       positionFromFen (fen (root state)) = Some pos0 →
       legalMoves pos0 (fen (root state)) (children (root state)) (ms_payload batch) →
       ∃ state1 w1,
         makeMoves batch state w = Returned state1 w1
         ∧ length (position state1) = length (ms_payload batch)
         ∧ resolves (root state1) (position state1)
         ∧ (∀ w2, ∃ cues,
              makeMoves batch (withPosition [] state1) w2
              = Returned state1 (mkWorld (next_oid w2) (sounds w2 ++ cues))
              ∧ (length cues ≤ 1)%nat)).
Proof.
  intros Hroot. split.
  - intros Hcp Hlegal.
    destruct (applyAll_replay moves state w) as
      (state1 & w1 & ext & Hrun & Hp1 & Hlen & Hres1 & _ & _ & Hreplay); try done.
    { rewrite Hroot. apply resolves_nil. }
    rewrite Hroot in Hp1. simpl in Hp1.
    exists state1, w1. split; [done|]. split; [by rewrite Hp1|]. split; [done|].
    assert (Hk : ∀ w2 k, ∃ cues,
               applyAll (take k moves) (withPosition [] state1) w2
               = Returned (withPosition (take k (position state1)) state1)
                   (mkWorld (next_oid w2) (sounds w2 ++ cues))
               ∧ length cues = Nat.min k (length moves)).
    { intros w2 k.
      destruct (Hreplay (withPosition [] state1) w2 k) as (cues & Hrep & Hcues).
      - done.
      - by rewrite Hroot.
      - exists cues. rewrite Hrep, Hroot, Hp1. done. }
    split; [exact Hk|].
    intros w2. destruct (Hk w2 (length moves)) as (cues & Hrep & Hcues).
    exists cues. rewrite firstn_all in Hrep.
    rewrite <- Hlen, <- Hp1, firstn_all, withPosition_same in Hrep.
    rewrite Hrep. split; [done|]. lia.
  - intros pos0 Hpos Hlegal. by apply (makeMoves_replay batch state w pos0).
Qed.

End ReplayClaim.

(** ** The scenarios *)

Section EncodeScenario.
Context `{RulesEngine} `{Host}.

(** C4, as the code has it.  With an engine that plays 1. e4 e5 2. Nf3
    from the default position, white to move first: a new game, e4 as
    mainline, e5 as a variation, Nf3 as mainline leave the cursor at
    [0; 0; 0], and [copyVariationPgn] with that path hands out
    ["1. e4 e5 2. Nf3"]: it passes no headers, so no result token
    follows. *)
Theorem copyVariationPgn_of_scenario (w : World) :
  knowsLine INITIAL_FEN ["e4"; "e5"; "Nf3"] →
  (∀ pos, positionFromFen INITIAL_FEN = Some pos → turn pos = white) →
  ∃ state w',
    scenarioGame w = Returned state w'
    ∧ position state = [0; 0; 0]%nat
    ∧ copyVariationPgn [0; 0; 0]%nat state = Some "1. e4 e5 2. Nf3".
Proof.
  intros (pos0 & m1 & Hpos0 & Hm1 & Hs1 & pos1 & m2 & Hpos1 & Hm2 & Hs2
          & pos2 & m3 & Hpos2 & Hm3 & Hs3 & _) Hwhite.
  unfold scenarioGame.
  erewrite bind_returned.
  2:{ unfold defaultTree. cbn [default]. rewrite Hpos0, (Hwhite pos0 Hpos0).
      unfold newOid, mbind, M_bind, mret, M_ret. reflexivity. }
  cbn [fmap option_fmap option_map default].
  erewrite bind_returned.
  2:{ eapply (makeMove_slow _ _ _ pos0 m1); cbn.
      - apply resolves_nil.
      - exact Hpos0.
      - exact Hm1.
      - rewrite Hs1. discriminate.
      - reflexivity. }
  cbn. rewrite Hs1.
  match goal with |- context [makeMove _ (mkTreeState _ ?h _ _ _)] =>
    generalize h; intros hd1 end.
  erewrite bind_returned.
  2:{ eapply (makeMove_slow _ _ _ pos1 m2); cbn.
      - reflexivity.
      - exact Hpos1.
      - exact Hm2.
      - rewrite Hs2. discriminate.
      - reflexivity. }
  cbn. rewrite Hs2.
  match goal with |- context [makeMove _ (mkTreeState _ ?h _ _ _)] =>
    generalize h; intros hd2 end.
  eexists _, _. split.
  { eapply (makeMove_slow _ _ _ pos2 m3); cbn.
    - reflexivity.
    - exact Hpos2.
    - exact Hm3.
    - rewrite Hs3. discriminate.
    - reflexivity. }
  cbn. rewrite Hs3. split; [reflexivity|].
  vm_compute. reflexivity.
Qed.

End EncodeScenario.

Section DecodeScenario.
Context `{RulesEngine} `{Host}.

(** C7.  With an engine that reads the default position, white to move,
    and plays 1. e4 e5 2. Nf3 and 1. e4 c5 2. Nf3 from it: decoding the
    tokens of [1. e4 e5 (1... c5 2. Nf3) 2. Nf3 *] comes to an end at the
    outcome token and gives a root with the chain e4, e5, Nf3, each the
    first child of the one before, and with c5, followed by Nf3, as the
    one other child of e4; every node counts one ply more than its
    parent. *)
Theorem innerParsePGN_of_scenario (w : World) (setup : Setup) (pos0 : Pos) :
  parseFen INITIAL_FEN = Some setup →
  fromSetup setup = Some pos0 →
  turn pos0 = white →
  playsLine pos0 ["e4"; "e5"; "Nf3"] →
  playsLine pos0 ["e4"; "c5"; "Nf3"] →
  ∃ tree w',
    innerParsePGN scenarioTokens INITIAL_FEN 0 0 None None w
    = Returned (Finished (tree, 7%nat)) w'
    ∧ outline (root tree)
      = Ply None 0
          [Ply (Some "e4") 1
             [Ply (Some "e5") 2 [Ply (Some "Nf3") 3 []];
              Ply (Some "c5") 2 [Ply (Some "Nf3") 3 []]]].
Proof.
  intros Hfen Hsetup Hturn
    (m1 & Hm1 & Hs1 & m2 & Hm2 & Hs2 & m3 & Hm3 & Hs3 & _)
    (m1' & Hm1' & _ & m4 & Hm4 & Hs4 & m5 & Hm5 & Hs5 & _).
  assert (m1' = m1) as -> by congruence.
  unfold innerParsePGN, scenarioTokens.
  cbn [length innerParsePGNFrom default]. rewrite Hfen, Hsetup.
  unfold defaultTree, newOid, mbind, M_bind, mret, M_ret. rewrite Hturn.
  cbn. rewrite Hm1. cbn. rewrite Hs1, Hm2. cbn. rewrite Hs2, Hm4. cbn.
  rewrite Hs4, Hm5. cbn. rewrite Hs5, Hm3. cbn. rewrite Hs3.
  eexists _, _. split; [reflexivity|]. reflexivity.
Qed.

End DecodeScenario.

(** ** The properties at work on a game *)

Section Witnesses.
#[local] Existing Instance Sample.engine.
#[local] Existing Instance Sample.host.

(** One step of a legal run on the sample engine: the move is accepted,
    and [makeMove] is evaluated to the state the run goes on with. *)
Ltac accept_move pos mv :=
  split;
  [ exists pos, mv; split; [vm_compute; reflexivity|];
    split; [vm_compute; reflexivity|vm_compute; discriminate]
  | match goal with
    | |- match ?m with _ => _ end =>
        let r := eval vm_compute in m in
        replace m with r by (vm_compute; reflexivity); cbv beta iota
    end ].

Lemma gameTree_distinct : distinctObjects Sample.gameTree.
Proof.
  unfold distinctObjects. apply (bool_decide_eq_true_1 (NoDup _)).
  vm_compute. reflexivity.
Defined.

(** A comment on 1... c5 of the game: the node of 1... e5 is off the
    path of the edit and stays the same object. *)
Lemma field_edit_clones_path_only_witness :
  ∃ state' w',
    fieldEdit (EditComment "sharp") (Sample.gameState [0; 1]%nat) Sample.gameWorld
    = Returned state' w'
    ∧ getNodeAtPath (root state') [0; 0]%nat
      = getNodeAtPath Sample.gameTree [0; 0]%nat.
Proof.
  destruct (field_edit_clones_path_only (EditComment "sharp")
              (Sample.gameState [0; 1]%nat) Sample.gameWorld)
    as (state' & w' & Heq & _ & _ & Hframe).
  exists state', w'. split; [exact Heq|].
  apply Hframe. vm_compute. intros [k Hk]. discriminate Hk.
Defined.


(** C6 on the game with the cursor at 2. Nf3 of the variation: deleting
    1... c5 takes it out of the children of 1. e4 and puts the cursor on
    1. e4. *)
Lemma deleteMove_removes_subtree_and_moves_cursor_witness :
  children
    (getNodeAtPath
       (root (deleteMoveAction (Some [0; 1]%nat) (Sample.gameState [0; 1; 0]%nat)))
       [0%nat])
  = delete 1%nat (children (getNodeAtPath Sample.gameTree [0%nat]))
  ∧ position (deleteMoveAction (Some [0; 1]%nat) (Sample.gameState [0; 1; 0]%nat))
    = [0%nat].
Proof.
  destruct (deleteMove_removes_subtree_and_moves_cursor
              (Sample.gameState [0; 1; 0]%nat) [0%nat] 1%nat)
    as (Hchildren & _ & _ & Hcursor).
  - vm_compute. reflexivity.
  - exact gameTree_distinct.
  - split; [exact Hchildren|]. etransitivity; [exact Hcursor|].
    vm_compute. reflexivity.
Defined.


(** C5 on the game: promoting 2. Nf3 of the variation 1... c5. *)
Lemma promoteToMainline_reaches_mainline_witness :
  ∃ state',
    promoteToMainline 3 [0; 1; 0]%nat (Sample.gameState []) = Finished (Some state')
    ∧ position state' = [0; 0; 0]%nat
    ∧ getNodeAtPath (root state') [0; 0; 0]%nat
      = getNodeAtPath Sample.gameTree [0; 1; 0]%nat.
Proof.
  destruct (promoteToMainline_reaches_mainline (Sample.gameState []) [0; 1; 0]%nat)
    as (Hside & _ & _).
  - vm_compute. reflexivity.
  - destruct (Hside eq_refl) as (state' & Hrun & Hcursor & _ & Hnode).
    exists state'. split; [apply Hrun; simpl; lia|]. split; [exact Hcursor|].
    rewrite Hcursor in Hnode. exact Hnode.
Defined.

(** C5 as the claim has it fails on a path that is on the mainline
    already: promoting 1. e4 with the cursor at 1. Nf3, the second child
    of the root, leaves the cursor there, at [1]. *)
Lemma promoteToMainline_keeps_cursor_on_mainline_path :
  resolves Sample.gameTree [0%nat]
  ∧ promoteToMainline 1 [0%nat] (Sample.gameState [1%nat])
    = Finished (Some (withDirty true (Sample.gameState [1%nat])))
  ∧ position (withDirty true (Sample.gameState [1%nat])) = [1%nat].
Proof. vm_compute. repeat split. Qed.

(** C8 on the game: no queen can go to h5 in the default position. *)
Lemma makeMove_rejects_without_change_witness :
  makeMove (byNotation "Qh5" true) (Sample.gameState []) Sample.gameWorld
  = Returned (Sample.gameState []) Sample.gameWorld.
Proof.
  apply (@makeMove_rejects_without_change Sample.engine _ _ _ INITIAL_FEN).
  - vm_compute. reflexivity.
  - left. exists "Qh5". split; [reflexivity|]. vm_compute. reflexivity.
Defined.

(** C1 on the knight line: after seven plies, 4... Ng8 is new and leads
    to the position of the root and of the fourth ply. *)
Lemma repetition_on_line_forces_draw_witness :
  ∃ state' w',
    makeMove (byNotation "Ng8" false) (Sample.lineState 7 7) (Sample.lineWorld 7)
    = Returned state' w'
    ∧ result (headers state') = Draw.
Proof.
  destruct (@repetition_on_line_forces_draw Sample.engine (byNotation "Ng8" false)
              (Sample.lineState 7 7) (Sample.lineWorld 7)
              (Sample.shuffleFen 7) (Sample.shuffleMove 7))
    as (state' & w' & Heq & Hdraw & _).
  - vm_compute. reflexivity.
  - vm_compute. reflexivity.
  - vm_compute. reflexivity.
  - vm_compute. discriminate.
  - vm_compute. reflexivity.
  - discriminate.
  - vm_compute. reflexivity.
  - exists state', w'. split; [exact Heq|]. apply Hdraw. vm_compute. lia.
Defined.

(** C1 as the claim has it fails on the fast path: with eight plies of
    the knight line in the tree, a result still open and the cursor after
    the seventh, 4... Ng8 is accepted, leads to a position that the root
    and the fourth ply have, and [makeMove] moves the cursor and leaves
    the result open. *)
Lemma repetition_missed_on_existing_move :
  ∃ pos move_ state' w',
    resolves (root (Sample.lineState 8 7)) (position (Sample.lineState 8 7))
    ∧ positionFromFen
        (fen (getNodeAtPath (root (Sample.lineState 8 7))
                (position (Sample.lineState 8 7)))) = Some pos
    ∧ moveOf (PSan "Ng8") pos = Some move_
    ∧ makeSan pos move_ = "Ng8"
    ∧ (2 ≤ Js.countEq (fenKey (makeFen (toSetup (play pos move_))))
             (map (λ m, fenKey (fen m))
                (root (Sample.lineState 8 7)
                 :: lineNodes (root (Sample.lineState 8 7))
                      (position (Sample.lineState 8 7)))))%nat
    ∧ makeMove (byNotation "Ng8" false) (Sample.lineState 8 7) (Sample.lineWorld 8)
      = Returned state' w'
    ∧ root state' = root (Sample.lineState 8 7)
    ∧ position state' = repeat 0%nat 8
    ∧ result (headers state') = Unknown.
Proof.
  exists (Sample.shuffleFen 7), (Sample.shuffleMove 7).
  eexists _, _. vm_compute. repeat split. lia.
Qed.

(** C2 on the knight line: after a hundred plies of knight moves the
    next move, a new one, sets the draw. *)
Lemma fifty_move_rule_forces_draw_witness :
  ∃ state' w',
    makeMove (byNotation "Nf3" false) (Sample.lineState 100 100) (Sample.lineWorld 100)
    = Returned state' w'
    ∧ result (headers state') = Draw.
Proof.
  destruct (@fifty_move_rule_forces_draw Sample.engine (byNotation "Nf3" false)
              (Sample.lineState 100 100) (Sample.lineWorld 100)
              (Sample.shuffleFen 100) (Sample.shuffleMove 100))
    as (Hdraw & _).
  - vm_compute. reflexivity.
  - vm_compute. reflexivity.
  - vm_compute. reflexivity.
  - vm_compute. discriminate.
  - vm_compute. reflexivity.
  - destruct (Hdraw [] (lineNodes (root (Sample.lineState 100 100))
                          (position (Sample.lineState 100 100))))
      as (_ & state' & w' & Heq & Hres).
    + reflexivity.
    + apply (bool_decide_eq_true_1 (Forall quiet _)). vm_compute. reflexivity.
    + vm_compute. lia.
    + exists state', w'. split; [exact Heq|exact Hres].
Defined.

(** C2 as the claim has it fails on the fast path: with a hundred and one
    plies of knight moves in the tree, a result still open and the cursor
    after the hundredth, the next move is the child that is there, and
    [makeMove] moves the cursor and leaves the result open. *)
Lemma fifty_move_rule_missed_on_existing_move :
  ∃ state' w',
    resolves (root (Sample.lineState 101 100)) (position (Sample.lineState 101 100))
    ∧ Forall quiet
        (lineNodes (root (Sample.lineState 101 100))
           (position (Sample.lineState 101 100)))
    ∧ length (lineNodes (root (Sample.lineState 101 100))
                (position (Sample.lineState 101 100))) = 100%nat
    ∧ accepted (byNotation "Nf3" false) (Sample.lineState 101 100)
    ∧ makeMove (byNotation "Nf3" false) (Sample.lineState 101 100)
        (Sample.lineWorld 101)
      = Returned state' w'
    ∧ root state' = root (Sample.lineState 101 100)
    ∧ position state' = repeat 0%nat 101
    ∧ result (headers state') = Unknown.
Proof.
  eexists _, _. split; [vm_compute; reflexivity|].
  split; [apply (bool_decide_eq_true_1 (Forall quiet _)); vm_compute; reflexivity|].
  split; [vm_compute; reflexivity|].
  split.
  { exists (Sample.shuffleFen 100), (Sample.shuffleMove 100).
    vm_compute. repeat split. discriminate. }
  vm_compute. repeat split.
Qed.


Lemma sample_knows_mainline : knowsLine INITIAL_FEN ["e4"; "e5"; "Nf3"].
Proof.
  exists INITIAL_FEN, (NormalMove 12 28 None).
  do 3 (split; [vm_compute; reflexivity|]).
  exists Sample.fen_e4, (NormalMove 52 36 None).
  do 3 (split; [vm_compute; reflexivity|]).
  exists Sample.fen_e4_e5, (NormalMove 6 21 None).
  do 3 (split; [vm_compute; reflexivity|]). exact I.
Defined.

(** C4 on the sample engine. *)
Lemma copyVariationPgn_of_scenario_witness :
  ∃ state w',
    scenarioGame Sample.world0 = Returned state w'
    ∧ position state = [0; 0; 0]%nat
    ∧ copyVariationPgn [0; 0; 0]%nat state = Some "1. e4 e5 2. Nf3".
Proof.
  apply copyVariationPgn_of_scenario.
  - exact sample_knows_mainline.
  - intros pos Hpos. vm_compute in Hpos. injection Hpos as <-. reflexivity.
Defined.

(** C4 as the claim has it fails: the text the scenario gives ends with
    the last move, and no [" *"] follows it. *)
Lemma copyVariationPgn_has_no_result_token :
  ∃ state w',
    scenarioGame Sample.world0 = Returned state w'
    ∧ position state = [0; 0; 0]%nat
    ∧ copyVariationPgn [0; 0; 0]%nat state = Some "1. e4 e5 2. Nf3"
    ∧ copyVariationPgn [0; 0; 0]%nat state ≠ Some "1. e4 e5 2. Nf3 *".
Proof.
  eexists _, _. split; [vm_compute; reflexivity|].
  split; [reflexivity|]. split; [vm_compute; reflexivity|].
  vm_compute. discriminate.
Qed.

(** C7 on the sample engine. *)
Lemma innerParsePGN_of_scenario_witness :
  ∃ tree w',
    innerParsePGN scenarioTokens INITIAL_FEN 0 0 None None Sample.world0
    = Returned (Finished (tree, 7%nat)) w'
    ∧ outline (root tree)
      = Ply None 0
          [Ply (Some "e4") 1
             [Ply (Some "e5") 2 [Ply (Some "Nf3") 3 []];
              Ply (Some "c5") 2 [Ply (Some "Nf3") 3 []]]].
Proof.
  apply (@innerParsePGN_of_scenario Sample.engine Sample.host Sample.world0
           INITIAL_FEN INITIAL_FEN).
  - vm_compute. reflexivity.
  - vm_compute. reflexivity.
  - vm_compute. reflexivity.
  - exists (NormalMove 12 28 None). do 2 (split; [vm_compute; reflexivity|]).
    exists (NormalMove 52 36 None). do 2 (split; [vm_compute; reflexivity|]).
    exists (NormalMove 6 21 None). do 2 (split; [vm_compute; reflexivity|]).
    exact I.
  - exists (NormalMove 12 28 None). do 2 (split; [vm_compute; reflexivity|]).
    exists (NormalMove 50 34 None). do 2 (split; [vm_compute; reflexivity|]).
    exists (NormalMove 6 21 None). do 2 (split; [vm_compute; reflexivity|]).
    exact I.
Defined.

(** One notation of a legal batch on the sample engine: it parses to the
    move [mv], and the children of the node are searched for it. *)
Ltac legal_move mv :=
  cbn [legalMoves];
  exists mv; split; [vm_compute; reflexivity|];
  split; [vm_compute; discriminate|];
  match goal with
  | |- match ?found with _ => _ end =>
      let r := eval vm_compute in found in
      replace found with r by (vm_compute; reflexivity); cbv beta iota
  end.

(** A node that the batch adds: the position read back from [fen_]. *)
Ltac new_node fen_ :=
  exists fen_; split; [vm_compute; reflexivity|];
  split; [vm_compute; reflexivity|].

(** C9 on the sample engine: 1. Nf3 Nf6 2. Ng1 on the game, whose root has
    1. Nf3 as a child already, move by move and as a batch, and again from
    the root. *)
Lemma replay_takes_fast_path_witness :
  (∃ state1 w1 cues,
     applyAll [byNotation "Nf3" false; byNotation "Nf6" false; byNotation "Ng1" false]
       (Sample.gameState []) Sample.gameWorld
     = Returned state1 w1
     ∧ applyAll [byNotation "Nf3" false; byNotation "Nf6" false; byNotation "Ng1" false]
         (withPosition [] state1) w1
       = Returned state1 (mkWorld (next_oid w1) (sounds w1 ++ cues)))
  ∧ (∃ state1 w1 cues,
       makeMoves (mkMakeMovesArgs ["Nf3"; "Nf6"; "Ng1"] None None)
         (Sample.gameState []) Sample.gameWorld
       = Returned state1 w1
       ∧ length (position state1) = 3%nat
       ∧ makeMoves (mkMakeMovesArgs ["Nf3"; "Nf6"; "Ng1"] None None)
           (withPosition [] state1) w1
         = Returned state1 (mkWorld (next_oid w1) (sounds w1 ++ cues))).
Proof.
  destruct (@replay_takes_fast_path Sample.engine
              [byNotation "Nf3" false; byNotation "Nf6" false; byNotation "Ng1" false]
              (mkMakeMovesArgs ["Nf3"; "Nf6"; "Ng1"] None None)
              (Sample.gameState []) Sample.gameWorld eq_refl)
    as [Hmoves Hbatch].
  split.
  - destruct Hmoves as (state1 & w1 & Hrun & _ & _ & _ & Hreplay).
    + repeat constructor; discriminate.
    + cbn [legalRun].
      accept_move (Sample.shuffleFen 0) (Sample.shuffleMove 0).
      accept_move (Sample.shuffleFen 1) (Sample.shuffleMove 1).
      accept_move (Sample.shuffleFen 2) (Sample.shuffleMove 2).
      exact I.
    + destruct (Hreplay w1) as (cues & Hrep & _).
      exists state1, w1, cues. split; [exact Hrun|exact Hrep].
  - destruct (Hbatch (Sample.shuffleFen 0)) as (state1 & w1 & Hrun & Hlen & _ & Hreplay).
    + vm_compute. reflexivity.
    + cbn [ms_payload].
      legal_move (Sample.shuffleMove 0).
      legal_move (Sample.shuffleMove 1). new_node (Sample.shuffleFen 1).
      legal_move (Sample.shuffleMove 2). new_node (Sample.shuffleFen 2).
      exact I.
    + destruct (Hreplay w1) as (cues & Hrep & _).
      exists state1, w1, cues. split; [exact Hrun|]. split; [exact Hlen|exact Hrep].
Defined.

End Witnesses.

(** ** Tree traversal *)

Section Traversal.
Implicit Types (n node : TreeNode) (p q path : list nat).

(** Induction on a tree: a property that holds of a node whenever it
    holds of its children holds of every node. *)
Lemma TreeNode_ind' (P : TreeNode → Prop) :
  (∀ n, Forall P (children n) → P n) → ∀ n, P n.
Proof.
  intros IH. fix rec 1. intros [o f m s cs sc d h sh an c cl].
  apply IH. simpl. induction cs as [|x cs IHcs]; constructor; [apply rec|exact IHcs].
Qed.

Lemma preorder_eq p n : preorder p n = (p, n) :: preorderFrom p 0 (children n).
Proof.
  destruct n as [o f m s cs sc d h sh an c cl]. simpl. f_equal.
  generalize 0%nat. induction cs as [|x cs IH]; intros i; simpl; [done|].
  by rewrite IH.
Qed.

Lemma size_eq n : size n = S (list_sum (map size (children n))).
Proof. by destruct n. Qed.

Lemma leaves_eq n :
  leaves n = match children n with
             | [] => 1%nat
             | _ :: _ => list_sum (map leaves (children n))
             end.
Proof. by destruct n. Qed.

Lemma height_eq n :
  height n = match children n with
             | [] => 0%nat
             | _ :: _ => S (list_max (map height (children n)))
             end.
Proof. by destruct n. Qed.

Lemma setLength_spec k path p :
  setLength k path = Some p → p = take k path ∧ length p = k.
Proof.
  unfold setLength. destruct (k <=? length path)%nat eqn:E; [|done].
  intros [= <-]. apply Nat.leb_le in E. split; [done|]. rewrite length_take. lia.
Qed.

Lemma setLength_take k q :
  (k ≤ length q)%nat → setLength k q = Some (take k q).
Proof. intros Hk. unfold setLength. apply Nat.leb_le in Hk. by rewrite Hk. Qed.

Lemma setLength_all p : setLength (length p) p = Some p.
Proof. rewrite setLength_take by done. by rewrite firstn_all. Qed.

Lemma treeIteratorLoop_visit fuel path st cur depth acc p :
  setLength depth path = Some p →
  treeIteratorLoop (S fuel) path st (Some cur) depth acc
  = match children cur with
    | [] => treeIteratorLoop fuel p st None depth (acc ++ [(p, cur)])
    | child :: _ =>
        treeIteratorLoop fuel (p ++ [0%nat])
          (siblingFrames (children cur) depth ++ st) (Some child) (S depth)
          (acc ++ [(p, cur)])
    end.
Proof. intros Hp. simpl. by rewrite Hp. Qed.

Lemma treeIteratorLoop_pop fuel path frame st depth acc p :
  setLength (f_depth frame - 1) path = Some p →
  treeIteratorLoop (S fuel) path (frame :: st) None depth acc
  = treeIteratorLoop fuel (p ++ [f_childIndex frame]) st (Some (f_node frame))
      (f_depth frame) acc.
Proof. intros Hp. simpl. by rewrite Hp. Qed.

(** The siblings that wait on the stack, from the child of index [i] on:
    the loop pops and visits them one after the other. *)
Lemma treeIteratorLoop_siblings (cs : list TreeNode) :
  Forall (λ c, ∀ path st depth acc p,
            setLength depth path = Some p →
            ∃ k q d,
              (1 ≤ k ≤ 2 * size c - 1)%nat
              ∧ take depth q = p ∧ (depth ≤ length q)%nat
              ∧ ∀ fuel,
                  treeIteratorLoop (k + fuel) path st (Some c) depth acc
                  = treeIteratorLoop fuel q st None d (acc ++ preorder p c)) cs →
  ∀ i q st depth d acc p,
    take depth q = p → (depth ≤ length q)%nat →
    ∃ k q' d',
      (k ≤ 2 * list_sum (map size cs))%nat
      ∧ take depth q' = p ∧ (depth ≤ length q')%nat
      ∧ ∀ fuel,
          treeIteratorLoop (k + fuel) q
            (imap (λ j c, mkFrame c (i + j) (S depth)) cs ++ st) None d acc
          = treeIteratorLoop fuel q' st None d' (acc ++ preorderFrom p i cs).
Proof.
  induction 1 as [|c cs Hc _ IH]; intros i q st depth d acc p Hq Hlen.
  - exists 0%nat, q, d. simpl. rewrite app_nil_r. do 3 (split; [done|]). done.
  - assert (Hp : length p = depth) by (subst p; rewrite length_take; lia).
    destruct (Hc (p ++ [i]) (imap (λ j c, mkFrame c (S i + j) (S depth)) cs ++ st)
                (S depth) acc (p ++ [i]))
      as (k1 & q1 & d1 & Hk1 & Hq1 & Hlen1 & Hrun1).
    { rewrite <- Hp at 1. replace (S (length p)) with (length (p ++ [i]))
        by (rewrite length_app; simpl; lia).
      apply setLength_all. }
    assert (Hq1' : take depth q1 = p).
    { assert (E : take depth (take (S depth) q1) = take depth q1)
        by (rewrite take_take; f_equal; lia).
      rewrite <- E, Hq1, take_app_le by lia. rewrite <- Hp. apply firstn_all. }
    destruct (IH (S i) q1 st depth d1 (acc ++ preorder (p ++ [i]) c) p Hq1')
      as (k2 & q2 & d2 & Hk2 & Hq2 & Hlen2 & Hrun2); [lia|].
    exists (S (k1 + k2))%nat, q2, d2.
    split; [simpl; lia|]. split; [done|]. split; [done|].
    intros fuel. cbn [imap app].
    replace (S (k1 + k2) + fuel)%nat with (S (k1 + (k2 + fuel)))%nat by lia.
    erewrite treeIteratorLoop_pop.
    2:{ cbn [f_depth]. replace (S depth - 1)%nat with depth by lia.
        rewrite setLength_take by done. by rewrite Hq. }
    cbn [f_childIndex f_node f_depth]. rewrite Nat.add_0_r.
    assert (Hframes : imap ((λ j c0, mkFrame c0 (i + j) (S depth)) ∘ S) cs
                      = imap (λ j c0, mkFrame c0 (S i + j) (S depth)) cs).
    { apply imap_ext. intros j x _. simpl. f_equal. lia. }
    rewrite Hframes, Hrun1, Hrun2. simpl preorderFrom. by rewrite app_assoc.
Qed.

(** A visit of the node [n] at the depth [depth]: the loop yields [n] and
    all that is below it, and comes back with the stack it was given. *)
Lemma treeIteratorLoop_node n :
  ∀ path st depth acc p,
    setLength depth path = Some p →
    ∃ k q d,
      (1 ≤ k ≤ 2 * size n - 1)%nat
      ∧ take depth q = p ∧ (depth ≤ length q)%nat
      ∧ ∀ fuel,
          treeIteratorLoop (k + fuel) path st (Some n) depth acc
          = treeIteratorLoop fuel q st None d (acc ++ preorder p n).
Proof.
  induction n as [n IHn] using TreeNode_ind'. intros path st depth acc p Hset.
  destruct (setLength_spec _ _ _ Hset) as [Hp Hlen].
  rewrite preorder_eq, size_eq.
  destruct (children n) as [|c cs] eqn:Hcs.
  - exists 1%nat, p, depth. split; [simpl; lia|].
    split; [rewrite <- Hlen; apply firstn_all|]. split; [lia|].
    intros fuel. simpl Nat.add. erewrite treeIteratorLoop_visit by done.
    by rewrite Hcs.
  - apply Forall_cons in IHn as [IHc IHcs].
    destruct (IHc (p ++ [0%nat])
                (imap (λ j c, mkFrame c (1 + j) (S depth)) cs ++ st)
                (S depth) (acc ++ [(p, n)]) (p ++ [0%nat]))
      as (k1 & q1 & d1 & Hk1 & Hq1 & Hlen1 & Hrun1).
    { rewrite <- Hlen at 1. replace (S (length p)) with (length (p ++ [0%nat]))
        by (rewrite length_app; simpl; lia).
      apply setLength_all. }
    assert (Hq1' : take depth q1 = p).
    { assert (E : take depth (take (S depth) q1) = take depth q1)
        by (rewrite take_take; f_equal; lia).
      rewrite <- E, Hq1, take_app_le by lia. rewrite <- Hlen. apply firstn_all. }
    destruct (treeIteratorLoop_siblings cs IHcs 1%nat q1 st depth d1
                ((acc ++ [(p, n)]) ++ preorder (p ++ [0%nat]) c) p Hq1')
      as (k2 & q2 & d2 & Hk2 & Hq2 & Hlen2 & Hrun2); [lia|].
    exists (S (k1 + k2))%nat, q2, d2.
    split; [simpl; lia|]. split; [done|]. split; [done|].
    intros fuel.
    replace (S (k1 + k2) + fuel)%nat with (S (k1 + (k2 + fuel)))%nat by lia.
    erewrite treeIteratorLoop_visit by done. rewrite Hcs.
    unfold siblingFrames. cbn [tail].
    rewrite Hrun1, Hrun2. simpl preorderFrom.
    by rewrite <- !app_assoc.
Qed.

(** Every item of the traversal has the path that addresses its node. *)
Lemma preorder_resolves n :
  ∀ root p, resolves root p → getNodeAtPath root p = n →
    ∀ item, item ∈ preorder p n →
      resolves root (fst item) ∧ getNodeAtPath root (fst item) = snd item
      ∧ p `prefix_of` fst item.
Proof.
  induction n as [n IHn] using TreeNode_ind'. intros root p Hres Hn item.
  rewrite preorder_eq, elem_of_cons. intros [->|Hin]; [done|].
  assert (Hfrom : ∀ cs i, Forall
            (λ c, ∀ root p, resolves root p → getNodeAtPath root p = c →
                  ∀ item, item ∈ preorder p c →
                    resolves root (fst item) ∧ getNodeAtPath root (fst item) = snd item
                    ∧ p `prefix_of` fst item) cs →
            (∀ j c, cs !! j = Some c → children n !! (i + j)%nat = Some c) →
            item ∈ preorderFrom p i cs →
            resolves root (fst item) ∧ getNodeAtPath root (fst item) = snd item
            ∧ p `prefix_of` fst item).
  { clear Hin IHn. induction cs as [|c cs IH]; intros i Hall Hcs Hin; [by inversion Hin|].
    simpl in Hin. apply Forall_cons in Hall as [Hc Hall].
    apply elem_of_app in Hin as [Hin|Hin].
    - assert (Hci : children n !! i = Some c)
        by (rewrite <- (Nat.add_0_r i); by apply Hcs).
      destruct (Hc root (p ++ [i])) with (item := item) as (H1 & H2 & H3); try done.
      + apply resolves_app. split; [done|]. rewrite Hn. apply resolves_cons.
        exists c. split; [done|apply resolves_nil].
      + rewrite getNodeAtPath_app by done. rewrite Hn. simpl. by rewrite Hci.
      + split; [done|]. split; [done|]. etransitivity; [|exact H3].
        by apply prefix_app_r.
    - apply (IH (S i)); [done| |done].
      intros j c' Hj. replace (S i + j)%nat with (i + S j)%nat by lia. by apply Hcs. }
  apply (Hfrom (children n) 0%nat); [done| |done]. intros j c Hj. done.
Qed.

(** Every path that addresses a node is the path of an item of the
    traversal. *)
Lemma preorder_complete n :
  ∀ p q, resolves n q → (p ++ q, getNodeAtPath n q) ∈ preorder p n.
Proof.
  induction n as [n IHn] using TreeNode_ind'. intros p q Hq.
  rewrite preorder_eq. destruct q as [|i q].
  - simpl. rewrite app_nil_r. apply list_elem_of_here.
  - apply resolves_cons in Hq as (c & Hc & Hq). simpl. rewrite Hc.
    apply list_elem_of_further.
    assert (Hfrom : ∀ cs k,
              Forall (λ c, ∀ p q, resolves c q →
                        (p ++ q, getNodeAtPath c q) ∈ preorder p c) cs →
              ∀ j, cs !! j = Some c →
                ((p ++ [(k + j)%nat]) ++ q, getNodeAtPath c q)
                ∈ preorderFrom p k cs).
    { clear -Hq. induction cs as [|x cs IH]; intros k Hall j Hj;
        [by rewrite lookup_nil in Hj|].
      apply Forall_cons in Hall as [Hx Hall]. simpl. apply elem_of_app.
      destruct j as [|j].
      - injection Hj as ->. left. rewrite Nat.add_0_r. by apply Hx.
      - right. replace (k + S j)%nat with (S k + j)%nat by lia. by apply IH. }
    specialize (Hfrom (children n) 0%nat IHn i Hc). simpl in Hfrom.
    by rewrite <- app_assoc in Hfrom.
Qed.

Lemma preorderFrom_length p i cs :
  (∀ p c, c ∈ cs → length (preorder p c) = size c) →
  length (preorderFrom p i cs) = list_sum (map size cs).
Proof.
  revert i. induction cs as [|c cs IH]; intros i Hall; simpl; [done|].
  rewrite length_app, Hall by apply list_elem_of_here.
  rewrite IH; [done|]. intros p' c' Hc'. apply Hall. by apply list_elem_of_further.
Qed.

Lemma preorder_length n : ∀ p, length (preorder p n) = size n.
Proof.
  induction n as [n IHn] using TreeNode_ind'. intros p.
  rewrite preorder_eq, size_eq. simpl. f_equal. apply preorderFrom_length.
  intros p' c Hc. rewrite Forall_forall in IHn. by apply IHn.
Qed.

End Traversal.

Section TraversalOrder.
Implicit Types (n node : TreeNode) (p q path : list nat).

Lemma preorderFrom_elem p i cs item :
  item ∈ preorderFrom p i cs →
  ∃ j c, cs !! j = Some c ∧ item ∈ preorder (p ++ [(i + j)%nat]) c.
Proof.
  revert i. induction cs as [|c cs IH]; intros i Hin; [by inversion Hin|].
  simpl in Hin. apply elem_of_app in Hin as [Hin|Hin].
  - exists 0%nat, c. split; [done|]. by rewrite Nat.add_0_r.
  - destruct (IH (S i) Hin) as (j & c' & Hj & Hin').
    exists (S j), c'. split; [done|].
    by replace (i + S j)%nat with (S i + j)%nat by lia.
Qed.

Lemma preorder_prefix n : ∀ p item, item ∈ preorder p n → p `prefix_of` fst item.
Proof.
  induction n as [n IHn] using TreeNode_ind'. intros p item.
  rewrite preorder_eq, elem_of_cons. intros [->|Hin]; [done|].
  apply preorderFrom_elem in Hin as (j & c & Hj & Hin).
  rewrite Forall_forall in IHn.
  etransitivity; [|apply (IHn c (list_elem_of_lookup_2 _ _ _ Hj) _ _ Hin)].
  by apply prefix_app_r.
Qed.

Lemma preorderFrom_NoDup p cs :
  Forall (λ c, ∀ p, NoDup (fst <$> preorder p c)) cs →
  ∀ i, NoDup (fst <$> preorderFrom p i cs).
Proof.
  induction 1 as [|c cs Hc _ IH]; intros i; simpl; [constructor|].
  rewrite fmap_app. apply NoDup_app. split; [apply Hc|]. split; [|apply IH].
  intros x Hx1 Hx2.
  apply list_elem_of_fmap in Hx1 as (item1 & -> & Hin1).
  apply list_elem_of_fmap in Hx2 as (item2 & Heq & Hin2).
  apply preorder_prefix in Hin1 as [k1 Hk1].
  apply preorderFrom_elem in Hin2 as (j & c' & _ & Hin2).
  apply preorder_prefix in Hin2 as [k2 Hk2].
  rewrite Heq, Hk2, <- !app_assoc in Hk1.
  apply app_inv_head in Hk1. simpl in Hk1. injection Hk1 as Hij _. lia.
Qed.

(** No path occurs twice in the traversal. *)
Lemma preorder_NoDup n : ∀ p, NoDup (fst <$> preorder p n).
Proof.
  induction n as [n IHn] using TreeNode_ind'. intros p.
  rewrite preorder_eq. simpl. constructor; [|by apply preorderFrom_NoDup].
  intros Hin. apply list_elem_of_fmap in Hin as (item & Heq & Hin).
  apply preorderFrom_elem in Hin as (j & c & _ & Hin).
  apply preorder_prefix in Hin as [k Hk].
  rewrite <- Heq in Hk. apply (f_equal length) in Hk.
  rewrite !length_app in Hk. simpl in Hk. lia.
Qed.

Lemma treeIteratorLoop_extends fuel :
  ∀ path st cur depth acc items,
    treeIteratorLoop fuel path st cur depth acc = Finished (Some items) →
    ∃ more, items = acc ++ more.
Proof.
  induction fuel as [|fuel IH]; intros path st cur depth acc items.
  - destruct cur as [c|], st as [|fr st]; simpl; try done.
    intros [= <-]. exists []. by rewrite app_nil_r.
  - destruct cur as [c|].
    + destruct (setLength depth path) as [p|] eqn:Hp.
      * rewrite (treeIteratorLoop_visit _ _ _ _ _ _ _ Hp).
        destruct (children c); intros Hrun; apply IH in Hrun as [more ->];
          exists ((p, c) :: more); by rewrite <- app_assoc.
      * destruct st; simpl; rewrite Hp; done.
    + destruct st as [|fr st]; simpl.
      * intros [= <-]. exists []. by rewrite app_nil_r.
      * destruct (setLength (f_depth fr - 1) path); [apply IH|done].
Qed.

Lemma firstWithFen_app f l1 l2 :
  firstWithFen f (l1 ++ l2)
  = match firstWithFen f l1 with
    | Some p => Some p
    | None => firstWithFen f l2
    end.
Proof.
  unfold firstWithFen. induction l1 as [|x l1 IH]; simpl; [done|].
  destruct (String.eqb (fen (snd x)) f); [done|]. exact IH.
Qed.

(** [findFen] goes the way of [treeIterator] and stops at the first item
    with the position string. *)
Lemma findFenLoop_iterator f fuel :
  ∀ path st cur depth acc items,
    treeIteratorLoop fuel path st cur depth acc = Finished (Some items) →
    firstWithFen f acc = None →
    findFenLoop fuel f path st cur depth
    = Finished (Some (default [] (firstWithFen f items))).
Proof.
  induction fuel as [|fuel IH]; intros path st cur depth acc items.
  - destruct cur as [c|], st as [|fr st]; simpl; try done.
    intros [= <-] ->. done.
  - destruct cur as [c|].
    + destruct (setLength depth path) as [p|] eqn:Hp.
      2:{ destruct st; simpl; rewrite Hp; done. }
      rewrite (treeIteratorLoop_visit _ _ _ _ _ _ _ Hp).
      intros Hrun Hacc.
      assert (Hfind : findFenLoop (S fuel) f path st (Some c) depth
                = if String.eqb (fen c) f then Finished (Some p)
                  else match children c with
                       | [] => findFenLoop fuel f p st None depth
                       | child :: _ =>
                           findFenLoop fuel f (p ++ [0%nat])
                             (siblingFrames (children c) depth ++ st)
                             (Some child) (S depth)
                       end).
      { destruct st; simpl; by rewrite Hp. }
      rewrite Hfind. clear Hfind.
      destruct (String.eqb (fen c) f) eqn:Hc.
      * assert (∃ more, items = (acc ++ [(p, c)]) ++ more) as [more ->].
        { destruct (children c); by apply treeIteratorLoop_extends in Hrun. }
        rewrite !firstWithFen_app, Hacc. unfold firstWithFen. simpl. by rewrite Hc.
      * assert (Hacc' : firstWithFen f (acc ++ [(p, c)]) = None).
        { rewrite firstWithFen_app, Hacc. unfold firstWithFen. simpl. by rewrite Hc. }
        destruct (children c); by eapply IH.
    + destruct st as [|fr st]; simpl.
      * intros [= <-] ->. done.
      * destruct (setLength (f_depth fr - 1) path); [apply IH|done].
Qed.

(** The index that [buildFenIndex] fills keeps the first path of every
    position string. *)
Lemma indexStep_fold f items :
  ∀ index : gmap string (list nat),
    fold_left indexStep items index !! f
    = match index !! f with
      | Some p => Some p
      | None => firstWithFen f items
      end.
Proof.
  induction items as [|[p n] items IH]; intros index; simpl.
  - by destruct (index !! f).
  - rewrite IH. unfold indexStep, firstWithFen. simpl.
    destruct (index !! fen n) as [p'|] eqn:Hn.
    + destruct (index !! f) as [p''|] eqn:Hf; [done|].
      destruct (String.eqb (fen n) f) eqn:E; [|done].
      apply String.eqb_eq in E. congruence.
    + destruct (String.eqb (fen n) f) eqn:E.
      * apply String.eqb_eq in E. subst f. rewrite lookup_insert_eq, Hn. done.
      * apply String.eqb_neq in E. rewrite lookup_insert_ne by done.
        done.
Qed.

Lemma list_max_shift {A} k (g : A → nat) (l : list A) :
  l ≠ [] →
  list_max (map (λ x, k + g x)%nat l) = (k + list_max (map g l))%nat.
Proof.
  induction l as [|x l IH]; [done|]. intros _. simpl.
  destruct l as [|y l]; [simpl; lia|]. rewrite IH by done. lia.
Qed.

Lemma statsStep_from p cs :
  Forall (λ c, ∀ p t l d,
            fold_left statsStep (preorder p c) (t, l, d)
            = ((t + size c)%nat, (l + leaves c)%nat,
               Nat.max d (length p + height c))) cs →
  ∀ i t l d,
    fold_left statsStep (preorderFrom p i cs) (t, l, d)
    = ((t + list_sum (map size cs))%nat, (l + list_sum (map leaves cs))%nat,
       Nat.max d (list_max (map (λ c, S (length p) + height c)%nat cs))).
Proof.
  induction 1 as [|c cs Hc _ IH]; intros i t l d; simpl.
  - f_equal; [f_equal; lia|lia].
  - rewrite fold_left_app, Hc, IH. rewrite length_app. simpl.
    f_equal; [f_equal; lia|lia].
Qed.

(** The loop of [getTreeStats] over the traversal of a node. *)
Lemma statsStep_preorder n :
  ∀ p t l d,
    fold_left statsStep (preorder p n) (t, l, d)
    = ((t + size n)%nat, (l + leaves n)%nat, Nat.max d (length p + height n)).
Proof.
  induction n as [n IHn] using TreeNode_ind'. intros p t l d.
  rewrite preorder_eq, size_eq, leaves_eq, height_eq. simpl.
  rewrite (statsStep_from p (children n) IHn).
  destruct (children n) as [|c cs] eqn:Hcs.
  - simpl. destruct (d <? length p)%nat eqn:E;
      [apply Nat.ltb_lt in E|apply Nat.ltb_ge in E]; (f_equal; [f_equal; lia|lia]).
  - rewrite (list_max_shift (S (length p)) height) by done.
    destruct (d <? length p)%nat eqn:E;
      [apply Nat.ltb_lt in E|apply Nat.ltb_ge in E]; (f_equal; [f_equal; lia|lia]).
Qed.

(** With fuel for two steps a node, [treeIterator] comes to an end. *)
Lemma treeIterator_preorder (root : TreeNode) (fuel : nat) :
  (2 * size root ≤ fuel)%nat →
  treeIterator fuel root = Finished (Some (preorder [] root)).
Proof.
  intros Hfuel.
  destruct (treeIteratorLoop_node root [] [] 0%nat [] [] eq_refl)
    as (k & q & d & Hk & _ & _ & Hrun).
  unfold treeIterator. replace fuel with (k + (fuel - k))%nat by lia.
  rewrite Hrun. by destruct (fuel - k)%nat.
Qed.

Lemma preorder_sound (root : TreeNode) item :
  item ∈ preorder [] root →
  resolves root (fst item) ∧ getNodeAtPath root (fst item) = snd item.
Proof.
  intros Hin.
  destruct (preorder_resolves root root [] (resolves_nil root) eq_refl item Hin)
    as (? & ? & _). done.
Qed.

(** X1.  The generator [treeIterator] comes to an end, with fuel for two
    steps a node, and yields the nodes of the tree in order: a node, then
    its children from the first to the last, each with all that is below
    it.  Every node of the tree is yielded once, with the path that
    addresses it. *)
Theorem treeIterator_yields_every_node_once (root : TreeNode) (fuel : nat) :
  (2 * size root ≤ fuel)%nat →
  treeIterator fuel root = Finished (Some (preorder [] root))
  ∧ length (preorder [] root) = size root
  ∧ NoDup (fst <$> preorder [] root)
  ∧ (∀ item, item ∈ preorder [] root →
       resolves root (fst item) ∧ getNodeAtPath root (fst item) = snd item)
  ∧ (∀ p, resolves root p → (p, getNodeAtPath root p) ∈ preorder [] root).
Proof.
  intros Hfuel. split; [|split; [|split; [|split]]].
  - by apply treeIterator_preorder.
  - apply preorder_length.
  - apply preorder_NoDup.
  - apply preorder_sound.
  - intros p Hp. apply (preorder_complete root [] p Hp).
Qed.

(** X2.  [findFen] comes to an end and returns the path of the first node,
    in the order of [treeIterator], that has the position string; it
    returns the empty path when no node has it, as it does when the root
    has it. *)
Theorem findFen_returns_first_in_traversal
    (fen_ : string) (root : TreeNode) (fuel : nat) :
  (2 * size root ≤ fuel)%nat →
  ∃ p,
    findFen fuel fen_ root = Finished (Some p)
    ∧ p = default [] (firstWithFen fen_ (preorder [] root))
    ∧ ((∃ q, resolves root q ∧ fen (getNodeAtPath root q) = fen_) →
       resolves root p ∧ fen (getNodeAtPath root p) = fen_)
    ∧ ((∀ q, resolves root q → fen (getNodeAtPath root q) ≠ fen_) → p = []).
Proof.
  intros Hfuel.
  pose proof (treeIterator_preorder root fuel Hfuel) as Hrun.
  pose proof (preorder_sound root) as Hsound.
  pose proof (λ p Hp, preorder_complete root [] p Hp) as Hcomplete.
  eexists. split; [by apply (findFenLoop_iterator fen_ fuel _ _ _ _ _ _ Hrun)|].
  split; [done|]. unfold firstWithFen. split.
  - intros (q & Hq & Hfen).
    destruct (List.find _ (preorder [] root)) as [item|] eqn:Hfind.
    + apply find_some in Hfind as [Hin Heq]. apply list_elem_of_In in Hin.
      destruct (Hsound item Hin) as [Hres Hnode]. simpl.
      split; [done|]. rewrite Hnode. by apply String.eqb_eq.
    + pose proof (Hcomplete q Hq) as Hin. apply list_elem_of_In in Hin.
      eapply find_none in Hfind; [|exact Hin]. simpl in Hfind.
      apply String.eqb_neq in Hfind. done.
  - intros Hnone.
    destruct (List.find _ (preorder [] root)) as [item|] eqn:Hfind; [|done].
    apply find_some in Hfind as [Hin Heq]. apply list_elem_of_In in Hin.
    destruct (Hsound item Hin) as [Hres Hnode].
    apply String.eqb_eq in Heq. rewrite <- Hnode in Heq. by apply Hnone in Heq.
Qed.

(** X3.  [buildFenIndex] comes to an end; the index maps a position string
    to the path of the first node, in the order of [treeIterator], that
    has it, and holds no other key: a lookup in the index, with the empty
    path for a missing key, gives what [findFen] returns. *)
Theorem buildFenIndex_agrees_with_findFen (root : TreeNode) (fuel : nat) :
  (2 * size root ≤ fuel)%nat →
  ∃ index,
    buildFenIndex fuel root = Finished (Some index)
    ∧ (∀ fen_, index !! fen_ = firstWithFen fen_ (preorder [] root))
    ∧ (∀ fen_ p, index !! fen_ = Some p →
         resolves root p ∧ fen (getNodeAtPath root p) = fen_)
    ∧ (∀ fen_, findFen fuel fen_ root = Finished (Some (default [] (index !! fen_)))).
Proof.
  intros Hfuel.
  pose proof (treeIterator_preorder root fuel Hfuel) as Hrun.
  pose proof (preorder_sound root) as Hsound.
  exists (fold_left indexStep (preorder [] root) ∅).
  assert (Hlook : ∀ fen_,
            fold_left indexStep (preorder [] root) (∅ : gmap string (list nat)) !! fen_
            = firstWithFen fen_ (preorder [] root)).
  { intros fen_. rewrite indexStep_fold. by rewrite lookup_empty. }
  split; [unfold buildFenIndex; by rewrite Hrun|]. split; [exact Hlook|]. split.
  - intros fen_ p. rewrite Hlook. unfold firstWithFen.
    destruct (List.find _ (preorder [] root)) as [item|] eqn:Hfind; [|done].
    intros [= <-]. apply find_some in Hfind as [Hin Heq]. apply list_elem_of_In in Hin.
    destruct (Hsound item Hin) as [Hres Hnode].
    split; [done|]. rewrite Hnode. by apply String.eqb_eq.
  - intros fen_. rewrite Hlook.
    by apply (findFenLoop_iterator fen_ fuel _ _ _ _ _ _ Hrun).
Qed.

(** X4.  [getTreeStats] comes to an end: [total] is the number of nodes
    without the root, [leafs] the number of nodes without children, the
    root among them when it is alone, and [depth] the length of the
    longest path. *)
Theorem getTreeStats_counts_nodes_leaves_depth (root : TreeNode) (fuel : nat) :
  (2 * size root ≤ fuel)%nat →
  getTreeStats fuel root
  = Finished (Some (mkTreeStats (Z.of_nat (size root) - 1) (leaves root) (height root))).
Proof.
  intros Hfuel.
  pose proof (treeIterator_preorder root fuel Hfuel) as Hrun.
  unfold getTreeStats. rewrite Hrun, statsStep_preorder. simpl. done.
Qed.

End TraversalOrder.

(** ** Navigation *)

Section NavigationLemmas.
Implicit Types (n node : TreeNode) (p q path : list nat).

Lemma mainlineEnd_eq n :
  mainlineEnd n = match children n with
                  | [] => []
                  | c :: _ => 0%nat :: mainlineEnd c
                  end.
Proof. by destruct n. Qed.

Lemma countMainPly_eq n :
  countMainPly n = match children n with
                   | [] => 0%nat
                   | c :: _ => S (countMainPly c)
                   end.
Proof. by destruct n. Qed.

Lemma singleLine_eq n :
  singleLine n = match children n with
                 | [c] => 0%nat :: singleLine c
                 | _ => []
                 end.
Proof. by destruct n. Qed.

(** The end of the mainline below a node: the path of zeros that is as
    long as the mainline, and a node without children. *)
Lemma mainlineEnd_spec n :
  mainlineEnd n = repeat 0%nat (countMainPly n)
  ∧ resolves n (mainlineEnd n)
  ∧ children (getNodeAtPath n (mainlineEnd n)) = [].
Proof.
  induction n as [n IHn] using TreeNode_ind'.
  rewrite mainlineEnd_eq, countMainPly_eq.
  destruct (children n) as [|c cs] eqn:Hcs.
  - simpl. split; [done|]. split; [apply resolves_nil|done].
  - apply Forall_cons in IHn as [(Hrep & Hres & Hleaf) _].
    split; [simpl; by rewrite Hrep|]. split.
    + apply resolves_cons. exists c. by rewrite Hcs.
    + simpl. by rewrite Hcs.
Qed.

(** The line of only children below a node: a path of zeros to a node
    that has no child or more than one. *)
Lemma singleLine_spec n :
  ∃ k, singleLine n = repeat 0%nat k
       ∧ resolves n (repeat 0%nat k)
       ∧ length (children (getNodeAtPath n (repeat 0%nat k))) ≠ 1%nat
       ∧ ∀ j, (j < k)%nat →
           length (children (getNodeAtPath n (repeat 0%nat j))) = 1%nat.
Proof.
  induction n as [n IHn] using TreeNode_ind'.
  rewrite singleLine_eq.
  destruct (children n) as [|c [|c' cs]] eqn:Hcs.
  - exists 0%nat. simpl. rewrite Hcs.
    split; [done|]. split; [apply resolves_nil|]. split; [done|]. intros j Hj. lia.
  - apply Forall_cons in IHn as [(k & Hrep & Hres & Hend & Hmid) _].
    exists (S k). split; [simpl; by rewrite Hrep|]. split.
    { apply resolves_cons. exists c. by rewrite Hcs. }
    split; [simpl; by rewrite Hcs|].
    intros [|j] Hj; simpl; rewrite Hcs; [done|]. apply Hmid. lia.
  - exists 0%nat. simpl. rewrite Hcs.
    split; [done|]. split; [apply resolves_nil|]. split; [simpl; lia|].
    intros j Hj. lia.
Qed.

Lemma last_sliceInit (pos : list nat) x :
  last pos = Some x → pos = Js.sliceInit pos ++ [x].
Proof.
  destruct pos as [|y pos _] using rev_ind; [done|].
  rewrite last_snoc. intros [= ->]. by rewrite sliceInit_snoc.
Qed.

Lemma sliceInit_length (pos : list nat) :
  length (Js.sliceInit pos) = (length pos - 1)%nat.
Proof.
  destruct pos as [|y pos _] using rev_ind; [done|].
  rewrite sliceInit_snoc, length_app. simpl. lia.
Qed.

(** The loop of [goToBranchStart] cuts the zeros at the end. *)
Lemma dropZeros_spec (m : nat) : ∀ pos,
  (length pos ≤ m)%nat →
  ∃ r k, dropZeros m pos = Finished r
         ∧ pos = r ++ repeat 0%nat k
         ∧ (r = [] ∨ ∃ q v, r = q ++ [S v]).
Proof.
  induction m as [|m IH]; intros pos Hlen.
  - destruct pos; [|simpl in Hlen; lia]. exists [], 0%nat. simpl. auto.
  - destruct pos as [|x pos _] using rev_ind.
    { exists [], 0%nat. simpl. auto. }
    destruct x as [|v].
    + destruct (IH pos) as (r & k & Hrun & Hpos & Hr).
      { rewrite length_app in Hlen. simpl in Hlen. lia. }
      exists r, (S k). split.
      * simpl. rewrite last_snoc, sliceInit_snoc. exact Hrun.
      * split; [|done]. rewrite Hpos, <- app_assoc. f_equal.
        change [0%nat] with (repeat 0%nat 1). rewrite <- repeat_app.
        f_equal. lia.
    + exists (pos ++ [S v]), 0%nat. split.
      * simpl. by rewrite last_snoc.
      * simpl. rewrite app_nil_r. split; [done|]. right. eauto.
Qed.

(** The loop of [previousBranching] goes up to the nearest node above
    that is no only parent, or to the root. *)
Lemma previousBranchingLoop_spec root (m : nat) : ∀ newPos,
  newPos ≠ [] → (length newPos ≤ S m)%nat →
  ∃ r suffix,
    previousBranchingLoop m root newPos = Finished r
    ∧ newPos = r ++ suffix ∧ suffix ≠ []
    ∧ (r = [] ∨ length (children (getNodeAtPath root r)) ≠ 1%nat)
    ∧ ∀ j, (0 < j < length suffix)%nat →
        length (children (getNodeAtPath root (r ++ take j suffix))) = 1%nat.
Proof.
  induction m as [|m IH]; intros newPos Hne Hlen.
  - destruct newPos as [|x [|y l]]; [done| |simpl in Hlen; lia].
    exists [], [x]. simpl. rewrite andb_false_r.
    repeat split; [done|auto|]. intros j Hj. simpl in Hj. lia.
  - destruct newPos as [|x pos _] using rev_ind; [done|].
    assert (Hstep : previousBranchingLoop (S m) root (pos ++ [x])
              = if (length (children (getNodeAtPath root pos)) =? 1)%nat
                   && (0 <? length pos)%nat
                then previousBranchingLoop m root pos else Finished pos).
    { simpl. by rewrite sliceInit_snoc. }
    rewrite Hstep. clear Hstep.
    destruct (length (children (getNodeAtPath root pos)) =? 1)%nat eqn:Hbc.
    + destruct (0 <? length pos)%nat eqn:Hl; simpl.
      * apply Nat.ltb_lt in Hl. apply Nat.eqb_eq in Hbc.
        destruct (IH pos) as (r & suffix & Hrun & Hpos & Hsuf & Hr & Hmid).
        { destruct pos; [simpl in Hl; lia|done]. }
        { rewrite length_app in Hlen. simpl in Hlen. lia. }
        exists r, (suffix ++ [x]). split; [done|].
        split; [by rewrite Hpos, <- app_assoc|]. split; [by destruct suffix|].
        split; [done|]. intros j Hj. rewrite length_app in Hj. simpl in Hj.
        destruct (decide (j = length suffix)) as [->|Hne'].
        -- rewrite take_app_le, firstn_all by done. by rewrite <- Hpos.
        -- rewrite take_app_le by lia. apply Hmid. lia.
      * apply Nat.ltb_ge in Hl. destruct pos; [|simpl in Hl; lia].
        exists [], [x]. repeat split; [done|auto|]. intros j Hj. simpl in Hj. lia.
    + simpl. apply Nat.eqb_neq in Hbc.
      exists pos, [x]. repeat split; [done|auto|]. intros j Hj. simpl in Hj. lia.
Qed.

Lemma resolves_prefix n p q : resolves n (p ++ q) → resolves n p.
Proof. intros Hpq. by apply resolves_app in Hpq as [? _]. Qed.

Lemma nat_mod_succ_pred k len :
  (k < len)%nat → (((k + 1) mod len + len - 1) mod len = k)%nat.
Proof.
  intros Hk. destruct (decide (k + 1 = len)%nat) as [E|E].
  - rewrite E, Nat.Div0.mod_same. simpl. rewrite Nat.mod_small by lia. lia.
  - rewrite (Nat.mod_small (k + 1)) by lia.
    replace (k + 1 + len - 1)%nat with (k + 1 * len)%nat by lia.
    rewrite Nat.Div0.mod_add. apply Nat.mod_small. lia.
Qed.

Lemma nat_mod_pred_succ k len :
  (k < len)%nat → (((k + len - 1) mod len + 1) mod len = k)%nat.
Proof.
  intros Hk. destruct k as [|k].
  - simpl. rewrite (Nat.mod_small (len - 1)) by lia.
    replace (len - 1 + 1)%nat with len by lia. apply Nat.Div0.mod_same.
  - replace (S k + len - 1)%nat with (k + 1 * len)%nat by lia.
    rewrite Nat.Div0.mod_add, (Nat.mod_small k) by lia.
    rewrite Nat.mod_small by lia. lia.
Qed.

(** [nextBranch] and [previousBranch] on a cursor [q ++ [k]] that
    addresses a node. *)
Lemma siblingBranch_spec step state w q k node :
  position state = q ++ [k] →
  children (getNodeAtPath (root state) q) !! k = Some node →
  siblingBranch step state w
  = Returned
      (withPosition
         (if (2 <=? length (children node))%nat
             && (length (children (getNodeAtPath (root state) q)) <=? 1)%nat
          then q ++ [k; step k (length (children (getNodeAtPath (root state) q)))]
          else q ++ [step k (length (children (getNodeAtPath (root state) q)))])
         state) w.
Proof.
  intros Hpos Hnode. unfold siblingBranch.
  rewrite Hpos, last_snoc, sliceInit_snoc, Hnode.
  destruct ((2 <=? length (children node))%nat
            && (length (children (getNodeAtPath (root state) q)) <=? 1)%nat).
  - replace ((q ++ [k]) ++ [0%nat]) with ((q ++ [k]) ++ [0%nat]) by done.
    rewrite sliceInit_snoc, <- app_assoc. done.
  - by rewrite sliceInit_snoc.
Qed.

End NavigationLemmas.

Section NavigationProperties.
Implicit Types (n node : TreeNode) (p q path : list nat).

(** X5.  [goToEnd] takes the cursor to the end of the mainline, wherever it
    was: to the path of zeros that is as long as the mainline, which
    addresses a node without children.  Root, headers and dirty flag stay
    as they are. *)
Theorem goToEnd_reaches_mainline_leaf (state : TreeState) :
  root (goToEnd state) = root state
  ∧ headers (goToEnd state) = headers state
  ∧ dirty (goToEnd state) = dirty state
  ∧ position (goToEnd state) = repeat 0%nat (countMainPly (root state))
  ∧ resolves (root state) (position (goToEnd state))
  ∧ children (getNodeAtPath (root state) (position (goToEnd state))) = [].
Proof.
  destruct (mainlineEnd_spec (root state)) as (Hrep & Hres & Hleaf).
  unfold goToEnd. cbn [root headers dirty position withPosition]. done.
Qed.

(** X6.  From a cursor that addresses a node, [goToBranchEnd] goes down
    first children only, as many as the mainline below the cursor is
    long, and stops at a node without children. *)
Theorem goToBranchEnd_reaches_leaf_below_cursor (state : TreeState) :
  resolves (root state) (position state) →
  root (goToBranchEnd state) = root state
  ∧ position (goToBranchEnd state)
    = position state
      ++ repeat 0%nat (countMainPly (getNodeAtPath (root state) (position state)))
  ∧ resolves (root state) (position (goToBranchEnd state))
  ∧ children (getNodeAtPath (root state) (position (goToBranchEnd state))) = [].
Proof.
  intros Hres.
  destruct (mainlineEnd_spec (getNodeAtPath (root state) (position state)))
    as (Hrep & Hres' & Hleaf).
  unfold goToBranchEnd. cbn [root position withPosition].
  split; [done|]. split; [by rewrite Hrep|]. split.
  - by apply resolves_app.
  - by rewrite getNodeAtPath_app.
Qed.

(** X7.  [goToBranchStart] comes to an end and only shortens the cursor:
    it cuts the last index when that is not zero, and then every zero at
    the end.  What is left is empty or ends in an index that is not
    zero. *)
Theorem goToBranchStart_cuts_back_to_branch_point (state : TreeState) :
  ∃ state' k tl,
    goToBranchStart state = Finished state'
    ∧ root state' = root state
    ∧ headers state' = headers state
    ∧ dirty state' = dirty state
    ∧ position state = position state' ++ repeat 0%nat k ++ tl
    ∧ (tl = [] ∨ ∃ v, tl = [S v])
    ∧ (position state' = [] ∨ ∃ q v, position state' = q ++ [S v]).
Proof.
  unfold goToBranchStart.
  destruct (last (position state)) as [[|v]|] eqn:Hlast.
  - destruct (dropZeros_spec (length (position state)) (position state))
      as (r & k & Hrun & Hpos & Hr); [done|].
    rewrite Hrun. exists (withPosition r state), k, [].
    cbn [root headers dirty position withPosition]. rewrite app_nil_r. auto 10.
  - destruct (dropZeros_spec (length (Js.sliceInit (position state)))
                (Js.sliceInit (position state)))
      as (r & k & Hrun & Hpos & Hr); [done|].
    rewrite Hrun. exists (withPosition r state), k, [S v].
    cbn [root headers dirty position withPosition].
    do 4 (split; [done|]). split.
    + rewrite (last_sliceInit _ _ Hlast) at 1. by rewrite Hpos, <- app_assoc.
    + split; [right; eauto|done].
  - apply last_None in Hlast. rewrite Hlast. simpl.
    exists (withPosition [] state), 0%nat, [].
    cbn [root headers dirty position withPosition]. auto 10.
Qed.

(** X8.  On a cursor that addresses one of two or more siblings,
    [nextBranch] goes to the sibling after it, and from the last to the
    first; [previousBranch] goes to the sibling before it, and from the
    first to the last; each undoes the other, and neither plays a sound
    or touches the tree. *)
Theorem nextBranch_previousBranch_inverse
    (state : TreeState) (w : World) (q : list nat) (k : nat) :
  position state = q ++ [k] →
  resolves (root state) (q ++ [k]) →
  (2 ≤ length (children (getNodeAtPath (root state) q)))%nat →
  let len := length (children (getNodeAtPath (root state) q)) in
  let next := withPosition (q ++ [((k + 1) mod len)%nat]) state in
  let prev := withPosition (q ++ [((k + len - 1) mod len)%nat]) state in
  nextBranch state w = Returned next w
  ∧ previousBranch state w = Returned prev w
  ∧ previousBranch next w = Returned state w
  ∧ nextBranch prev w = Returned state w
  ∧ resolves (root state) (position next)
  ∧ resolves (root state) (position prev).
Proof.
  intros Hpos Hres Hlen len next prev.
  assert (Hq : resolves (root state) q) by (by eapply resolves_prefix).
  assert (Hk : (k < len)%nat).
  { apply resolves_app in Hres as [_ Hres].
    apply resolves_cons in Hres as (c & Hc & _). by apply lookup_lt_Some in Hc. }
  assert (Hfluid : ∀ node, ((2 <=? length (children node))%nat
                            && (len <=? 1)%nat) = false).
  { intros node. apply andb_false_iff. right. apply Nat.leb_gt. unfold len. lia. }
  assert (Hat : ∀ j, (j < len)%nat →
            ∃ c, children (getNodeAtPath (root state) q) !! j = Some c).
  { intros j Hj. by apply lookup_lt_is_Some_2. }
  assert (Hvalid : ∀ j, (j < len)%nat → resolves (root state) (q ++ [j])).
  { intros j Hj. destruct (Hat j Hj) as [c Hc]. apply resolves_app.
    split; [done|]. apply resolves_cons. exists c. split; [done|apply resolves_nil]. }
  assert (Hn : ((k + 1) mod len < len)%nat) by (apply Nat.mod_upper_bound; lia).
  assert (Hp : ((k + len - 1) mod len < len)%nat) by (apply Nat.mod_upper_bound; lia).
  destruct (Hat k Hk) as [ck Hck]. destruct (Hat _ Hn) as [cn Hcn].
  destruct (Hat _ Hp) as [cp Hcp].
  split; [|split; [|split; [|split; [|split]]]].
  - unfold nextBranch. erewrite siblingBranch_spec by done. fold len.
    by rewrite Hfluid.
  - unfold previousBranch. erewrite siblingBranch_spec by done. fold len.
    by rewrite Hfluid.
  - unfold previousBranch. erewrite (siblingBranch_spec _ next) by done.
    cbn [root next withPosition]. fold len. rewrite Hfluid.
    rewrite nat_mod_succ_pred by done. unfold withPosition. cbn [root headers dirty report].
    rewrite <- Hpos. by destruct state.
  - unfold nextBranch. erewrite (siblingBranch_spec _ prev) by done.
    cbn [root prev withPosition]. fold len. rewrite Hfluid.
    rewrite nat_mod_pred_succ by done. unfold withPosition. cbn [root headers dirty report].
    rewrite <- Hpos. by destruct state.
  - by apply Hvalid.
  - by apply Hvalid.
Qed.

(** X9.  [nextBranch] and [previousBranch] at the edges.  With the cursor
    at the root they return the state they were given.  On an only child
    with two children or more they go down to its first child; on an only
    child with fewer children they leave the cursor where it is.  When
    the last index of the cursor is no index of a child, reading
    [node.children] of [undefined] throws. *)
Theorem siblingBranch_edge_cases (state : TreeState) (w : World) :
  (position state = [] →
   nextBranch state w = Returned state w ∧ previousBranch state w = Returned state w)
  ∧ (∀ q node,
       position state = q ++ [0%nat] →
       children (getNodeAtPath (root state) q) = [node] →
       let state' :=
         if (2 <=? length (children node))%nat
         then withPosition (q ++ [0; 0]%nat) state else state in
       nextBranch state w = Returned state' w
       ∧ previousBranch state w = Returned state' w)
  ∧ (∀ q k,
       position state = q ++ [k] →
       (length (children (getNodeAtPath (root state) q)) ≤ k)%nat →
       nextBranch state w = Thrown TypeError
       ∧ previousBranch state w = Thrown TypeError).
Proof.
  split; [|split].
  - intros Hpos. unfold nextBranch, previousBranch, siblingBranch. by rewrite Hpos.
  - intros q node Hpos Hkids state'.
    assert (Hnode : children (getNodeAtPath (root state) q) !! 0%nat = Some node)
      by (by rewrite Hkids).
    unfold nextBranch, previousBranch.
    rewrite !(siblingBranch_spec _ state w q 0%nat node Hpos Hnode).
    rewrite Hkids. change (length [node] <=? 1)%nat with true. rewrite andb_true_r.
    unfold state'. destruct (2 <=? length (children node))%nat; simpl.
    + done.
    + unfold withPosition. rewrite <- Hpos. by destruct state.
  - intros q k Hpos Hk.
    unfold nextBranch, previousBranch, siblingBranch.
    rewrite Hpos, last_snoc, sliceInit_snoc.
    by rewrite (lookup_ge_None_2 _ _ Hk).
Qed.

(** X10.  From a cursor that addresses a node with children, [nextBranching]
    goes down first children to the first node below that has no child or
    more than one; every node it passes has one child.  On a node without
    children it returns the state it was given. *)
Theorem nextBranching_stops_at_next_branching (state : TreeState) :
  resolves (root state) (position state) →
  (children (getNodeAtPath (root state) (position state)) = [] →
   nextBranching state = state)
  ∧ (children (getNodeAtPath (root state) (position state)) ≠ [] →
     ∃ k,
       nextBranching state
       = withPosition (position state ++ repeat 0%nat (S k)) state
       ∧ resolves (root state) (position state ++ repeat 0%nat (S k))
       ∧ length (children (getNodeAtPath (root state)
                             (position state ++ repeat 0%nat (S k)))) ≠ 1%nat
       ∧ ∀ j, (0 < j < S k)%nat →
           length (children (getNodeAtPath (root state)
                               (position state ++ repeat 0%nat j))) = 1%nat).
Proof.
  intros Hres. unfold nextBranching.
  destruct (children (getNodeAtPath (root state) (position state)))
    as [|c cs] eqn:Hcs; (split; [done|]); [done|]. intros _.
  destruct (singleLine_spec c) as (k & Hrep & Hres' & Hend & Hmid).
  assert (Hbelow : ∀ j, getNodeAtPath (root state)
                          (position state ++ repeat 0%nat (S j))
                        = getNodeAtPath c (repeat 0%nat j)).
  { intros j. rewrite getNodeAtPath_app by done. simpl. by rewrite Hcs. }
  exists k. split; [by rewrite Hrep|]. split; [|split].
  - apply resolves_app. split; [done|]. simpl. apply resolves_cons.
    exists c. by rewrite Hcs.
  - by rewrite Hbelow.
  - intros [|j] Hj; [lia|]. rewrite Hbelow. apply Hmid. lia.
Qed.

(** X11.  [previousBranching] comes to an end.  With the cursor at the root
    it returns the state it was given; otherwise it shortens the cursor,
    by one index at least, to the nearest node above that has no child or
    more than one, or to the root; every node it passes has one child. *)
Theorem previousBranching_stops_at_previous_branching (state : TreeState) :
  (position state = [] → previousBranching state = Finished state)
  ∧ (position state ≠ [] →
     ∃ r suffix,
       previousBranching state = Finished (withPosition r state)
       ∧ position state = r ++ suffix
       ∧ suffix ≠ []
       ∧ (r = [] ∨ length (children (getNodeAtPath (root state) r)) ≠ 1%nat)
       ∧ ∀ j, (0 < j < length suffix)%nat →
           length (children (getNodeAtPath (root state) (r ++ take j suffix)))
           = 1%nat).
Proof.
  unfold previousBranching. split.
  - by intros ->.
  - intros Hne.
    destruct (previousBranchingLoop_spec (root state) (length (position state))
                (position state) Hne)
      as (r & suffix & Hrun & Hpos & Hsuf & Hr & Hmid); [lia|].
    exists r, suffix. rewrite Hrun.
    destruct (position state); [done|]. done.
Qed.

Lemma resolves_sliceInit n p : resolves n p → resolves n (Js.sliceInit p).
Proof.
  destruct p as [|x p _] using rev_ind; [done|].
  rewrite sliceInit_snoc. apply resolves_prefix.
Qed.

(** X12.  The nine actions that move the cursor from where it is keep a
    cursor that addresses a node: each comes to an end without an
    exception, leaves root, headers, dirty flag and report as they are,
    hands out no identity, and leaves a cursor that addresses a node. *)
Theorem navigation_keeps_cursor_valid (a : Navigation) (state : TreeState) (w : World) :
  resolves (root state) (position state) →
  ∃ state' w',
    navigate a state w = Returned (Finished state') w'
    ∧ root state' = root state
    ∧ headers state' = headers state
    ∧ dirty state' = dirty state
    ∧ report state' = report state
    ∧ next_oid w' = next_oid w
    ∧ resolves (root state') (position state').
Proof.
  intros Hres. destruct a; unfold navigate.
  - (* goToNext *)
    unfold goToNext.
    destruct (children (getNodeAtPath (root state) (position state)))
      as [|c cs] eqn:Hcs; [by eexists _, _|].
    destruct (san c) as [s|]; [|by eexists _, _].
    destruct (String.eqb s ""); [by eexists _, _|].
    eexists _, _. split; [reflexivity|]. do 5 (split; [done|]).
    cbn [root position withPosition]. apply resolves_app. split; [done|].
    apply resolves_cons. exists c. by rewrite Hcs.
  - (* goToPrevious *)
    eexists _, _. split; [reflexivity|]. do 5 (split; [done|]).
    by apply resolves_sliceInit.
  - (* goToEnd *)
    eexists _, _. split; [reflexivity|]. do 5 (split; [done|]).
    apply mainlineEnd_spec.
  - (* goToBranchStart *)
    unfold goToBranchStart.
    set (pos := match last (position state) with
                | Some (S _) => Js.sliceInit (position state)
                | _ => position state
                end).
    assert (Hpos : resolves (root state) pos).
    { unfold pos. destruct (last (position state)) as [[|v]|]; try done.
      by apply resolves_sliceInit. }
    destruct (dropZeros_spec (length pos) pos) as (r & k & Hrun & Hr & _); [done|].
    rewrite Hrun. eexists _, _. split; [reflexivity|]. do 5 (split; [done|]).
    cbn [root position withPosition]. rewrite Hr in Hpos. by eapply resolves_prefix.
  - (* goToBranchEnd *)
    eexists _, _. split; [reflexivity|]. do 5 (split; [done|]).
    cbn [root position goToBranchEnd withPosition]. apply resolves_app.
    split; [done|]. apply mainlineEnd_spec.
  - (* nextBranch *)
    destruct (position state) as [|x pos _] eqn:Hpos using rev_ind.
    { unfold nextBranch, siblingBranch. rewrite Hpos. simpl.
      eexists _, _. split; [reflexivity|]. do 5 (split; [done|]). by rewrite Hpos. }
    pose proof Hres as Hres0.
    apply resolves_app in Hres as [Hq Hx].
    apply resolves_cons in Hx as (c & Hc & _).
    unfold nextBranch. unfold mbind, M_bind.
    rewrite (siblingBranch_spec _ state w pos x c Hpos Hc).
    eexists _, _. split; [reflexivity|]. do 5 (split; [done|]).
    cbn [root position withPosition].
    pose proof (lookup_lt_Some _ _ _ Hc) as Hlt.
    destruct (2 <=? length (children c))%nat eqn:E2;
      destruct (length (children (getNodeAtPath (root state) pos)) <=? 1)%nat eqn:E1;
      cbn [andb].
    + apply Nat.leb_le in E1, E2.
      assert (Hlen1 : length (children (getNodeAtPath (root state) pos)) = 1%nat) by lia.
      rewrite Hlen1. assert (x = 0%nat) as -> by lia. simpl.
      replace (pos ++ [0; 0]%nat) with ((pos ++ [0%nat]) ++ [0%nat])
        by (by rewrite <- app_assoc).
      apply resolves_app. split; [done|].
      rewrite getNodeAtPath_app by done. simpl. rewrite Hc.
      destruct (children c) as [|c0 ?] eqn:Hcc; [simpl in E2; lia|].
      apply resolves_cons. exists c0. by rewrite Hcc.
    + apply resolves_app. split; [done|].
      destruct (lookup_lt_is_Some_2 (children (getNodeAtPath (root state) pos))
                  ((x + 1) mod length (children (getNodeAtPath (root state) pos))))
        as [c' Hc']; [apply Nat.mod_upper_bound; lia|].
      apply resolves_cons. exists c'. split; [done|apply resolves_nil].
    + apply resolves_app. split; [done|].
      destruct (lookup_lt_is_Some_2 (children (getNodeAtPath (root state) pos))
                  ((x + 1) mod length (children (getNodeAtPath (root state) pos))))
        as [c' Hc']; [apply Nat.mod_upper_bound; lia|].
      apply resolves_cons. exists c'. split; [done|apply resolves_nil].
    + apply resolves_app. split; [done|].
      destruct (lookup_lt_is_Some_2 (children (getNodeAtPath (root state) pos))
                  ((x + 1) mod length (children (getNodeAtPath (root state) pos))))
        as [c' Hc']; [apply Nat.mod_upper_bound; lia|].
      apply resolves_cons. exists c'. split; [done|apply resolves_nil].
  - (* previousBranch *)
    destruct (position state) as [|x pos _] eqn:Hpos using rev_ind.
    { unfold previousBranch, siblingBranch. rewrite Hpos. simpl.
      eexists _, _. split; [reflexivity|]. do 5 (split; [done|]). by rewrite Hpos. }
    pose proof Hres as Hres0.
    apply resolves_app in Hres as [Hq Hx].
    apply resolves_cons in Hx as (c & Hc & _).
    unfold previousBranch. unfold mbind, M_bind.
    rewrite (siblingBranch_spec _ state w pos x c Hpos Hc).
    eexists _, _. split; [reflexivity|]. do 5 (split; [done|]).
    cbn [root position withPosition].
    pose proof (lookup_lt_Some _ _ _ Hc) as Hlt.
    destruct (2 <=? length (children c))%nat eqn:E2;
      destruct (length (children (getNodeAtPath (root state) pos)) <=? 1)%nat eqn:E1;
      cbn [andb].
    + apply Nat.leb_le in E1, E2.
      assert (Hlen1 : length (children (getNodeAtPath (root state) pos)) = 1%nat) by lia.
      rewrite Hlen1. assert (x = 0%nat) as -> by lia. simpl.
      replace (pos ++ [0; 0]%nat) with ((pos ++ [0%nat]) ++ [0%nat])
        by (by rewrite <- app_assoc).
      apply resolves_app. split; [done|].
      rewrite getNodeAtPath_app by done. simpl. rewrite Hc.
      destruct (children c) as [|c0 ?] eqn:Hcc; [simpl in E2; lia|].
      apply resolves_cons. exists c0. by rewrite Hcc.
    + apply resolves_app. split; [done|].
      destruct (lookup_lt_is_Some_2 (children (getNodeAtPath (root state) pos))
                  ((x + length (children (getNodeAtPath (root state) pos)) - 1)
                   mod length (children (getNodeAtPath (root state) pos))))
        as [c' Hc']; [apply Nat.mod_upper_bound; lia|].
      apply resolves_cons. exists c'. split; [done|apply resolves_nil].
    + apply resolves_app. split; [done|].
      destruct (lookup_lt_is_Some_2 (children (getNodeAtPath (root state) pos))
                  ((x + length (children (getNodeAtPath (root state) pos)) - 1)
                   mod length (children (getNodeAtPath (root state) pos))))
        as [c' Hc']; [apply Nat.mod_upper_bound; lia|].
      apply resolves_cons. exists c'. split; [done|apply resolves_nil].
    + apply resolves_app. split; [done|].
      destruct (lookup_lt_is_Some_2 (children (getNodeAtPath (root state) pos))
                  ((x + length (children (getNodeAtPath (root state) pos)) - 1)
                   mod length (children (getNodeAtPath (root state) pos))))
        as [c' Hc']; [apply Nat.mod_upper_bound; lia|].
      apply resolves_cons. exists c'. split; [done|apply resolves_nil].
  - (* nextBranching *)
    eexists _, _. split; [reflexivity|]. unfold nextBranching.
    destruct (children (getNodeAtPath (root state) (position state)))
      as [|c cs] eqn:Hcs; [done|].
    do 5 (split; [done|]). cbn [root position withPosition].
    destruct (singleLine_spec c) as (k & Hrep & Hres' & _).
    apply resolves_app. split; [done|]. apply resolves_cons.
    exists c. rewrite Hcs, Hrep. done.
  - (* previousBranching *)
    unfold previousBranching.
    destruct (position state) as [|x pos] eqn:Hpos.
    { eexists _, _. split; [reflexivity|]. do 5 (split; [done|]). by rewrite Hpos. }
    destruct (previousBranchingLoop_spec (root state) (length (x :: pos)) (x :: pos))
      as (r & suffix & Hrun & Hr & _); [done|lia|].
    rewrite Hrun. eexists _, _. split; [reflexivity|]. do 5 (split; [done|]).
    cbn [root position withPosition]. rewrite Hr in Hres. by eapply resolves_prefix.
Qed.

End NavigationProperties.

(** ** Going to an annotation *)

Section GoToAnnotation.
Implicit Types (n node : TreeNode) (p q path : list nat).

Lemma goToAnnotationLoop_step fuel root a color p :
  goToAnnotationLoop (S fuel) root a
    (match color with white => 1 | black => 0 end) p
  = let p' := match children (getNodeAtPath root p) with
              | [] => []
              | _ :: _ => p ++ [0%nat]
              end in
    if annotated a color (getNodeAtPath root p') then Finished p'
    else goToAnnotationLoop fuel root a
           (match color with white => 1 | black => 0 end) p'.
Proof. reflexivity. Qed.

(** Down the first children from [p]: the loop stops at the first node
    that is annotated. *)
Lemma goToAnnotationLoop_down root a color : ∀ d p i,
  resolves root p → (1 ≤ i ≤ d)%nat →
  resolves root (p ++ repeat 0%nat i) →
  annotated a color (getNodeAtPath root (p ++ repeat 0%nat i)) = true →
  ∃ r, annotated a color (getNodeAtPath root r) = true
       ∧ ∀ fuel, (d ≤ fuel)%nat →
           goToAnnotationLoop fuel root a
             (match color with white => 1 | black => 0 end) p = Finished r.
Proof.
  induction d as [|d IH]; intros p i Hp Hi Hres Hann; [lia|].
  destruct i as [|i]; [lia|].
  assert (Hp0 : resolves root (p ++ [0%nat])).
  { simpl in Hres. replace (p ++ 0%nat :: repeat 0%nat i)
      with ((p ++ [0%nat]) ++ repeat 0%nat i) in Hres by (by rewrite <- app_assoc).
    by eapply resolves_prefix. }
  assert (Hkids : ∃ c cs, children (getNodeAtPath root p) = c :: cs).
  { apply resolves_app in Hp0 as [_ Hp0]. apply resolves_cons in Hp0 as (c & Hc & _).
    destruct (children (getNodeAtPath root p)) as [|c' cs]; [done|]. eauto. }
  destruct Hkids as (c & cs & Hkids).
  destruct (annotated a color (getNodeAtPath root (p ++ [0%nat]))) eqn:Hhere.
  - exists (p ++ [0%nat]). split; [done|]. intros [|fuel] Hfuel; [lia|].
    rewrite goToAnnotationLoop_step, Hkids. cbv zeta. by rewrite Hhere.
  - assert (Hi' : (1 ≤ i)%nat).
    { destruct i; [|lia]. cbn [repeat] in Hann. congruence. }
    destruct (IH (p ++ [0%nat]) i Hp0) as (r & Hr & Hrun); [lia| | |].
    + by rewrite <- app_assoc.
    + by rewrite <- app_assoc.
    + exists r. split; [done|]. intros [|fuel] Hfuel; [lia|].
      rewrite goToAnnotationLoop_step, Hkids. cbv zeta. rewrite Hhere.
      apply Hrun. lia.
Qed.

(** From a cursor that addresses a node: down to the end of its line,
    then from the root down the mainline. *)
Lemma goToAnnotationLoop_wraps root a color k :
  resolves root (repeat 0%nat k) →
  annotated a color (getNodeAtPath root (repeat 0%nat k)) = true →
  ∀ m p,
    resolves root p → (countMainPly (getNodeAtPath root p) ≤ m)%nat →
    ∃ r, annotated a color (getNodeAtPath root r) = true
         ∧ ∀ fuel, (m + 1 + k ≤ fuel)%nat →
             goToAnnotationLoop fuel root a
               (match color with white => 1 | black => 0 end) p = Finished r.
Proof.
  intros Hk Hann. induction m as [|m IH]; intros p Hp Hm;
    rewrite countMainPly_eq in Hm;
    destruct (children (getNodeAtPath root p)) as [|c cs] eqn:Hkids; try lia.
  - (* a node without children: on to the root *)
    destruct (annotated a color (getNodeAtPath root [])) eqn:Hroot.
    + exists []. split; [done|]. intros [|fuel] Hfuel; [lia|].
      rewrite goToAnnotationLoop_step, Hkids. cbv zeta. by rewrite Hroot.
    + assert (Hk1 : (1 ≤ k)%nat) by (destruct k; [cbn [repeat] in Hann; congruence|lia]).
      destruct (goToAnnotationLoop_down root a color k [] k (resolves_nil root))
        as (r & Hr & Hrun); [lia|done|done|].
      exists r. split; [done|]. intros [|fuel] Hfuel; [lia|].
      rewrite goToAnnotationLoop_step, Hkids. cbv zeta. rewrite Hroot.
      apply Hrun. lia.
  - destruct (annotated a color (getNodeAtPath root [])) eqn:Hroot.
    + exists []. split; [done|]. intros [|fuel] Hfuel; [lia|].
      rewrite goToAnnotationLoop_step, Hkids. cbv zeta. by rewrite Hroot.
    + assert (Hk1 : (1 ≤ k)%nat) by (destruct k; [cbn [repeat] in Hann; congruence|lia]).
      destruct (goToAnnotationLoop_down root a color k [] k (resolves_nil root))
        as (r & Hr & Hrun); [lia|done|done|].
      exists r. split; [done|]. intros [|fuel] Hfuel; [lia|].
      rewrite goToAnnotationLoop_step, Hkids. cbv zeta. rewrite Hroot.
      apply Hrun. lia.
  - assert (Hp0 : resolves root (p ++ [0%nat])).
    { apply resolves_app. split; [done|]. apply resolves_cons.
      exists c. by rewrite Hkids. }
    assert (Hc : getNodeAtPath root (p ++ [0%nat]) = c).
    { rewrite getNodeAtPath_app by done. simpl. by rewrite Hkids. }
    destruct (annotated a color (getNodeAtPath root (p ++ [0%nat]))) eqn:Hhere.
    + exists (p ++ [0%nat]). split; [done|]. intros [|fuel] Hfuel; [lia|].
      rewrite goToAnnotationLoop_step, Hkids. cbv zeta. by rewrite Hhere.
    + destruct (IH (p ++ [0%nat]) Hp0) as (r & Hr & Hrun); [rewrite Hc; lia|].
      exists r. split; [done|]. intros [|fuel] Hfuel; [lia|].
      rewrite goToAnnotationLoop_step, Hkids. cbv zeta. rewrite Hhere.
      apply Hrun. lia.
Qed.

(** X13.  [goToAnnotation] loops until it meets a move of the colour that
    carries the annotation: down the first children from the cursor, then
    from the root down the mainline, over and over.  When no node of the
    tree is such a move, it never returns.  When a node of the mainline
    is one, it returns, from every cursor that addresses a node.  When it
    returns, the cursor is at such a move and the tree is as it was. *)
Theorem goToAnnotation_returns_at_annotated_move
    (annotation : Annotation) (color : Color) (state : TreeState) :
  ((∀ p, annotated annotation color (getNodeAtPath (root state) p) = false) →
   ∀ fuel, goToAnnotation fuel annotation color state = OutOfFuel)
  ∧ (∀ k,
       resolves (root state) (position state) →
       resolves (root state) (repeat 0%nat k) →
       annotated annotation color (getNodeAtPath (root state) (repeat 0%nat k)) = true →
       ∃ state',
         ∀ fuel,
           (countMainPly (getNodeAtPath (root state) (position state)) + 1 + k
            ≤ fuel)%nat →
           goToAnnotation fuel annotation color state = Finished state')
  ∧ (∀ fuel state',
       goToAnnotation fuel annotation color state = Finished state' →
       root state' = root state
       ∧ headers state' = headers state
       ∧ dirty state' = dirty state
       ∧ annotated annotation color
           (getNodeAtPath (root state') (position state')) = true).
Proof.
  split; [|split].
  - intros Hnone fuel. unfold goToAnnotation.
    generalize (position state). induction fuel as [|fuel IH]; intros p; [done|].
    rewrite goToAnnotationLoop_step. cbv zeta. rewrite Hnone. apply IH.
  - intros k Hres Hk Hann.
    destruct (goToAnnotationLoop_wraps (root state) annotation color k Hk Hann
                (countMainPly (getNodeAtPath (root state) (position state)))
                (position state) Hres) as (r & _ & Hrun); [done|].
    exists (withPosition r state). intros fuel Hfuel.
    unfold goToAnnotation. by rewrite Hrun.
  - intros fuel state'. unfold goToAnnotation.
    generalize (position state). induction fuel as [|fuel IH]; intros p; [done|].
    rewrite goToAnnotationLoop_step. cbv zeta.
    match goal with |- context [annotated annotation color ?x] =>
      destruct (annotated annotation color x) eqn:Hhere end.
    + intros [= <-]. cbn [root headers dirty position withPosition]. done.
    + apply IH.
Qed.

End GoToAnnotation.

(** ** Appending to the mainline *)

Section AppendMove.
Context `{RulesEngine}.
Implicit Types (n node : TreeNode) (p q path : list nat).


Lemma lineNodes_cloneAlong_any o n p q :
  map (λ m, (fen m, san m)) (lineNodes (cloneAlong o n p) q)
  = map (λ m, (fen m, san m)) (lineNodes n q).
Proof.
  revert o n p. induction q as [|j q IH]; intros o n p; [done|].
  destruct p as [|i p]; cbn [cloneAlong]; [done|].
  destruct (children n !! i) as [c|] eqn:Hc; [|done].
  cbn [lineNodes children withOid withChildren].
  destruct (decide (i = j)) as [->|Hne].
  - rewrite list_lookup_insert_eq by (by eapply lookup_lt_Some). rewrite Hc.
    simpl. rewrite IH, cloneAlong_fen, cloneAlong_san. done.
  - rewrite list_lookup_insert_ne by done. done.
Qed.



End AppendMove.

(** ** Paths in order *)

Section Priority.
Implicit Types (n node : TreeNode) (p q path : list nat).

Lemma hasMorePriority_nil q : hasMorePriority [] q = true.
Proof. done. Qed.

Lemma hasMorePriority_cons_nil x p : hasMorePriority (x :: p) [] = false.
Proof. done. Qed.

Lemma hasMorePriority_cons x p y q :
  hasMorePriority (x :: p) (y :: q)
  = if (x =? y)%nat then hasMorePriority p q else (x <? y)%nat.
Proof.
  unfold hasMorePriority. simpl. destruct (x =? y)%nat eqn:E; simpl; [|done].
  by destruct (isPrefix p q).
Qed.

Lemma hasMorePriority_refl p : hasMorePriority p p = true.
Proof.
  induction p as [|x p IH]; [done|].
  by rewrite hasMorePriority_cons, Nat.eqb_refl.
Qed.

Lemma hasMorePriority_antisym p q :
  hasMorePriority p q = true → hasMorePriority q p = true → p = q.
Proof.
  revert q. induction p as [|x p IH]; intros [|y q]; try done.
  rewrite !hasMorePriority_cons. rewrite (Nat.eqb_sym y x).
  destruct (x =? y)%nat eqn:E.
  - apply Nat.eqb_eq in E as ->. intros H1 H2. f_equal. by apply IH.
  - intros H1%Nat.ltb_lt H2%Nat.ltb_lt. lia.
Qed.

Lemma hasMorePriority_trans p q r :
  hasMorePriority p q = true → hasMorePriority q r = true →
  hasMorePriority p r = true.
Proof.
  revert q r. induction p as [|x p IH]; intros [|y q] [|z r]; try done.
  rewrite !hasMorePriority_cons.
  destruct (x =? y)%nat eqn:Exy; destruct (y =? z)%nat eqn:Eyz;
    destruct (x =? z)%nat eqn:Exz;
    repeat match goal with
           | H : (_ =? _)%nat = true |- _ => apply Nat.eqb_eq in H
           | H : (_ =? _)%nat = false |- _ => apply Nat.eqb_neq in H
           end;
    rewrite ?Nat.ltb_lt; try lia; try (subst; by eauto).
Qed.

Lemma hasMorePriority_total p q :
  hasMorePriority p q = true ∨ hasMorePriority q p = true.
Proof.
  revert q. induction p as [|x p IH]; intros [|y q]; auto.
  rewrite !hasMorePriority_cons, (Nat.eqb_sym y x).
  destruct (x =? y)%nat eqn:E; [apply IH|].
  apply Nat.eqb_neq in E. rewrite !Nat.ltb_lt. lia.
Qed.

Lemma hasMorePriority_app p a b :
  hasMorePriority (p ++ a) (p ++ b) = hasMorePriority a b.
Proof.
  induction p as [|x p IH]; [done|]. simpl.
  by rewrite hasMorePriority_cons, Nat.eqb_refl.
Qed.

Lemma hasMorePriority_prefix p q : p `prefix_of` q → hasMorePriority p q = true.
Proof. intros [k ->]. rewrite <- (app_nil_r p) at 1. apply hasMorePriority_app. Qed.

(** X15.  [hasMorePriority] orders the paths: every path has priority over
    itself, two paths that have priority over each other are the same
    path, priority carries over a path in between, and of two paths one
    has priority over the other.  A path has priority over the paths it
    begins; of two paths that part, the one with the smaller index where
    they part has priority. *)
Theorem hasMorePriority_orders_paths :
  (∀ p, hasMorePriority p p = true)
  ∧ (∀ p q, hasMorePriority p q = true → hasMorePriority q p = true → p = q)
  ∧ (∀ p q r, hasMorePriority p q = true → hasMorePriority q r = true →
       hasMorePriority p r = true)
  ∧ (∀ p q, hasMorePriority p q = true ∨ hasMorePriority q p = true)
  ∧ (∀ p k, hasMorePriority p (p ++ k) = true)
  ∧ (∀ c x y r1 r2, x ≠ y →
       hasMorePriority (c ++ x :: r1) (c ++ y :: r2) = (x <? y)%nat).
Proof.
  split; [apply hasMorePriority_refl|]. split; [apply hasMorePriority_antisym|].
  split; [apply hasMorePriority_trans|]. split; [apply hasMorePriority_total|].
  split.
  - intros p k. apply hasMorePriority_prefix. by exists k.
  - intros c x y r1 r2 Hxy. rewrite hasMorePriority_app, hasMorePriority_cons.
    apply Nat.eqb_neq in Hxy. by rewrite Hxy.
Qed.

Lemma preorderFrom_sorted p cs :
  Forall (λ c, ∀ p, StronglySorted (λ a b, hasMorePriority a b = true)
                      (fst <$> preorder p c)) cs →
  ∀ i, StronglySorted (λ a b, hasMorePriority a b = true)
         (fst <$> preorderFrom p i cs).
Proof.
  induction 1 as [|c cs Hc _ IH]; intros i; simpl; [constructor|].
  rewrite fmap_app. apply StronglySorted_app_2; [|apply Hc|apply IH].
  intros x1 x2 Hx1 Hx2.
  apply list_elem_of_fmap in Hx1 as (item1 & -> & Hin1).
  apply list_elem_of_fmap in Hx2 as (item2 & -> & Hin2).
  apply preorder_prefix in Hin1 as [k1 ->].
  apply preorderFrom_elem in Hin2 as (j & c' & _ & Hin2).
  apply preorder_prefix in Hin2 as [k2 ->].
  rewrite <- !app_assoc, hasMorePriority_app. simpl.
  rewrite hasMorePriority_cons.
  destruct (Nat.eqb_spec i (S (i + j))) as [E|_]; [lia|].
  apply Nat.ltb_lt. lia.
Qed.

(** X16.  [treeIterator] yields the paths in the order of [hasMorePriority]:
    every path it yields has priority over all that it yields later. *)
Theorem treeIterator_yields_in_priority_order (root : TreeNode) (fuel : nat) :
  (2 * size root ≤ fuel)%nat →
  ∃ items,
    treeIterator fuel root = Finished (Some items)
    ∧ StronglySorted (λ a b, hasMorePriority a b = true) (fst <$> items).
Proof.
  intros Hfuel. exists (preorder [] root).
  split; [by apply treeIterator_preorder|].
  clear Hfuel. generalize (@nil nat).
  induction root as [n IHn] using TreeNode_ind'. intros p.
  rewrite preorder_eq. simpl. constructor.
  { apply preorderFrom_sorted. eapply Forall_impl; [exact IHn|].
    intros c Hc q. apply Hc. }
  apply Forall_forall. intros x Hx.
  apply list_elem_of_fmap in Hx as (item & -> & Hin).
  apply preorderFrom_elem in Hin as (j & c & _ & Hin).
  apply preorder_prefix in Hin.
  apply hasMorePriority_prefix. etransitivity; [|exact Hin]. by apply prefix_app_r.
Qed.

End Priority.

(** ** The mainline *)

Section Mainline.
Implicit Types (n node : TreeNode) (p q path : list nat).

Lemma treeIteratorMainLineFrom_eq p n :
  treeIteratorMainLineFrom p n
  = (p, n) :: match children n with
              | [] => []
              | c :: _ => treeIteratorMainLineFrom (p ++ [0%nat]) c
              end.
Proof. by destruct n. Qed.

Lemma getLastMainlinePosition_eq n :
  getLastMainlinePosition n
  = match children n with
    | [] => []
    | c :: _ =>
        match move n with
        | Some _ => 0%nat :: getLastMainlinePosition c
        | None => getLastMainlinePosition c
        end
    end.
Proof. by destruct n. Qed.

Lemma treeIteratorMainLineFrom_spec n :
  ∀ p, treeIteratorMainLineFrom p n
       = map (λ k, (p ++ repeat 0%nat k, getNodeAtPath n (repeat 0%nat k)))
           (seq 0 (S (countMainPly n))).
Proof.
  induction n as [n IHn] using TreeNode_ind'. intros p.
  rewrite treeIteratorMainLineFrom_eq, countMainPly_eq.
  destruct (children n) as [|c cs] eqn:Hcs.
  - simpl. by rewrite app_nil_r.
  - apply Forall_cons in IHn as [IHc _]. rewrite IHc.
    rewrite (seq_S _ 0), <- cons_seq, <- seq_S.
    cbn [map repeat getNodeAtPath]. rewrite app_nil_r. f_equal.
    rewrite <- seq_shift, map_map. apply map_ext. intros k.
    cbn [repeat getNodeAtPath]. rewrite Hcs. simpl. by rewrite <- app_assoc.
Qed.

(** The nodes of the mainline from [n] on have moves: the loop of
    [getLastMainlinePosition] pushes an index for each but the last. *)
Lemma getLastMainlinePosition_moves n :
  (∀ k, (k ≤ countMainPly n)%nat →
        is_Some (move (getNodeAtPath n (repeat 0%nat k)))) →
  getLastMainlinePosition n = repeat 0%nat (countMainPly n).
Proof.
  induction n as [n IHn] using TreeNode_ind'. intros Hmoves.
  rewrite getLastMainlinePosition_eq. rewrite countMainPly_eq in Hmoves |- *.
  destruct (children n) as [|c cs] eqn:Hcs; [done|].
  apply Forall_cons in IHn as [IHc _].
  destruct (Hmoves 0%nat) as [m Hm]; [lia|]. simpl in Hm. rewrite Hm.
  simpl. f_equal. apply IHc. intros k Hk.
  specialize (Hmoves (S k)). simpl in Hmoves. rewrite Hcs in Hmoves.
  apply Hmoves. lia.
Qed.

(** X17.  [treeIteratorMainLine] yields the root and the first children
    below it down to a node without children, each with its path of
    zeros: one item more than [countMainPly] counts, the last of them
    the end of the mainline, where [goToEnd] and [appendMove] go. *)
Theorem treeIteratorMainLine_yields_mainline (tree : TreeNode) :
  treeIteratorMainLine tree
  = map (λ k, (repeat 0%nat k, getNodeAtPath tree (repeat 0%nat k)))
      (seq 0 (S (countMainPly tree)))
  ∧ length (treeIteratorMainLine tree) = S (countMainPly tree)
  ∧ last (treeIteratorMainLine tree)
    = Some (mainlineEnd tree, getNodeAtPath tree (mainlineEnd tree))
  ∧ mainlineEnd tree = repeat 0%nat (countMainPly tree).
Proof.
  assert (Heq : treeIteratorMainLine tree
                = map (λ k, (repeat 0%nat k, getNodeAtPath tree (repeat 0%nat k)))
                    (seq 0 (S (countMainPly tree))))
    by apply (treeIteratorMainLineFrom_spec tree []).
  split; [done|]. split; [by rewrite Heq, length_map, length_seq|]. split.
  - rewrite Heq. rewrite seq_S, map_app. simpl. rewrite last_snoc.
    destruct (mainlineEnd_spec tree) as (-> & _). done.
  - apply mainlineEnd_spec.
Qed.

(** X18.  In a game, where the root has no move and every node below it has
    one, [getLastMainlinePosition] returns the path of the last node but
    one of the mainline: a path of zeros that is one index shorter than
    the mainline, and empty when the root has no child. *)
Theorem getLastMainlinePosition_is_parent_of_last_move (root : TreeNode) :
  move root = None →
  (∀ k, (0 < k ≤ countMainPly root)%nat →
        is_Some (move (getNodeAtPath root (repeat 0%nat k)))) →
  getLastMainlinePosition root = repeat 0%nat (countMainPly root - 1)
  ∧ resolves root (getLastMainlinePosition root)
  ∧ (children root ≠ [] →
     ∃ c, children (getNodeAtPath root (getLastMainlinePosition root)) !! 0%nat = Some c
          ∧ children c = []).
Proof.
  intros Hroot Hmoves.
  assert (Heq : getLastMainlinePosition root = repeat 0%nat (countMainPly root - 1)).
  { rewrite getLastMainlinePosition_eq, countMainPly_eq, Hroot.
    destruct (children root) as [|c cs] eqn:Hcs; [done|].
    simpl. rewrite Nat.sub_0_r. apply getLastMainlinePosition_moves.
    intros k Hk. specialize (Hmoves (S k)). rewrite countMainPly_eq, Hcs in Hmoves.
    simpl in Hmoves. rewrite Hcs in Hmoves. apply Hmoves. lia. }
  destruct (mainlineEnd_spec root) as (Hrep & Hres & Hleaf).
  assert (Hsplit : children root ≠ [] →
            mainlineEnd root = repeat 0%nat (countMainPly root - 1) ++ [0%nat]).
  { intros Hne. rewrite Hrep. rewrite countMainPly_eq.
    destruct (children root) as [|c cs]; [done|]. simpl. rewrite Nat.sub_0_r.
    change [0%nat] with (repeat 0%nat 1). rewrite <- repeat_app.
    replace (countMainPly c + 1)%nat with (S (countMainPly c)) by lia. done. }
  rewrite Heq. split; [done|]. split.
  - destruct (children root) as [|c cs] eqn:Hcs.
    + rewrite countMainPly_eq, Hcs. apply resolves_nil.
    + rewrite Hsplit in Hres by done. by eapply resolves_prefix.
  - intros Hne. rewrite (Hsplit Hne) in Hres, Hleaf.
    apply resolves_app in Hres as [Hres1 Hres2].
    apply resolves_cons in Hres2 as (c & Hc & _). exists c. split; [done|].
    rewrite getNodeAtPath_app in Hleaf by done. simpl in Hleaf. by rewrite Hc in Hleaf.
Qed.

End Mainline.

(** ** A move that is not in the tree yet *)

Section NewMove.
Context `{RulesEngine}.
Implicit Types (n node : TreeNode) (p q path : list nat).

(** X19.  [makeMove] with a move that has a notation and is no child of the
    node at the cursor yet adds one node below that node: the first of
    its children when the move is to be the mainline, the last of them
    otherwise; the children that were there stay the objects they were,
    in their order.  The new node holds the move, its notation, the
    position printed after it and one ply more than its parent; it has no
    children, annotations or comment.  The cursor goes to it unless
    [changePosition] is [false], the state is dirty, the nodes above keep
    their fields, and every node that is neither above nor below the
    cursor stays the object it was. *)
Theorem makeMove_adds_new_move
    (a : MakeMoveArgs) (state : TreeState) (w : World) (pos : Pos) (move_ : Move) :
  let cur := getNodeAtPath (root state) (position state) in
  let san_ := makeSan pos move_ in
  let ml := default false (mainline a) in
  let k := if ml then 0%nat else length (children cur) in
  resolves (root state) (position state) →
  positionFromFen (fen cur) = Some pos →
  moveOf (payload a) pos = Some move_ →
  san_ ≠ "--" →
  Js.findIndex (sanIs san_) (children cur) = -1 →
  ∃ state' w' new,
    makeMove a state w = Returned state' w'
    ∧ dirty state' = true
    ∧ position state'
      = (if default true (changePosition a) then position state ++ [k]
         else position state)
    ∧ children (getNodeAtPath (root state') (position state))
      = (if ml then new :: children cur else children cur ++ [new])
    ∧ getNodeAtPath (root state') (position state ++ [k]) = new
    ∧ (move new = Some move_
       ∧ san new = Some san_
       ∧ fen new = makeFen (toSetup (play pos move_))
       ∧ halfMoves new = halfMoves cur + 1
       ∧ children new = [] ∧ annotations new = [] ∧ comment new = ""
       ∧ score new = None)
    ∧ (∀ j, (j ≤ length (position state))%nat →
         ownFields (getNodeAtPath (root state') (take j (position state)))
         = ownFields (getNodeAtPath (root state) (take j (position state))))
    ∧ (∀ Q, ¬ resolvedPath (root state) Q `prefix_of` position state →
         ¬ position state `prefix_of` Q →
         getNodeAtPath (root state') Q = getNodeAtPath (root state) Q).
Proof.
  intros cur san_ ml k Hres Hpos Hmove Hsan Hidx.
  pose proof (makeMove_slow a state w pos move_ Hres Hpos Hmove Hsan Hidx) as Hrun.
  cbv zeta in Hrun. fold cur san_ ml in Hrun.
  set (o := next_oid w) in *. set (P := position state) in *.
  set (cloned := cloneAlong o (root state) P) in *.
  set (new := mkTreeNode _ _ _ _ _ _ _ _ _ _ _ _) in Hrun.
  set (f := λ m : TreeNode, withChildren (if ml then new :: children m
                                          else children m ++ [new]) m) in Hrun.
  assert (HresC : resolves cloned P)
    by (unfold resolves, cloned; by rewrite resolvedPath_cloneAlong).
  assert (Hend : getNodeAtPath cloned P = withOid (o + length P) cur).
  { unfold cloned. rewrite cloneAlong_end, Hres. done. }
  assert (Hat : getNodeAtPath (assignAtPath f cloned P) P
                = f (withOid (o + length P) cur)).
  { rewrite getNodeAtPath_assignAtPath_at by done. by rewrite Hend. }
  assert (Hres' : resolves (assignAtPath f cloned P) P)
    by (by apply resolves_assignAtPath).
  eexists _, _, new. split; [exact Hrun|]. cbn [root position dirty].
  split; [done|]. split.
  { fold k. done. }
  split; [by rewrite Hat|]. split.
  { rewrite getNodeAtPath_app by done. rewrite Hat. unfold f, k.
    cbn [children withChildren withOid getNodeAtPath].
    destruct ml; [done|].
    rewrite lookup_app_r by lia. by rewrite Nat.sub_diag. }
  split; [done|]. split.
  - intros j Hj. destruct (decide (j = length P)) as [->|Hne].
    + rewrite firstn_all, Hat. done.
    + pose proof (getNodeAtPath_assignAtPath_above f cloned P j) as Habove.
      pose proof (getNodeAtPath_cloneAlong_on o (root state) P j) as Hon.
      cbv zeta in Habove, Hon. fold cloned in Hon.
      rewrite HresC in Habove. rewrite Hres in Hon.
      destruct Habove as (_ & -> & _); [lia|]. destruct Hon as (_ & -> & _); [lia|done].
  - intros Q HQ1 HQ2.
    rewrite getNodeAtPath_assignAtPath_apart.
    + by apply getNodeAtPath_cloneAlong_off.
    + unfold cloned. by rewrite resolvedPath_cloneAlong.
    + by rewrite HresC.
Qed.

End NewMove.

(** ** Decoding a line of moves *)

Section DecodeLine.
Context `{RulesEngine} `{Host}.
Implicit Types (p q path : list nat).

Lemma assignAtPath_id (f : TreeNode → TreeNode) n p :
  f (getNodeAtPath n p) = getNodeAtPath n p → assignAtPath f n p = n.
Proof.
  revert n. induction p as [|i p IH]; intros n Hf; simpl in *; [done|].
  destruct (children n !! i) as [c|] eqn:E; [|done].
  rewrite IH by done. rewrite list_insert_id by done. by destruct n.
Qed.

Lemma assignAtPath_twice (f g : TreeNode → TreeNode) n p q :
  resolves n p →
  assignAtPath g (assignAtPath f n p) (p ++ q)
  = assignAtPath (λ m, assignAtPath g (f m) q) n p.
Proof.
  revert n. induction p as [|i p IH]; intros n Hp; [done|].
  apply resolves_cons in Hp as (c & Hc & Hp).
  cbn [assignAtPath app]. rewrite Hc. cbn [children withChildren].
  rewrite list_lookup_insert_eq by (by eapply lookup_lt_Some).
  rewrite IH by done. by rewrite list_insert_insert_eq.
Qed.

(** The loop on a run of [San] tokens that ends with the tokens or
    before an [Outcome]: the nodes go one below the other from the node
    [root] points to. *)
Lemma parseLoop_sans recur tokens end_ sans : ∀ n v w,
  (∀ k s, sans !! k = Some s → tokens !! (v_i v + k)%nat = Some (TSan s)) →
  (v_i v + length sans ≤ end_)%nat →
  ((v_i v + length sans)%nat = end_
   ∨ ∃ o, tokens !! (v_i v + length sans)%nat = Some (TOutcome o)) →
  (end_ - v_i v ≤ n)%nat →
  resolves (root (v_tree v)) (v_root v) →
  children (getNodeAtPath (root (v_tree v)) (v_root v)) = [] →
  ∃ v' w',
    parseLoop recur tokens end_ n v w = Returned (Finished v') w'
    ∧ sounds w' = sounds w
    ∧ v_i v' = (v_i v + length sans)%nat
    ∧ v_tree v'
      = withRoot
          (assignAtPath
             (λ r, withChildren
                     (chain (next_oid w) (v_pos v)
                        (halfMoves (getNodeAtPath (root (v_tree v)) (v_root v)))
                        sans) r)
             (root (v_tree v)) (v_root v))
          (v_tree v).
Proof.
  induction sans as [|s sans IH]; intros n v w Htok Hend Hstop Hfuel Hres Hleaf.
  - exists v, w. simpl in *. rewrite Nat.add_0_r in *.
    split; [|split; [done|split; [done|]]].
    + destruct n as [|n]; simpl.
      * destruct (Nat.ltb_spec (v_i v) end_); [lia|done].
      * destruct (Nat.ltb_spec (v_i v) end_) as [Hlt|]; [|done].
        destruct Hstop as [?|[o Ho]]; [lia|]. by rewrite Ho.
    + rewrite assignAtPath_id; [by destruct (v_tree v)|].
      rewrite <- Hleaf. by destruct (getNodeAtPath _ _).
  - simpl in Hend.
    destruct n as [|n]; [lia|]. cbn [parseLoop].
    destruct (Nat.ltb_spec (v_i v) end_) as [Hlt|]; [|lia].
    pose proof (Htok 0%nat s eq_refl) as Hfirst. rewrite Nat.add_0_r in Hfirst. rewrite Hfirst.
    cbn [chain]. unfold tokenMove.
    destruct (match parseSan (v_pos v) s with
              | Some m => Some m
              | None => parseUci s
              end) as [move_|] eqn:Hmove.
    + unfold createNode, newOid, mbind, M_bind, mret, M_ret.
      rewrite Hleaf. cbn [length].
      set (rootNode := getNodeAtPath (root (v_tree v)) (v_root v)) in *.
      set (new := mkTreeNode (next_oid w) _ _ _ [] _ _ _ _ _ _ _).
      set (f := λ r : TreeNode, withChildren (children r ++ [new]) r).
      set (v1 := mkParseVars _ _ _ _ _ _).
      assert (Hres1 : resolves (assignAtPath f (root (v_tree v)) (v_root v)) (v_root v))
        by (by apply resolves_assignAtPath).
      assert (Hat : getNodeAtPath (assignAtPath f (root (v_tree v)) (v_root v))
                      (v_root v ++ [0%nat]) = new).
      { rewrite getNodeAtPath_assignAtPath_below by done. fold rootNode.
        unfold f. rewrite Hleaf. done. }
      destruct (IH n v1 (mkWorld (S (next_oid w)) (sounds w)))
        as (v' & w' & Hrun & Hs & Hi & Htree).
      * intros k s' Hk. unfold v1. cbn [v_i].
        replace (S (v_i v) + k)%nat with (v_i v + S k)%nat by lia. by apply Htok.
      * unfold v1. cbn [v_i]. lia.
      * unfold v1. cbn [v_i].
        replace (S (v_i v) + length sans)%nat with (v_i v + S (length sans))%nat by lia.
        exact Hstop.
      * unfold v1. cbn [v_i]. lia.
      * unfold v1, assignRoot. cbn [v_tree v_root root withRoot].
        apply resolves_app. split; [done|].
        rewrite getNodeAtPath_assignAtPath_at by done. fold rootNode.
        apply resolves_cons. exists new. unfold f. rewrite Hleaf. done.
      * unfold v1, assignRoot. cbn [v_tree v_root root withRoot]. by rewrite Hat.
      * exists v', w'. split; [exact Hrun|]. split; [done|].
        split; [rewrite Hi; unfold v1; simpl; lia|].
        rewrite Htree. unfold v1, assignRoot.
        cbn [v_tree v_root v_pos root withRoot next_oid]. rewrite Hat.
        cbn [halfMoves new]. unfold withRoot. cbn [headers position dirty report].
        f_equal. rewrite assignAtPath_twice by done.
        apply assignAtPath_ext. fold rootNode. unfold f. rewrite Hleaf.
        subst new. by destruct rootNode.
    + destruct (IH n (next (S (v_i v)) v) w) as (v' & w' & Hrun & Hs & Hi & Htree).
      * intros k s' Hk. cbn [next v_i].
        replace (S (v_i v) + k)%nat with (v_i v + S k)%nat by lia. by apply Htok.
      * cbn [next v_i]. lia.
      * cbn [next v_i].
        replace (S (v_i v) + length sans)%nat with (v_i v + S (length sans))%nat by lia.
        exact Hstop.
      * cbn [next v_i]. lia.
      * done.
      * done.
      * exists v', w'. split; [exact Hrun|]. split; [done|].
        split; [rewrite Hi; unfold next; simpl; lia|]. exact Htree.
Qed.

(** The chain of a line that the engine plays. *)
Lemma chain_plays sans : ∀ o pos ply n,
  children n = chain o pos ply sans →
  playsLine pos sans →
  mainlineEnd n = repeat 0%nat (length sans)
  ∧ size n = S (length sans)
  ∧ map san (lineNodes n (repeat 0%nat (length sans))) = map Some sans
  ∧ map halfMoves (lineNodes n (repeat 0%nat (length sans)))
    = map (λ k, ply + Z.of_nat (S k)) (seq 0 (length sans)).
Proof.
  induction sans as [|s sans IH]; intros o pos ply n Hn Hplays.
  - simpl in *. rewrite mainlineEnd_eq, size_eq, Hn. done.
  - destruct Hplays as (m & Hm & Hs & Hplays).
    cbn [chain] in Hn. unfold tokenMove in Hn. rewrite Hm, Hs in Hn.
    set (c := mkTreeNode _ _ _ _ _ _ _ _ _ _ _ _) in Hn.
    destruct (IH (S o) (play pos m) (ply + 1) c eq_refl Hplays)
      as (IH1 & IH2 & IH3 & IH4).
    rewrite mainlineEnd_eq, size_eq, Hn.
    cbn [length repeat lineNodes lookup list_lookup map list_sum seq].
    rewrite Hn. cbn [lookup list_lookup map].
    rewrite IH1, IH2, IH3, IH4.
    split; [done|]. split; [simpl; lia|]. split; [done|].
    assert (halfMoves c = ply + Z.of_nat 1) as -> by (simpl; lia).
    apply (f_equal (cons _)).
    rewrite <- seq_shift, map_map. apply map_ext. intros k. lia.
Qed.

(** The chain never branches. *)
Lemma chain_leaves sans : ∀ o pos ply n,
  children n = chain o pos ply sans → leaves n = 1%nat.
Proof.
  induction sans as [|s sans IH]; intros o pos ply n Hn.
  - rewrite leaves_eq, Hn. done.
  - cbn [chain] in Hn. destruct (tokenMove pos s) as [m|]; [|by eapply IH].
    set (c := mkTreeNode _ _ _ _ _ _ _ _ _ _ _ _) in Hn.
    rewrite leaves_eq, Hn. cbn [map list_sum foldr]. rewrite ?Nat.add_0_r.
    by apply (IH (S o) (play pos m) (ply + 1)).
Qed.

Lemma defaultTree_some fen_ t w :
  ∃ h,
    defaultTree (Some fen_) (Some t) w
    = Returned
        (mkTreeState
           (mkTreeNode (next_oid w) (Js.trim fen_) None None [] None None
              (match t with black => 1 | white => 0 end) [] [] "" None)
           h [] false (mkReportState false))
        (mkWorld (S (next_oid w)) (sounds w)).
Proof. eexists. reflexivity. Qed.

(** X20.  [innerParsePGN], from a live position, reads a run of [San]
    tokens that ends with the tokens or before an [Outcome] token to the
    end of the run: what follows the outcome is not read, nothing is
    thrown and no sound is played.  The tree it returns never branches:
    below the root, which holds the trimmed position string and the ply
    count it was given (one more when that is 0 and black is to move),
    each notation that gives a move leaves one node below the node of
    the one before, and a notation that gives none leaves nothing.  When
    the engine plays the whole line, the mainline has one node for each
    notation, in their order, each one ply after the one before. *)
Theorem innerParsePGN_builds_mainline
    (sans : list string) (ending : option (Outcome * list Token))
    (fen_ : string) (halfMoves_ : Z) (pos0 : Pos) (w : World) :
  let tokens :=
    map TSan sans ++ match ending with
                     | Some (o, rest) => TOutcome o :: rest
                     | None => []
                     end in
  let ply0 := if (halfMoves_ =? 0) && bool_decide (turn pos0 = black)
              then halfMoves_ + 1 else halfMoves_ in
  ∃ tree w',
    innerParsePGN tokens fen_ halfMoves_ 0 None (Some pos0) w
    = Returned (Finished (tree, length sans)) w'
    ∧ sounds w' = sounds w
    ∧ position tree = []
    ∧ fen (root tree) = Js.trim fen_
    ∧ halfMoves (root tree) = ply0
    ∧ children (root tree) = chain (S (next_oid w)) pos0 ply0 sans
    ∧ leaves (root tree) = 1%nat
    ∧ (playsLine pos0 sans →
       let line := lineNodes (root tree) (repeat 0%nat (length sans)) in
       mainlineEnd (root tree) = repeat 0%nat (length sans)
       ∧ size (root tree) = S (length sans)
       ∧ map san line = map Some sans
       ∧ map halfMoves line
         = map (λ k, ply0 + Z.of_nat (S k)) (seq 0 (length sans))).
Proof.
  intros tokens ply0.
  unfold innerParsePGN. cbn [innerParsePGNFrom default].
  destruct (defaultTree_some fen_ (turn pos0) w) as [h Hdef].
  erewrite bind_returned by exact Hdef.
  cbn [withRoot withHalfMoves root headers position dirty report].
  fold ply0.
  set (root0 := mkTreeNode (next_oid w) (Js.trim fen_) None None [] None None ply0
                  [] [] "" None).
  set (tree0 := mkTreeState root0 h [] false (mkReportState false)).
  set (v0 := mkParseVars tree0 [] [] pos0 pos0 0%nat).
  set (w0 := mkWorld (S (next_oid w)) (sounds w)).
  destruct (parseLoop_sans (innerParsePGNFrom (length tokens) tokens) tokens
              (length tokens) sans (length tokens - 0) v0 w0)
    as (v' & w' & Hrun & Hs & Hi & Htree).
  - intros k s Hk. unfold v0, tokens. cbn [v_i]. rewrite Nat.add_0_l.
    rewrite lookup_app_l by (rewrite length_map; by eapply lookup_lt_Some).
    by rewrite list_lookup_fmap, Hk.
  - unfold v0, tokens. cbn [v_i]. rewrite length_app, length_map. lia.
  - unfold v0, tokens. cbn [v_i]. rewrite Nat.add_0_l.
    destruct ending as [[o rest]|].
    + right. exists o. rewrite lookup_app_r by (by rewrite length_map).
      by rewrite length_map, Nat.sub_diag.
    + left. by rewrite app_nil_r, length_map.
  - unfold v0. cbn [v_i]. lia.
  - done.
  - done.
  - erewrite bind_returned by exact Hrun. unfold mret, M_ret.
    cbn [v_i v0 v_tree v_root v_pos root tree0 getNodeAtPath assignAtPath halfMoves
         root0 next_oid w0 withRoot headers position dirty report] in Hi, Htree.
    rewrite Hi, Htree. cbn [Nat.add].
    eexists _, _. split; [reflexivity|].
    cbn [root position fen halfMoves children withChildren].
    split; [done|]. split; [done|]. split; [done|]. split; [done|].
    split; [done|]. split.
    + by eapply chain_leaves.
    + intros Hplays. by eapply chain_plays.
Qed.

End DecodeLine.

(** ** What a field edit leaves in the node at the cursor *)

Section FieldEditValues.
Implicit Types (p q path : list nat).

(** The node at the cursor after an assignment to its clone. *)
Lemma assign_clone_at (f : TreeNode → TreeNode) root_ path o :
  (∀ m, children (f m) = children m) →
  ∃ o',
    getNodeAtPath (assignAtPath f (cloneAlong o root_ path) path) path
    = f (withOid o' (getNodeAtPath root_ path)).
Proof.
  intros Hf. eexists.
  rewrite <- (getNodeAtPath_resolved (assignAtPath _ _ _)).
  rewrite resolvedPath_assignAtPath by done.
  rewrite getNodeAtPath_assignAtPath. by rewrite cloneAlong_end.
Qed.

(** X22.  [clearShapes] leaves no shape in the node at the cursor.  When
    there was none it returns the state it was given, with no node
    cloned; otherwise the state is dirty. *)
Theorem clearShapes_leaves_no_shape (state : TreeState) (w : World) :
  let old := shapes (getNodeAtPath (root state) (position state)) in
  ∃ state' w',
    clearShapes state w = Returned state' w'
    ∧ position state' = position state
    ∧ shapes (getNodeAtPath (root state') (position state)) = []
    ∧ (old = [] → state' = state ∧ w' = w)
    ∧ (old ≠ [] → dirty state' = true ∧ next_oid w < next_oid w')%nat.
Proof.
  intros old. unfold clearShapes. fold old.
  destruct old as [|s old'] eqn:Hold.
  - exists state, w. split; [done|]. split; [done|]. split; [done|]. done.
  - erewrite bind_returned by apply clonePath_spec.
    eexists _, _. split; [reflexivity|].
    cbn [position dirty root withDirty withRoot next_oid].
    split; [done|]. split; [|split; [done|intros _; split; [done|lia]]].
    set (cloned := cloneAlong (next_oid w) (root state) (position state)).
    rewrite <- (getNodeAtPath_resolved (assignAtPath _ _ _)).
    rewrite resolvedPath_assignAtPath by done.
    by rewrite getNodeAtPath_assignAtPath.
Qed.

End FieldEditValues.

Section AnnotationValues.
Context `{Host}.

(** X23.  With a sort that rearranges and nothing more, [setAnnotation]
    toggles the annotation in the node at the cursor: one that is there
    is removed and the others stay; one that is not there is added, and
    of the others those of its group, when it has one, are removed. *)
Theorem setAnnotation_toggles_annotation
    (payload : Annotation) (state : TreeState) (w : World) :
  (∀ cmp l, jsSort cmp l ≡ₚ l) →
  let old := annotations (getNodeAtPath (root state) (position state)) in
  let sameGroup a :=
    ∃ g, g ≠ "" ∧ annotationGroup a = Some g ∧ annotationGroup payload = Some g in
  ∃ state' w',
    setAnnotation payload state w = Returned state' w'
    ∧ position state' = position state
    ∧ dirty state' = true
    ∧ (let new := annotations (getNodeAtPath (root state') (position state)) in
       (payload ∈ old → ∀ a, a ∈ new ↔ a ∈ old ∧ a ≠ payload)
       ∧ (payload ∉ old →
          ∀ a, a ∈ new ↔ a = payload ∨ (a ∈ old ∧ ¬ sameGroup a))).
Proof.
  intros Hsort old sameGroup.
  destruct (assign_clone_at (toggleAnnotation payload) (root state) (position state)
              (next_oid w)) as [o Hat].
  { intros m. unfold toggleAnnotation. by destruct (existsb _ _). }
  eexists _, _. split.
  { unfold setAnnotation. erewrite bind_returned by apply clonePath_spec. reflexivity. }
  cbn [position dirty root withDirty withRoot].
  split; [done|]. split; [done|].
  rewrite Hat. unfold toggleAnnotation.
  assert (Hin : existsb (String.eqb payload)
                  (annotations (withOid o (getNodeAtPath (root state) (position state))))
                = true ↔ payload ∈ old).
  { rewrite existsb_exists. unfold old.
    destruct (getNodeAtPath (root state) (position state)); simpl.
    split.
    - intros (x & Hx & ->%String.eqb_eq). by apply list_elem_of_In.
    - intros Hx. exists payload. split; [by apply list_elem_of_In|apply String.eqb_refl]. }
  assert (Hold : annotations (withOid o (getNodeAtPath (root state) (position state)))
                 = old).
  { unfold old. by destruct (getNodeAtPath (root state) (position state)). }
  rewrite Hold in *.
  destruct (existsb (String.eqb payload) old) eqn:E.
  - split; [|intros Hnot; destruct Hnot; by apply Hin].
    intros _ a. cbn [annotations withAnnotations].
    rewrite list_elem_of_In, filter_In, <- list_elem_of_In.
    rewrite negb_true_iff, String.eqb_neq. done.
  - split; [intros Hyes; apply Hin in Hyes; done|].
    intros _ a. cbn [annotations withAnnotations].
    rewrite (Hsort _ _), elem_of_app, list_elem_of_singleton.
    rewrite list_elem_of_In, filter_In, <- list_elem_of_In.
    assert (Hgroup : noGroup a || negb (groupIs (annotationGroup payload) a) = true
                     ↔ ¬ sameGroup a).
    { unfold noGroup, groupIs, sameGroup.
      destruct (annotationGroup a) as [g|], (annotationGroup payload) as [g'|];
        cbn [orb negb].
      - destruct (String.eqb_spec g "") as [->|Hg]; cbn [orb].
        + split; [|done]. intros _ (g0 & Hg0 & [= <-] & _). done.
        + destruct (String.eqb_spec g g') as [->|Hgg']; cbn [negb].
          * split; [done|]. intros Hno. destruct Hno. by exists g'.
          * split; [|done]. intros _ (g0 & _ & [= <-] & [= <-]). done.
      - destruct (String.eqb g ""); cbn [orb]; (split; [|done]);
          intros _ (g0 & _ & _ & [=]).
      - split; [|done]. intros _ (g0 & _ & [=] & _).
      - split; [|done]. intros _ (g0 & _ & [=] & _). }
    rewrite Hgroup. tauto.
Qed.

End AnnotationValues.

(** ** The objects of the tree after an action *)

Section Objects.
Implicit Types (p q path : list nat).

Lemma elem_of_flat_map_insert {A B} (g : A → list B) (cs : list A) i c' x :
  x ∈ flat_map g (<[i := c']> cs) → x ∈ g c' ∨ x ∈ flat_map g cs.
Proof.
  revert i. induction cs as [|y l IH]; intros i Hx; [by right|].
  destruct i as [|i]; simpl in *; apply elem_of_app in Hx as [Hx|Hx].
  - by left.
  - right. apply elem_of_app. by right.
  - right. apply elem_of_app. by left.
  - destruct (IH i Hx) as [?|?]; [by left|]. right. apply elem_of_app. by right.
Qed.

Lemma elem_of_flat_map_lookup {A B} (g : A → list B) (cs : list A) i c x :
  cs !! i = Some c → x ∈ g c → x ∈ flat_map g cs.
Proof.
  intros Hc Hx. apply list_elem_of_In, in_flat_map. exists c. split.
  - apply list_elem_of_In. by eapply list_elem_of_lookup_2.
  - by apply list_elem_of_In.
Qed.

Lemma NoDup_flat_map_insert {A B} (g : A → list B) (cs : list A) i c c' :
  NoDup (flat_map g cs) → cs !! i = Some c → NoDup (g c') →
  (∀ x, x ∈ g c' → x ∈ g c ∨ x ∉ flat_map g cs) →
  NoDup (flat_map g (<[i := c']> cs)).
Proof.
  revert i. induction cs as [|y l IH]; intros i Hnd Hc Hc' Hnew; [done|].
  simpl in Hnd. apply NoDup_app in Hnd as (Hy & Hdisj & Hl).
  destruct i as [|i]; simpl in *.
  - injection Hc as ->. apply NoDup_app. split; [done|]. split; [|done].
    intros x Hx Hxl. destruct (Hnew x Hx) as [Hold|Hnot].
    + by apply (Hdisj x).
    + apply Hnot, elem_of_app. by right.
  - apply NoDup_app. split; [done|]. split.
    + intros x Hx Hxl. apply elem_of_flat_map_insert in Hxl as [Hxc|Hxl].
      * destruct (Hnew x Hxc) as [Hold|Hnot].
        -- apply (Hdisj x Hx). by eapply elem_of_flat_map_lookup.
        -- apply Hnot, elem_of_app. by left.
      * by apply (Hdisj x).
    + eapply IH; [done..|]. intros x Hx. destruct (Hnew x Hx) as [?|Hnot]; [by left|].
      right. intros Hxl. apply Hnot, elem_of_app. by right.
Qed.

Lemma flat_map_insert_perm {A B} (g : A → list B) (cs : list A) i c c' extra :
  cs !! i = Some c → g c' ≡ₚ extra ++ g c →
  flat_map g (<[i := c']> cs) ≡ₚ extra ++ flat_map g cs.
Proof.
  revert i. induction cs as [|y l IH]; intros i Hc Hperm; [done|].
  destruct i as [|i]; simpl in *.
  - injection Hc as ->. by rewrite Hperm, <- app_assoc.
  - rewrite (IH i) by done. by rewrite !app_assoc, (Permutation_app_comm (g y)).
Qed.

(** The objects of a clone along a path are those of the tree or new. *)
Lemma cloneAlong_oids p : ∀ o n x,
  x ∈ oids (cloneAlong o n p) →
  x ∈ oids n ∨ (o ≤ x < o + S (length (resolvedPath n p)))%nat.
Proof.
  induction p as [|i p IH]; intros o n x Hx.
  - cbn [cloneAlong] in Hx. rewrite oids_eq in Hx. rewrite (oids_eq n).
    destruct n; cbn in *. apply elem_of_cons in Hx as [->|Hx].
    + right. lia.
    + left. by right.
  - cbn [cloneAlong resolvedPath] in *.
    destruct (children n !! i) as [c|] eqn:Hc.
    + rewrite oids_eq in Hx. rewrite (oids_eq n).
      assert (Hch : children (withOid o (withChildren
                      (<[i := cloneAlong (S o) c p]> (children n)) n))
                    = <[i := cloneAlong (S o) c p]> (children n)) by (by destruct n).
      assert (Hoid : oid (withOid o (withChildren
                      (<[i := cloneAlong (S o) c p]> (children n)) n)) = o)
        by (by destruct n).
      rewrite Hch, Hoid in Hx. apply elem_of_cons in Hx as [->|Hx].
      * right. simpl. lia.
      * apply elem_of_flat_map_insert in Hx as [Hx|Hx].
        -- apply IH in Hx as [Hx|Hx].
           ++ left. right. by eapply elem_of_flat_map_lookup.
           ++ right. simpl. lia.
        -- left. by right.
    + rewrite oids_eq in Hx. rewrite (oids_eq n).
      destruct n; cbn in *. apply elem_of_cons in Hx as [->|Hx].
      * right. lia.
      * left. by right.
Qed.

(** Cloning along a path keeps the objects distinct when the new
    identities are younger than all of the tree. *)
Lemma cloneAlong_distinct p : ∀ o n,
  distinctObjects n → Forall (λ x, (x < o)%nat) (oids n) →
  distinctObjects (cloneAlong o n p).
Proof.
  unfold distinctObjects.
  induction p as [|i p IH]; intros o n Hnd Hold.
  - cbn [cloneAlong]. rewrite oids_eq in *.
    apply NoDup_cons in Hnd as [_ Hnd]. apply Forall_cons in Hold as [_ Hold].
    destruct n; cbn in *. apply NoDup_cons. split; [|done].
    intros Hin. rewrite Forall_forall in Hold. specialize (Hold _ Hin). lia.
  - cbn [cloneAlong]. destruct (children n !! i) as [c|] eqn:Hc.
    + rewrite (oids_eq n) in Hnd, Hold.
      apply NoDup_cons in Hnd as [_ Hnd]. apply Forall_cons in Hold as [_ Hold].
      rewrite Forall_forall in Hold.
      assert (Hc_old : ∀ x, x ∈ oids c → (x < o)%nat).
      { intros x Hx. apply Hold. by eapply elem_of_flat_map_lookup. }
      assert (Hc' : NoDup (oids (cloneAlong (S o) c p))).
      { apply IH.
        - by eapply NoDup_flat_map_lookup.
        - apply Forall_forall. intros x Hx. specialize (Hc_old x Hx). lia. }
      rewrite oids_eq.
      replace (oid _) with o by (by destruct n).
      replace (children _) with (<[i := cloneAlong (S o) c p]> (children n))
        by (by destruct n).
      apply NoDup_cons. split.
      * intros Hin. apply elem_of_flat_map_insert in Hin as [Hin|Hin].
        -- apply cloneAlong_oids in Hin as [Hin|Hin]; [|lia].
           specialize (Hc_old _ Hin). lia.
        -- specialize (Hold _ Hin). lia.
      * eapply NoDup_flat_map_insert; [done..|].
        intros x Hx. apply cloneAlong_oids in Hx as [Hx|Hx]; [by left|].
        right. intros Hin. specialize (Hold _ Hin). lia.
    + rewrite oids_eq in *.
      apply NoDup_cons in Hnd as [_ Hnd]. apply Forall_cons in Hold as [_ Hold].
      destruct n; cbn in *. apply NoDup_cons. split; [|done].
      intros Hin. rewrite Forall_forall in Hold. specialize (Hold _ Hin). lia.
Qed.

Lemma cloneAlong_older o n p :
  Forall (λ x, (x < o)%nat) (oids n) →
  Forall (λ x, (x < o + S (length (resolvedPath n p)))%nat) (oids (cloneAlong o n p)).
Proof.
  rewrite !Forall_forall. intros Hold x Hx.
  apply cloneAlong_oids in Hx as [Hx|Hx]; [|lia]. specialize (Hold _ Hx). lia.
Qed.

(** The objects after an assignment to the node a path leads to. *)
Lemma assignAtPath_oids (f : TreeNode → TreeNode) extra p : ∀ n,
  resolves n p →
  oids (f (getNodeAtPath n p)) ≡ₚ extra ++ oids (getNodeAtPath n p) →
  oids (assignAtPath f n p) ≡ₚ extra ++ oids n.
Proof.
  induction p as [|i p IH]; intros n Hp Hf; [done|].
  apply resolves_cons in Hp as (c & Hc & Hp).
  cbn [assignAtPath getNodeAtPath] in *. rewrite Hc in *.
  rewrite (oids_eq n), oids_eq.
  replace (oid (withChildren _ n)) with (oid n) by (by destruct n).
  replace (children (withChildren _ n)) with (<[i := assignAtPath f c p]> (children n))
    by (by destruct n).
  rewrite (flat_map_insert_perm oids _ i c _ extra) by (done || by apply IH).
  by rewrite Permutation_middle.
Qed.

End Objects.

(** ** Well-formed states *)

Section WellFormedMoves.
Context `{RulesEngine}.
Implicit Types (p q path : list nat).

(** X24.  [makeMove] keeps a state well formed and never throws on one: the
    cursor it leaves leads to a node, no object occurs twice in the tree
    it leaves, and every object of that tree is older than the next one
    to be allocated. *)
Theorem makeMove_keeps_state_well_formed
    (a : MakeMoveArgs) (state : TreeState) (w : World) :
  wellFormed state w →
  ∃ state' w',
    makeMove a state w = Returned state' w'
    ∧ wellFormed state' w'
    ∧ (next_oid w ≤ next_oid w')%nat.
Proof.
  intros (Hres & Hnd & Hold).
  set (cur := getNodeAtPath (root state) (position state)).
  destruct (positionFromFen (fen cur)) as [pos|] eqn:Hpos.
  2:{ exists state, w. split; [|done]. unfold makeMove. fold cur. by rewrite Hpos. }
  destruct (moveOf (payload a) pos) as [move_|] eqn:Hmove.
  2:{ exists state, w. split; [|done]. unfold makeMove. fold cur. rewrite Hpos.
      unfold moveOf in Hmove. by rewrite Hmove. }
  destruct (String.eqb_spec (makeSan pos move_) "--") as [Hsan|Hsan].
  { exists state, w. split; [|done]. unfold makeMove. fold cur. rewrite Hpos.
    unfold moveOf in Hmove. rewrite Hmove, Hsan. done. }
  destruct (decide (Js.findIndex (sanIs (makeSan pos move_)) (children cur) = -1))
    as [Hidx|Hidx].
  - (* a new node *)
    eexists _, _. split; [by apply (makeMove_slow a state w pos move_)|].
    fold cur.
    set (o := next_oid w). set (P := position state).
    set (cloned := cloneAlong o (root state) P).
    set (new := mkTreeNode (o + S (length P)) _ _ _ [] _ _ _ _ _ _ _).
    set (f := λ m : TreeNode, withChildren (if default false (mainline a)
                                            then new :: children m
                                            else children m ++ [new]) m).
    assert (HresC : resolves cloned P)
      by (unfold resolves, cloned; by rewrite resolvedPath_cloneAlong).
    assert (Hend : getNodeAtPath cloned P = withOid (o + length P) cur).
    { unfold cloned. rewrite cloneAlong_end. unfold P. by rewrite Hres. }
    assert (Hres' : resolves (assignAtPath f cloned P) P)
      by (by apply resolves_assignAtPath).
    assert (Hperm : oids (assignAtPath f cloned P) ≡ₚ [(o + S (length P))%nat] ++ oids cloned).
    { apply assignAtPath_oids; [done|]. rewrite Hend. unfold f.
      rewrite oids_eq, (oids_eq (withOid _ _)).
      replace (oid (withChildren _ _)) with (oid (withOid (o + length P) cur))
        by (by destruct cur).
      replace (children (withChildren _ (withOid (o + length P) cur)))
        with (if default false (mainline a)
              then new :: children (withOid (o + length P) cur)
              else children (withOid (o + length P) cur) ++ [new])
        by (by destruct cur).
      assert (Hnew : oids new = [(o + S (length P))%nat]) by done.
      destruct (default false (mainline a)).
      - cbn [flat_map]. rewrite Hnew. simpl. apply perm_swap.
      - rewrite flat_map_app. cbn [flat_map]. rewrite Hnew, app_nil_r.
        simpl. rewrite <- Permutation_cons_append. apply perm_swap. }
    assert (HoldC : Forall (λ x, (x < o + S (length P))%nat) (oids cloned)).
    { pose proof (cloneAlong_older o (root state) P Hold) as Hc.
      unfold P in Hc |- *. by rewrite Hres in Hc. }
    split; [split; [|split]|cbn [next_oid]; lia].
    + cbn [root position].
      destruct (default true (changePosition a)); [|done].
      apply resolves_app. split; [done|].
      rewrite getNodeAtPath_assignAtPath_at, Hend by done.
      apply resolves_cons. exists new. split; [|done]. unfold f.
      replace (children (withChildren _ (withOid (o + length P) cur)))
        with (if default false (mainline a)
              then new :: children cur else children cur ++ [new])
        by (by destruct cur).
      destruct (default false (mainline a)); [done|].
      by rewrite lookup_app_r, Nat.sub_diag.
    + cbn [root]. unfold distinctObjects. rewrite Hperm. simpl.
      apply NoDup_cons. split.
      * intros Hin. rewrite Forall_forall in HoldC. specialize (HoldC _ Hin). lia.
      * by apply cloneAlong_distinct.
    + cbn [root next_oid]. rewrite Hperm. simpl. apply Forall_cons. split; [lia|].
      eapply Forall_impl; [exact HoldC|]. simpl. intros. lia.
  - (* a node that is there *)
    destruct (findIndex_found _ _ Hidx) as (x & Hx & _).
    pose proof (findIndex_bounds (sanIs (makeSan pos move_)) (children cur)) as Hb.
    set (k := Z.to_nat (Js.findIndex (sanIs (makeSan pos move_)) (children cur))) in *.
    eexists _, _. split.
    { apply (makeMove_fast a state w pos move_ k); try done. fold cur. unfold k. lia. }
    split; [|cbn [next_oid]; lia].
    destruct (changePosition a) as [[]|]; try done;
      (split; [|done]); cbn [root position withPosition];
      (apply resolves_app; split; [done|]);
      apply resolves_cons; by exists x.
Qed.

End WellFormedMoves.

Section WellFormedEdits.
Context `{Host}.
Implicit Types (p q path : list nat).

(** X25.  [setComment], [setScore] and [setAnnotation] keep a state
    well formed: the cursor leads to a node as before, no object occurs
    twice in the tree the edit leaves, and every object of that tree is
    older than the next one to be allocated. *)
Theorem fieldEdit_keeps_state_well_formed
    (e : FieldEdit) (state : TreeState) (w : World) :
  wellFormed state w →
  ∃ state' w',
    fieldEdit e state w = Returned state' w'
    ∧ wellFormed state' w'
    ∧ (next_oid w < next_oid w')%nat.
Proof.
  intros (Hres & Hnd & Hold).
  eexists _, _. split; [apply fieldEdit_spec|].
  set (o := next_oid w). set (P := position state).
  set (cloned := cloneAlong o (root state) P).
  assert (HresC : resolves cloned P)
    by (unfold resolves, cloned; by rewrite resolvedPath_cloneAlong).
  assert (Hperm : oids (assignAtPath (editedNode e) cloned P) ≡ₚ [] ++ oids cloned).
  { apply assignAtPath_oids; [done|]. simpl.
    by rewrite oids_eq, editedNode_oid, editedNode_children, <- oids_eq. }
  simpl in Hperm.
  split; [split; [|split]|cbn [next_oid]; lia].
  - cbn [root position withDirty withRoot]. by apply resolves_assignAtPath.
  - cbn [root withDirty withRoot]. unfold distinctObjects. rewrite Hperm.
    by apply cloneAlong_distinct.
  - cbn [root next_oid withDirty withRoot]. rewrite Hperm.
    by apply cloneAlong_older.
Qed.

End WellFormedEdits.

(** ** Encoding the line to a path *)

Section EncodeLine.
Context `{Host}.
Implicit Types (p q path : list nat).

(** One turn of the loop of [getPGN] with a path: the child that the
    first index of the path selects, and no variation. *)
Lemma pgnParts_step o (n : TreeNode) isRoot i rest c :
  children n !! i = Some c →
  pgnParts o n isRoot (Some (i :: rest))
  = (rootText ← (if isRoot
                 then t ← getMoveText n (textOptions o) false; Some [t]
                 else Some []);
     childText ← getMoveText c (textOptions o) isRoot;
     continued ← pgnParts o c false (Some rest);
     Some (rootText ++ [childText] ++ continued)).
Proof.
  intros Hc. destruct n as [? ? ? ? cs ? ? ? ? ? ? ?]. cbn [children] in Hc.
  cbn [pgnParts children].
  destruct cs as [|c0 others]; [done|].
  change (bool_decide (Some (i :: rest) = None)) with false. cbn [andb].
  change (Js.slice1 <$> Some (i :: rest)) with (Some rest).
  match goal with |- ?rt ≫= _ = _ => destruct rt as [rootText|] end;
    cbn [mbind option_bind]; [|done].
  assert (Hdone : ∀ d : TreeNode,
            (getMoveText d (textOptions o) isRoot
             ≫= λ childText,
                  pgnParts o d false (Some rest)
                  ≫= λ continued, Some ([childText] ++ [] ++ continued))
            ≫= (λ rest0, Some (rootText ++ rest0))
            = getMoveText d (textOptions o) isRoot
              ≫= λ childText,
                   pgnParts o d false (Some rest)
                   ≫= λ continued, Some (rootText ++ [childText] ++ continued)).
  { intros d. destruct (getMoveText d _ _); [|done]. cbn [mbind option_bind].
    by destruct (pgnParts o d false (Some rest)). }
  destruct i as [|k]; simpl in Hc.
  - injection Hc as ->. apply Hdone.
  - clear c0. revert k Hc. induction others as [|d l IH]; intros k Hc; [done|].
    destruct k as [|k]; simpl in Hc.
    + injection Hc as ->. apply Hdone.
    + by apply IH.
Qed.

(** An index that is no index of a child, at a node with children:
    [getMoveText] reads a property of [undefined]. *)
Lemma pgnParts_beyond o (n : TreeNode) isRoot i rest :
  children n ≠ [] → children n !! i = None →
  (isRoot = true → is_Some (getMoveText n (textOptions o) false)) →
  pgnParts o n isRoot (Some (i :: rest)) = None.
Proof.
  intros Hne Hc Hroot. destruct n as [o_ f_ m_ s_ cs sc_ d_ h_ sh_ an_ cm_ ck_]. cbn [children] in *.
  cbn [pgnParts children].
  destruct cs as [|c0 others]; [done|].
  assert (Hrt : ∃ rootText,
            (if isRoot
             then getMoveText (mkTreeNode o_ f_ m_ s_ (c0 :: others) sc_ d_ h_ sh_ an_
                                 cm_ ck_)
                    (textOptions o) false ≫= λ t, Some [t]
             else Some []) = Some rootText).
  { destruct isRoot; [|by eexists]. destruct (Hroot eq_refl) as [t ->]. by eexists. }
  destruct Hrt as [rootText ->]. cbn [mbind option_bind].
  change (bool_decide (Some (i :: rest) = None)) with false. cbn [andb].
  change (Js.slice1 <$> Some (i :: rest)) with (Some rest).
  destruct i as [|k]; [done|]. simpl in Hc.
  clear Hne Hroot. revert k Hc.
  induction others as [|d l IH]; intros k Hc; [done|].
  destruct k as [|k]; [done|]. simpl in Hc. by apply IH.
Qed.

Lemma pgnParts_at_end o (n : TreeNode) isRoot : pgnParts o n isRoot (Some []) = Some [].
Proof. by destruct n. Qed.

Lemma pgnParts_at_leaf o (n : TreeNode) isRoot i rest :
  children n = [] →
  pgnParts o n isRoot (Some (i :: rest))
  = (if isRoot then t ← getMoveText n (textOptions o) false; Some [t] else Some []).
Proof.
  intros Hleaf. destruct n as [? ? ? ? cs ? ? ? ? ? ? ?]. cbn [children] in *. subst cs.
  cbn [pgnParts children].
  match goal with |- ?rt ≫= _ = _ => by destruct rt end.
Qed.

(** The loop along a path that addresses a node. *)
Lemma pgnParts_line o path : ∀ (n : TreeNode) isRoot,
  resolves n path → path ≠ [] →
  pgnParts o n isRoot (Some path)
  = (rootText ← (if isRoot
                 then t ← getMoveText n (textOptions o) false; Some [t]
                 else Some []);
     texts ← lineTexts (textOptions o) isRoot (lineNodes n path);
     Some (rootText ++ texts)).
Proof.
  induction path as [|i rest IH]; intros n isRoot Hres Hne; [done|].
  apply resolves_cons in Hres as (c & Hc & Hres).
  rewrite (pgnParts_step o n isRoot i rest c Hc).
  cbn [lineNodes]. rewrite Hc. cbn [lineTexts].
  destruct (if isRoot then _ else _) as [rootText|]; [|done]. cbn [mbind option_bind].
  destruct (getMoveText c (textOptions o) isRoot) as [t|]; [|done].
  cbn [mbind option_bind].
  destruct rest as [|j rest].
  - rewrite pgnParts_at_end. done.
  - rewrite IH by done. cbn [mbind option_bind].
    destruct (lineTexts _ _ _) as [ts|]; done.
Qed.

(** Without comments and extra markups [getMoveText] reads no shape and
    returns. *)
Lemma getMoveText_plain glyphs (n : TreeNode) isFirst :
  is_Some (getMoveText n (mkTextOptions glyphs false false) isFirst).
Proof. unfold getMoveText. cbn [o_comments o_extraMarkups orb]. by eexists. Qed.

Lemma lineTexts_plain glyphs (nodes : list TreeNode) : ∀ isFirst,
  ∃ texts,
    lineTexts (mkTextOptions glyphs false false) isFirst nodes = Some texts
    ∧ length texts = length nodes.
Proof.
  induction nodes as [|n nodes IH]; intros isFirst; [by exists []|].
  cbn [lineTexts]. destruct (getMoveText_plain glyphs n isFirst) as [t ->].
  destruct (IH false) as (ts & -> & Hlen). exists (t :: ts). simpl. by rewrite Hlen.
Qed.

(** X26.  [copyVariationPgn] with a path that addresses a node below the
    root returns the text of the line to that node and of nothing else:
    the move texts of the root and of the nodes the path goes through,
    joined and trimmed, with glyphs and without comments, variations,
    headers or result, after the two set-up tags when the position of
    the root is not the default one.  With the empty path the text is empty.  A path
    that goes on below a node without children is cut there.  An index
    that is no index of a child, at a node with children, makes it
    throw. *)
Theorem copyVariationPgn_encodes_line_to_path (path : list nat) (state : TreeState) :
  let opt := mkTextOptions true false false in
  let setup :=
    if String.eqb (fen (root state)) INITIAL_FEN then []
    else [tagLine "SetUp" "1"; tagLine "FEN" (fen (root state))] in
  (path = [] → copyVariationPgn path state = Some "")
  ∧ (resolves (root state) path → path ≠ [] →
     ∃ rootText texts,
       getMoveText (root state) opt false = Some rootText
       ∧ lineTexts opt true (lineNodes (root state) path) = Some texts
       ∧ length texts = length path
       ∧ copyVariationPgn path state
         = Some (Js.trim (Js.join (setup ++ Js.nl :: rootText :: texts))))
  ∧ (∀ q i rest,
       path = q ++ i :: rest → q ≠ [] → resolves (root state) q →
       children (getNodeAtPath (root state) q) = [] →
       copyVariationPgn path state = copyVariationPgn q state)
  ∧ (∀ q i rest,
       path = q ++ i :: rest → resolves (root state) q →
       children (getNodeAtPath (root state) q) ≠ [] →
       children (getNodeAtPath (root state) q) !! i = None →
       copyVariationPgn path state = None).
Proof.
  intros opt setup. split; [by intros ->|]. split; [|split].
  - intros Hres Hne.
    destruct (getMoveText_plain true (root state) false) as [rootText Hroot].
    destruct (lineTexts_plain true (lineNodes (root state) path) true)
      as (texts & Htexts & Hlen).
    exists rootText, texts. split; [done|]. split; [done|]. split.
    { rewrite Hlen. clear -Hres. revert Hres. generalize (root state).
      induction path as [|i p IH]; intros n Hres; [done|].
      apply resolves_cons in Hres as (c & Hc & Hres). simpl. rewrite Hc. simpl.
      f_equal. by apply IH. }
    unfold copyVariationPgn, getPGN. cbn [p_path p_headers p_root].
    destruct path as [|i p]; [done|].
    rewrite pgnParts_line by done.
    change (textOptions _) with opt. fold opt in Hroot, Htexts.
    rewrite Hroot. cbn [mbind option_bind]. rewrite Htexts. cbn [mbind option_bind].
    unfold setup. cbn [andb]. by destruct (String.eqb _ _).
  - intros q i rest -> Hq Hres Hleaf.
    unfold copyVariationPgn, getPGN. cbn [p_path p_headers p_root].
    destruct q as [|j q]; [done|]. cbn [app].
    assert (Hgen : ∀ o1 o2 q (n : TreeNode) isRoot,
              textOptions o1 = textOptions o2 →
              resolves n q → children (getNodeAtPath n q) = [] → q ≠ [] →
              pgnParts o1 n isRoot (Some (q ++ i :: rest)) = pgnParts o2 n isRoot (Some q)).
    { clear. intros o1 o2 q. induction q as [|j q IH]; intros n isRoot Ho Hres Hleaf Hne;
        [done|].
      apply resolves_cons in Hres as (c & Hc & Hres).
      cbn [app]. rewrite !(pgnParts_step _ n isRoot j _ c Hc). rewrite Ho.
      destruct (if isRoot then _ else _) as [rootText|]; [|done].
      cbn [mbind option_bind].
      destruct (getMoveText c (textOptions o2) isRoot) as [t|]; [|done].
      cbn [mbind option_bind].
      cbn [getNodeAtPath] in Hleaf. rewrite Hc in Hleaf.
      destruct q as [|k q].
      - cbn [app]. rewrite pgnParts_at_leaf, pgnParts_at_end by done. done.
      - by rewrite (IH c false Ho Hres Hleaf). }
    change (j :: q ++ i :: rest) with ((j :: q) ++ i :: rest).
    by rewrite (Hgen _ (mkPgnOptions None true false false false true (Some (j :: q)))
                  (j :: q)).
  - intros q i rest -> Hres Hne Hnone.
    unfold copyVariationPgn, getPGN. cbn [p_path p_headers p_root].
    assert (Hgen : ∀ o q (n : TreeNode) isRoot,
              textOptions o = opt →
              resolves n q → children (getNodeAtPath n q) ≠ [] →
              children (getNodeAtPath n q) !! i = None →
              pgnParts o n isRoot (Some (q ++ i :: rest)) = None).
    { clear. intros o q. induction q as [|j q IH]; intros n isRoot Ho Hres Hne Hnone.
      - cbn [app getNodeAtPath] in *. apply pgnParts_beyond; [done..|].
        intros _. rewrite Ho. apply getMoveText_plain.
      - apply resolves_cons in Hres as (c & Hc & Hres).
        cbn [app]. rewrite (pgnParts_step _ n isRoot j _ c Hc).
        cbn [getNodeAtPath] in Hne, Hnone. rewrite Hc in Hne, Hnone.
        rewrite (IH c false Ho Hres Hne Hnone).
        destruct (if isRoot then _ else _) as [rootText|]; [|done].
        cbn [mbind option_bind]. by destruct (getMoveText c _ _). }
    destruct (q ++ i :: rest) as [|k l] eqn:E; [by destruct q|].
    rewrite <- E, Hgen by done. done.
Qed.

End EncodeLine.

(** ** The further properties at work on a game *)

Section MoreWitnesses.
#[local] Existing Instance Sample.engine.
#[local] Existing Instance Sample.host.

Lemma insertBy_perm cmp a l : Sample.insertBy cmp a l ≡ₚ a :: l.
Proof.
  induction l as [|b l IH]; [done|]. simpl.
  destruct (0 <? cmp a b); [|done]. rewrite IH. apply perm_swap.
Qed.

Lemma sortBy_perm cmp l : Sample.sortBy cmp l ≡ₚ l.
Proof.
  induction l as [|a l IH]; [done|].
  unfold Sample.sortBy in *. simpl. by rewrite insertBy_perm, IH.
Qed.

Lemma gameState_wellFormed :
  wellFormed (Sample.gameState [0; 0]%nat) Sample.gameWorld.
Proof.
  split; [vm_compute; reflexivity|]. split; [exact gameTree_distinct|].
  apply (bool_decide_eq_true_1 (Forall _ _)). vm_compute. reflexivity.
Qed.

(** The traversal of the game: seven nodes. *)
Lemma treeIterator_yields_every_node_once_witness :
  treeIterator 14 Sample.gameTree = Finished (Some (preorder [] Sample.gameTree))
  ∧ length (preorder [] Sample.gameTree) = 7%nat.
Proof.
  destruct (treeIterator_yields_every_node_once Sample.gameTree 14)
    as (Hrun & Hlen & _).
  - vm_compute. lia.
  - split; [exact Hrun|]. rewrite Hlen. vm_compute. reflexivity.
Defined.

(** The position after 1. e4 c5 is the one of the second child of 1. e4. *)
Lemma findFen_returns_first_in_traversal_witness :
  findFen 14 Sample.fen_e4_c5 Sample.gameTree = Finished (Some [0; 1]%nat).
Proof.
  destruct (findFen_returns_first_in_traversal Sample.fen_e4_c5 Sample.gameTree 14)
    as (p & Hrun & Hp & _).
  - vm_compute. lia.
  - rewrite Hrun, Hp. vm_compute. reflexivity.
Defined.

Lemma buildFenIndex_agrees_with_findFen_witness :
  ∃ index,
    buildFenIndex 14 Sample.gameTree = Finished (Some index)
    ∧ index !! Sample.fen_e4_c5_Nf3 = Some [0; 1; 0]%nat.
Proof.
  destruct (buildFenIndex_agrees_with_findFen Sample.gameTree 14)
    as (index & Hrun & Hlookup & _).
  - vm_compute. lia.
  - exists index. split; [exact Hrun|]. rewrite Hlookup. vm_compute. reflexivity.
Defined.

(** The game has six moves, three of them without a reply, and lines of
    three plies. *)
Lemma getTreeStats_counts_nodes_leaves_depth_witness :
  getTreeStats 14 Sample.gameTree = Finished (Some (mkTreeStats 6 3 3)).
Proof.
  rewrite (getTreeStats_counts_nodes_leaves_depth Sample.gameTree 14).
  - vm_compute. reflexivity.
  - vm_compute. lia.
Defined.

Lemma treeIterator_yields_in_priority_order_witness :
  ∃ items,
    treeIterator 14 Sample.gameTree = Finished (Some items)
    ∧ StronglySorted (λ a b, hasMorePriority a b = true) (fst <$> items).
Proof.
  apply (treeIterator_yields_in_priority_order Sample.gameTree 14).
  vm_compute. lia.
Defined.

(** From 1... c5 the branch ends with 2. Nf3. *)
Lemma goToBranchEnd_reaches_leaf_below_cursor_witness :
  position (goToBranchEnd (Sample.gameState [0; 1]%nat)) = [0; 1; 0]%nat
  ∧ children (getNodeAtPath Sample.gameTree [0; 1; 0]%nat) = [].
Proof.
  destruct (goToBranchEnd_reaches_leaf_below_cursor (Sample.gameState [0; 1]%nat))
    as (_ & Hpos & _ & Hleaf).
  - vm_compute. reflexivity.
  - rewrite Hpos in Hleaf. split; [rewrite Hpos; vm_compute; reflexivity|exact Hleaf].
Defined.

(** From 1... e5 to 1... c5 and back. *)
Lemma nextBranch_previousBranch_inverse_witness :
  nextBranch (Sample.gameState [0; 0]%nat) Sample.gameWorld
  = Returned (Sample.gameState [0; 1]%nat) Sample.gameWorld
  ∧ previousBranch (Sample.gameState [0; 1]%nat) Sample.gameWorld
    = Returned (Sample.gameState [0; 0]%nat) Sample.gameWorld.
Proof.
  destruct (nextBranch_previousBranch_inverse (Sample.gameState [0; 0]%nat)
              Sample.gameWorld [0%nat] 0%nat)
    as (Hnext & _ & Hback & _).
  - reflexivity.
  - vm_compute. reflexivity.
  - vm_compute. lia.
  - split; [exact Hnext|exact Hback].
Defined.

(** On the knight line of three plies the next branching is its end. *)
Lemma nextBranching_stops_at_next_branching_witness :
  ∃ k,
    nextBranching (Sample.lineState 3 0)
    = withPosition (repeat 0%nat (S k)) (Sample.lineState 3 0)
    ∧ length (children (getNodeAtPath (Sample.lineFrom 3 0) (repeat 0%nat (S k))))
      ≠ 1%nat.
Proof.
  destruct (nextBranching_stops_at_next_branching (Sample.lineState 3 0))
    as (_ & Hgo).
  - vm_compute. reflexivity.
  - destruct Hgo as (k & Hrun & _ & Hstop & _); [vm_compute; discriminate|].
    exists k. split; [exact Hrun|exact Hstop].
Defined.

Lemma navigation_keeps_cursor_valid_witness :
  ∃ state' w',
    navigate PreviousBranching (Sample.gameState [0; 1; 0]%nat) Sample.gameWorld
    = Returned (Finished state') w'
    ∧ resolves (root state') (position state').
Proof.
  destruct (navigation_keeps_cursor_valid PreviousBranching
              (Sample.gameState [0; 1; 0]%nat) Sample.gameWorld)
    as (state' & w' & Hrun & _ & _ & _ & _ & _ & Hres).
  - vm_compute. reflexivity.
  - exists state', w'. split; [exact Hrun|exact Hres].
Defined.


(** In the game the last move but one of the mainline is 1... e5. *)
Lemma getLastMainlinePosition_is_parent_of_last_move_witness :
  getLastMainlinePosition Sample.gameTree = [0; 0]%nat.
Proof.
  destruct (getLastMainlinePosition_is_parent_of_last_move Sample.gameTree)
    as (Hpos & _).
  - reflexivity.
  - intros k Hk.
    assert (Hcases : k = 1%nat ∨ k = 2%nat ∨ k = 3%nat)
      by (vm_compute in Hk; lia).
    destruct Hcases as [-> | [-> | ->]]; vm_compute; by eexists.
  - rewrite Hpos. vm_compute. reflexivity.
Defined.

(** 4... Ng8 on the knight line of seven plies is a new node. *)
Lemma makeMove_adds_new_move_witness :
  ∃ state' w' new,
    makeMove (byNotation "Ng8" false) (Sample.lineState 7 7) (Sample.lineWorld 7)
    = Returned state' w'
    ∧ position state' = repeat 0%nat 8
    ∧ getNodeAtPath (root state') (repeat 0%nat 8) = new
    ∧ san new = Some "Ng8".
Proof.
  destruct (@makeMove_adds_new_move Sample.engine (byNotation "Ng8" false) (Sample.lineState 7 7)
              (Sample.lineWorld 7) (Sample.shuffleFen 7) (Sample.shuffleMove 7))
    as (state' & w' & new & Hrun & _ & Hpos & _ & Hat & (_ & Hsan & _) & _).
  - vm_compute. reflexivity.
  - vm_compute. reflexivity.
  - vm_compute. reflexivity.
  - vm_compute. discriminate.
  - vm_compute. reflexivity.
  - exists state', w', new. split; [exact Hrun|].
    split; [rewrite Hpos; vm_compute; reflexivity|].
    split; [rewrite <- Hat; f_equal|rewrite Hsan; vm_compute; reflexivity].
Defined.

(** An annotation set on 1. e4. *)
Lemma setAnnotation_toggles_annotation_witness :
  ∃ state' w',
    setAnnotation "!" (Sample.gameState [0%nat]) Sample.gameWorld = Returned state' w'
    ∧ "!" ∈ annotations (getNodeAtPath (root state') [0%nat]).
Proof.
  destruct (@setAnnotation_toggles_annotation Sample.host "!" (Sample.gameState [0%nat])
              Sample.gameWorld sortBy_perm)
    as (state' & w' & Hrun & _ & _ & _ & Hadd).
  exists state', w'. split; [exact Hrun|].
  apply Hadd; [|by left]. vm_compute. intros Hin. inversion Hin.
Defined.

Lemma makeMove_keeps_state_well_formed_witness :
  ∃ state' w',
    makeMove (byNotation "Nf3" true) (Sample.gameState [0; 0]%nat) Sample.gameWorld
    = Returned state' w'
    ∧ wellFormed state' w'.
Proof.
  destruct (@makeMove_keeps_state_well_formed Sample.engine (byNotation "Nf3" true)
              (Sample.gameState [0; 0]%nat) Sample.gameWorld gameState_wellFormed)
    as (state' & w' & Hrun & Hwf & _).
  exists state', w'. split; [exact Hrun|exact Hwf].
Defined.

Lemma fieldEdit_keeps_state_well_formed_witness :
  ∃ state' w',
    fieldEdit (EditComment "sharp") (Sample.gameState [0; 0]%nat) Sample.gameWorld
    = Returned state' w'
    ∧ wellFormed state' w'.
Proof.
  destruct (@fieldEdit_keeps_state_well_formed Sample.host (EditComment "sharp")
              (Sample.gameState [0; 0]%nat) Sample.gameWorld gameState_wellFormed)
    as (state' & w' & Hrun & Hwf & _).
  exists state', w'. split; [exact Hrun|exact Hwf].
Defined.

End MoreWitnesses.
